(** * Particle-line loading animation: the [ParticleSystem] kernel

    A shallow embedding of [src/script.ts] (class [ParticleSystem]; the
    plain-JavaScript copy of the class builds the same grid and has the
    same [updateParticles] and [draw], without the checks of the
    constructor) and of the frame of the stand-alone script of the
    repository ([drawScene], module [Legacy]).
    JavaScript numbers are IEEE-754 binary64 values: they are modelled
    by [spec_float] with the rounding operations of the standard
    library's [SpecFloat] at precision 53, so every arithmetic step of
    the source rounds here as it does in the engine.  [Math.cos],
    [Math.sin] and [Math.random] are left to the engine by ECMAScript;
    they are parameters of the model.

    The file has the numbers ([Num]), the program ([ParticleSystem] and
    its methods in a state and error monad, then what its loops
    compute), a theory of rounding to nearest for [SpecFloat]
    ([Rounding], [Signed], [Quotients], instantiated in [Num64] and
    [Signed64]), and the properties of the program. *)

From Stdlib Require Import ZArith QArith Qpower Qabs Bool Lia String.
From Stdlib Require Import Reals Qreals Lra Machin.
From Stdlib Require Import SpecFloat.
From stdpp Require Import list.

Local Open Scope Z_scope.

(** ** JavaScript numbers *)

Module Num.

Definition number : Type := spec_float.

(** binary64: 53 bits of precision, exponents below 1024. *)
Definition prec : Z := 53.
Definition emax : Z := 1024.

Definition add : number -> number -> number := SFadd prec emax.
Definition sub : number -> number -> number := SFsub prec emax.
Definition mul : number -> number -> number := SFmul prec emax.
Definition div : number -> number -> number := SFdiv prec emax.
Definition opp : number -> number := SFopp.
Definition ltb : number -> number -> bool := SFltb.
Definition leb : number -> number -> bool := SFleb.
Definition eqb : number -> number -> bool := SFeqb.

(** An integer as a number; exact for magnitudes up to [2^53]. *)
Definition of_Z (z : Z) : number := binary_normalize prec emax z 0 false.
Definition of_nat (n : nat) : number := of_Z (Z.of_nat n).

(** The number a decimal literal [p/q] denotes: the binary64 value nearest
    to the quotient (both integers are exact and the division rounds
    correctly). *)
Definition dec (p q : Z) : number := div (of_Z p) (of_Z q).

(** A well-formed binary64 datum. *)
Definition valid (x : number) : bool := valid_binary prec emax x.

Definition is_finite (x : number) : bool :=
  match x with
  | S754_zero _ | S754_finite _ _ _ => true
  | _ => false
  end.

(** The exact rational value of a finite number. *)
Definition toQ (x : number) : Q :=
  match x with
  | S754_finite s m e => (inject_Z (cond_Zopp s (Zpos m)) * 2 ^ e)%Q
  | _ => 0%Q
  end.

(** [x % y] for finite operands: the remainder keeps the sign of the
    dividend and is exact. *)
Definition rem (x y : number) : number :=
  match x, y with
  | S754_nan, _ | _, S754_nan => S754_nan
  | S754_infinity _, _ => S754_nan
  | _, S754_zero _ => S754_nan
  | S754_zero _, _ => x
  | S754_finite _ _ _, S754_infinity _ => x
  | S754_finite sx mx ex, S754_finite _ my ey =>
      let ez := Z.min ex ey in
      let X := Zpos mx * 2 ^ (ex - ez) in
      let Y := Zpos my * 2 ^ (ey - ez) in
      binary_normalize prec emax (cond_Zopp sx (X mod Y)) ez sx
  end.

(** The integer part of a positive magnitude [m * 2^e] and whether a
    fraction was dropped. *)
Definition trunc_mag (m : positive) (e : Z) : Z * bool :=
  match e with
  | Zneg p =>
      let d := Z.pow_pos 2 p in
      (Zpos m / d, negb (Zpos m mod d =? 0))
  | _ => (Zpos m * 2 ^ e, false)
  end.

Definition floor (x : number) : number :=
  match x with
  | S754_finite s m e =>
      let '(q, inexact) := trunc_mag m e in
      if s then binary_normalize prec emax (- (if inexact then q + 1 else q)) 0 true
      else binary_normalize prec emax q 0 false
  | _ => x
  end.

Definition ceil (x : number) : number :=
  match x with
  | S754_finite s m e =>
      let '(q, inexact) := trunc_mag m e in
      if s then binary_normalize prec emax (- q) 0 true
      else binary_normalize prec emax (if inexact then q + 1 else q) 0 false
  | _ => x
  end.

Definition sqrt : number -> number := SFsqrt prec emax.

(** [Math.PI]: 0x1.921fb54442d18p+1. *)
Definition PI : number := S754_finite false 7074237752028440 (-51).

(** Conversion to binary32 and back, as a store into a [Float32Array]
    performs it ([Math.fround]): round to 24 bits with exponents below
    128, then write the result again as a canonical binary64 datum. *)
Definition fround (x : number) : number :=
  match x with
  | S754_finite s m e =>
      match binary_round 24 128 s m e with
      | S754_finite s' m' e' => binary_round prec emax s' m' e'
      | y => y
      end
  | _ => x
  end.

(** The integer a number holds, when it holds a non-negative one. *)
Definition to_Z (x : number) : option Z :=
  match x with
  | S754_zero _ => Some 0
  | S754_finite false m e =>
      let '(q, inexact) := trunc_mag m e in
      if inexact then None else Some q
  | _ => None
  end.

End Num.

Declare Scope js_scope.
Delimit Scope js_scope with js.
Notation "x + y" := (Num.add x y) : js_scope.
Notation "x - y" := (Num.sub x y) : js_scope.
Notation "x * y" := (Num.mul x y) : js_scope.
Notation "x / y" := (Num.div x y) : js_scope.
Notation "x 'mod' y" := (Num.rem x y) : js_scope.
Notation "x <? y" := (Num.ltb x y) : js_scope.
Notation "x <=? y" := (Num.leb x y) : js_scope.

Abbreviation number := Num.number.

(** ** The particle system and its host *)

(** [interface Particle]. *)
Record Particle : Type := mkParticle {
  position_x : number;
  position_y : number;
  rotation : number;
  speed : number;
  radius : number }.

Definition set_rotation (p : Particle) (r : number) : Particle :=
  {| position_x := position_x p; position_y := position_y p;
     rotation := r; speed := speed p; radius := radius p |}.

Inductive ShaderType : Type := VERTEX_SHADER | FRAGMENT_SHADER.

(** The WebGL calls the class issues; the arguments are kept where a
    property of the program speaks about them. *)
Inductive GLcall : Type :=
| gl_viewport
| gl_enable_BLEND
| gl_disable_DEPTH_TEST
| gl_blendFunc
| gl_clearColor
| gl_shaderSource (t : ShaderType)
| gl_compileShader (t : ShaderType)
| gl_deleteShader (t : ShaderType)
| gl_attachShader (t : ShaderType)
| gl_linkProgram
| gl_useProgram
| gl_uniformMatrix4fv (name : string)
| gl_bindBuffer
| gl_enableVertexAttribArray
| gl_vertexAttribPointer
| gl_clear
| gl_lineWidth (width : number)
| gl_bufferData (data : list number)
| gl_drawArrays_LINES (first count : number)
| gl_flush.

(** The fields of the object that the animation reads and writes, with
    the two pieces of global state it drives: the position on the tape of
    [Math.random] and the WebGL calls issued so far (oldest first). *)
Record ParticleSystem : Type := mkSystem {
  particles : list Particle;
  vertices : list number;
  numParticles : number;
  random_calls : nat;
  gl_trace : list GLcall;
  frames_requested : nat }.

(** What the page and the driver answer during set-up. *)
Record Host : Type := mkHost {
  getElementById : string -> bool;
  getContext : string -> bool;
  createShader : ShaderType -> bool;
  COMPILE_STATUS : ShaderType -> bool;
  getShaderInfoLog : ShaderType -> string;
  createProgram : bool;
  LINK_STATUS : bool;
  getUniformLocation : string -> bool;
  createBuffer : bool }.

Inductive Outcome (A : Type) : Type :=
| Returns (a : A) (s : ParticleSystem)
| Throws (msg : string) (s : ParticleSystem).
Arguments Returns {A} a s.
Arguments Throws {A} msg s.

(** Methods: state in, a result or a thrown error out. *)
Definition M (A : Type) : Type := ParticleSystem -> Outcome A.

#[export] Instance M_ret : MRet M := fun A a s => Returns a s.
#[export] Instance M_bind : MBind M := fun A B k c s =>
  match c s with
  | Returns a s' => k a s'
  | Throws msg s' => Throws msg s'
  end.

Definition throw {A : Type} (msg : string) : M A := fun s => Throws msg s.
Definition gets {A : Type} (f : ParticleSystem -> A) : M A := fun s => Returns (f s) s.
Definition modify (f : ParticleSystem -> ParticleSystem) : M unit := fun s => Returns tt (f s).

Definition final_state {A : Type} (o : Outcome A) : ParticleSystem :=
  match o with Returns _ s => s | Throws _ s => s end.

Definition set_particles (ps : list Particle) : M unit :=
  modify (fun s => mkSystem ps (vertices s) (numParticles s) (random_calls s)
                     (gl_trace s) (frames_requested s)).
Definition set_vertices (vs : list number) : M unit :=
  modify (fun s => mkSystem (particles s) vs (numParticles s) (random_calls s)
                     (gl_trace s) (frames_requested s)).
Definition set_numParticles (n : number) : M unit :=
  modify (fun s => mkSystem (particles s) (vertices s) n (random_calls s)
                     (gl_trace s) (frames_requested s)).

(** One WebGL call. *)
Definition gl (c : GLcall) : M unit :=
  modify (fun s => mkSystem (particles s) (vertices s) (numParticles s) (random_calls s)
                     (gl_trace s ++ [c]) (frames_requested s)).

Definition requestAnimationFrame : M unit :=
  modify (fun s => mkSystem (particles s) (vertices s) (numParticles s) (random_calls s)
                     (gl_trace s) (S (frames_requested s))).

(** [for (let i = from; i < from + n; i++) body(i)]. *)
Fixpoint for_range (from n : nat) (body : nat -> M unit) : M unit :=
  match n with
  | O => mret tt
  | S k => body from ;; for_range (S from) k body
  end.

(** How often [for (let i = 0; i < n; i++)] runs its body, for a finite
    bound. *)
Definition loop_trips (n : number) : nat :=
  match Num.to_Z (Num.ceil n) with
  | Some k => Z.to_nat k
  | None => O
  end.

(** [ToIndex], the length a typed-array constructor takes from a number. *)
Definition ToIndex (n : number) : option Z :=
  match n with
  | S754_nan | S754_zero _ => Some 0
  | S754_infinity _ => None
  | S754_finite s m e =>
      let q := fst (Num.trunc_mag m e) in
      if s && (0 <? q) then None else Some q
  end.

(** [new Float32Array(n)]; a range error for a length that is none. *)
Definition new_Float32Array (n : number) : M (list number) :=
  match ToIndex n with
  | Some len => mret (replicate (Z.to_nat len) (S754_zero false))
  | None => throw "Invalid typed array length"
  end.

(** [this.vertices[idx] = v]: the value is converted to binary32; a store
    outside the array is ignored. *)
Definition store_vertex (idx : nat) (v : number) : M unit :=
  modify (fun s => mkSystem (particles s) (<[idx := Num.fround v]> (vertices s))
                     (numParticles s) (random_calls s) (gl_trace s) (frames_requested s)).

Section Engine.

(** [Math.cos], [Math.sin], the values [Math.random] returns call after
    call, and the host. *)
Variable Math_cos Math_sin : number -> number.
Variable random_tape : nat -> number.
Variable host : Host.

Definition Math_random : M number := fun s =>
  Returns (random_tape (random_calls s))
    (mkSystem (particles s) (vertices s) (numParticles s) (S (random_calls s))
       (gl_trace s) (frames_requested s)).

(** [this.particles[i]], read for its fields: a type error when the slot
    is undefined. *)
Definition particle_at (i : nat) : M Particle := fun s =>
  match particles s !! i with
  | Some p => Returns p s
  | None => Throws "Cannot read properties of undefined" s
  end.

(** [particle.rotation += ...] on the object held in slot [i]. *)
Definition write_particle (i : nat) (p : Particle) : M unit :=
  modify (fun s => mkSystem (<[i := p]> (particles s)) (vertices s) (numParticles s)
                     (random_calls s) (gl_trace s) (frames_requested s)).

(** The body of the loop of [createParticles]. *)
Definition createParticles_body (gridWidth cellSize : number) (i : nat) : M unit :=
  let x := (Num.of_nat i mod gridWidth * cellSize - Num.of_Z 1)%js in
  let y := (Num.floor (Num.of_nat i / gridWidth) * cellSize - Num.of_Z 1)%js in
  r1 ← Math_random;
  r2 ← Math_random;
  r3 ← Math_random;
  ps ← gets particles;
  set_particles (ps ++ [ {| position_x := x; position_y := y;
                            rotation := (r1 * Num.PI * Num.of_Z 2)%js;
                            speed := (r2 * Num.dec 2 100 + Num.dec 1 100)%js;
                            radius := (r3 * Num.dec 1 10 + Num.dec 5 100)%js |} ]).

Definition createParticles : M unit :=
  set_numParticles (Num.of_Z 80000) ;;
  set_particles [] ;;
  n ← gets numParticles;
  vs ← new_Float32Array (n * Num.of_Z 6)%js;
  set_vertices vs ;;
  n ← gets numParticles;
  let gridWidth := Num.ceil (Num.sqrt n) in
  let cellSize := (Num.of_Z 2 / gridWidth)%js in
  for_range 0 (loop_trips n) (createParticles_body gridWidth cellSize) ;;
  (if createBuffer host then mret tt else throw "Failed to create vertex buffer") ;;
  gl gl_bindBuffer ;;
  gl gl_enableVertexAttribArray ;;
  gl gl_vertexAttribPointer.

(** The body of the loop of [updateParticles]. *)
Definition updateParticles_body (i : nat) : M unit :=
  particle ← particle_at i;
  let particle := set_rotation particle (rotation particle + speed particle)%js in
  write_particle i particle ;;
  let idx := (i * 6)%nat in
  let radius := radius particle in
  let cos := (Math_cos (rotation particle) * radius)%js in
  let sin := (Math_sin (rotation particle) * radius)%js in
  store_vertex idx (position_x particle + cos)%js ;;
  store_vertex (idx + 1) (position_y particle + sin)%js ;;
  store_vertex (idx + 2) (Num.of_Z 0) ;;
  store_vertex (idx + 3) (position_x particle - cos)%js ;;
  store_vertex (idx + 4) (position_y particle - sin)%js ;;
  store_vertex (idx + 5) (Num.of_Z 0).

Definition updateParticles : M unit :=
  len ← gets (fun s => length (particles s));
  for_range 0 len updateParticles_body ;;
  vs ← gets vertices;
  gl (gl_bufferData vs).

Definition draw : M unit :=
  gl gl_clear ;;
  updateParticles ;;
  n ← gets numParticles;
  gl (gl_drawArrays_LINES (Num.of_Z 0) (n * Num.of_Z 2)%js) ;;
  gl gl_flush.

Definition animate : M unit :=
  draw ;;
  requestAnimationFrame.

Definition setParticleCount (count : number) : M unit :=
  set_numParticles count ;;
  createParticles.

Definition resize : M unit := gl gl_viewport.

Definition initWebGL : M unit :=
  (if getContext host "webgl" || getContext host "experimental-webgl"
   then mret tt else throw "WebGL not supported") ;;
  resize ;;
  gl gl_enable_BLEND ;;
  gl gl_disable_DEPTH_TEST ;;
  gl gl_blendFunc ;;
  gl gl_clearColor.

Definition compileShader (t : ShaderType) : M unit :=
  (if createShader host t then mret tt else throw "Failed to create shader") ;;
  gl (gl_shaderSource t) ;;
  gl (gl_compileShader t) ;;
  if COMPILE_STATUS host t then mret tt
  else gl (gl_deleteShader t) ;;
       throw ("Shader compilation error: " ++ getShaderInfoLog host t)%string.

Definition initShaders : M unit :=
  compileShader VERTEX_SHADER ;;
  compileShader FRAGMENT_SHADER ;;
  (if createProgram host then mret tt else throw "Failed to create shader program") ;;
  gl (gl_attachShader VERTEX_SHADER) ;;
  gl (gl_attachShader FRAGMENT_SHADER) ;;
  gl gl_linkProgram ;;
  (if LINK_STATUS host then mret tt else throw "Unable to initialize shaders") ;;
  gl gl_useProgram.

Definition setupScene : M unit :=
  (if getUniformLocation host "modelViewMatrix" && getUniformLocation host "perspectiveMatrix"
   then mret tt else throw "Unable to get uniform locations") ;;
  gl (gl_uniformMatrix4fv "modelViewMatrix") ;;
  gl (gl_uniformMatrix4fv "perspectiveMatrix").

Definition constructor (canvasId : string) : M unit :=
  (if getElementById host canvasId then mret tt
   else throw ("Canvas element with id '" ++ canvasId ++ "' not found")%string) ;;
  initWebGL ;;
  initShaders ;;
  setupScene ;;
  createParticles ;;
  animate.

End Engine.

(** ** What one pass of the update loop does *)

Section Kernel.

Variable Math_cos Math_sin : number -> number.

(** [particle.rotation += particle.speed]. *)
Definition advance (p : Particle) : Particle :=
  set_rotation p (rotation p + speed p)%js.

(** The six values assigned for a particle (already advanced), in the
    order of the slots [idx .. idx + 5]. *)
Definition segment (p : Particle) : list number :=
  let cos := (Math_cos (rotation p) * radius p)%js in
  let sin := (Math_sin (rotation p) * radius p)%js in
  [ (position_x p + cos)%js; (position_y p + sin)%js; Num.of_Z 0;
    (position_x p - cos)%js; (position_y p - sin)%js; Num.of_Z 0 ].

(** The state the body of the loop leaves when slot [i] holds [p]. *)
Definition after_body (i : nat) (p : Particle) (s : ParticleSystem) : ParticleSystem :=
  let q := advance p in
  let cos := (Math_cos (rotation q) * radius q)%js in
  let sin := (Math_sin (rotation q) * radius q)%js in
  mkSystem (<[i := q]> (particles s))
    (<[(i * 6 + 5)%nat := Num.fround (Num.of_Z 0)]>
     (<[(i * 6 + 4)%nat := Num.fround (position_y q - sin)%js]>
      (<[(i * 6 + 3)%nat := Num.fround (position_x q - cos)%js]>
       (<[(i * 6 + 2)%nat := Num.fround (Num.of_Z 0)]>
        (<[(i * 6 + 1)%nat := Num.fround (position_y q + sin)%js]>
         (<[(i * 6)%nat := Num.fround (position_x q + cos)%js]> (vertices s)))))))
    (numParticles s) (random_calls s) (gl_trace s) (frames_requested s).

Lemma updateParticles_body_eq (i : nat) (p : Particle) (s : ParticleSystem) :
  particles s !! i = Some p ->
  updateParticles_body Math_cos Math_sin i s = Returns tt (after_body i p s).
Proof.
  intros Hp.
  unfold updateParticles_body, particle_at, mbind, M_bind.
  rewrite Hp. reflexivity.
Qed.

Lemma after_body_length_particles i p s :
  length (particles (after_body i p s)) = length (particles s).
Proof. unfold after_body; simpl. apply length_insert. Qed.

Lemma after_body_length_vertices i p s :
  length (vertices (after_body i p s)) = length (vertices s).
Proof. unfold after_body; simpl. rewrite !length_insert. reflexivity. Qed.

Lemma after_body_particle_eq i p s :
  particles s !! i = Some p ->
  particles (after_body i p s) !! i = Some (advance p).
Proof.
  intros Hp. unfold after_body; simpl.
  apply list_lookup_insert_eq. eapply lookup_lt_Some; eauto.
Qed.

Lemma after_body_particle_ne i k p s :
  i <> k -> particles (after_body i p s) !! k = particles s !! k.
Proof. intros Hne. unfold after_body; simpl. by apply list_lookup_insert_ne. Qed.

(** Slot [i * 6 + c] of the buffer after the body, for [c < 6]. *)
Lemma after_body_vertex_in i c p s :
  (c < 6)%nat -> (i * 6 + c < length (vertices s))%nat ->
  vertices (after_body i p s) !! (i * 6 + c)%nat
  = Num.fround <$> segment (advance p) !! c.
Proof.
  intros Hc Hlen. unfold after_body, segment; simpl vertices.
  do 6 (destruct c as [|c];
        [ rewrite ?Nat.add_0_r;
          repeat (rewrite list_lookup_insert_ne by lia);
          rewrite list_lookup_insert_eq by (rewrite ?length_insert; lia);
          reflexivity | ]).
  lia.
Qed.

Lemma after_body_vertex_out i j p s :
  ~ (i * 6 <= j < i * 6 + 6)%nat ->
  vertices (after_body i p s) !! j = vertices s !! j.
Proof.
  intros Hj. unfold after_body; simpl vertices.
  repeat (rewrite list_lookup_insert_ne by lia). reflexivity.
Qed.

Lemma after_body_numParticles i p s :
  numParticles (after_body i p s) = numParticles s.
Proof. reflexivity. Qed.

Lemma after_body_gl_trace i p s : gl_trace (after_body i p s) = gl_trace s.
Proof. reflexivity. Qed.

Lemma after_body_random_calls i p s : random_calls (after_body i p s) = random_calls s.
Proof. reflexivity. Qed.

Lemma after_body_frames i p s : frames_requested (after_body i p s) = frames_requested s.
Proof. reflexivity. Qed.

(** The loop over the slots [from .. from + n - 1]. *)
Record loop_post (from n : nat) (s s' : ParticleSystem) : Prop := {
  lp_len_p : length (particles s') = length (particles s);
  lp_len_v : length (vertices s') = length (vertices s);
  lp_p_in : forall i, (from <= i < from + n)%nat ->
            particles s' !! i = advance <$> particles s !! i;
  lp_p_out : forall i, ~ (from <= i < from + n)%nat ->
             particles s' !! i = particles s !! i;
  lp_v_in : forall i c p, (from <= i < from + n)%nat -> (c < 6)%nat ->
            particles s !! i = Some p ->
            (i * 6 + c < length (vertices s))%nat ->
            vertices s' !! (i * 6 + c)%nat = Num.fround <$> segment (advance p) !! c;
  lp_v_out : forall j, ~ (from * 6 <= j < (from + n) * 6)%nat ->
             vertices s' !! j = vertices s !! j;
  lp_num : numParticles s' = numParticles s;
  lp_trace : gl_trace s' = gl_trace s;
  lp_random : random_calls s' = random_calls s;
  lp_frames : frames_requested s' = frames_requested s }.

Lemma update_loop (n : nat) : forall (from : nat) (s : ParticleSystem),
  (from + n <= length (particles s))%nat ->
  exists s', for_range from n (updateParticles_body Math_cos Math_sin) s = Returns tt s'
             /\ loop_post from n s s'.
Proof.
  induction n as [|n IH]; intros from s Hlen.
  - exists s. split; [reflexivity|].
    constructor; try reflexivity; intros; lia.
  - destruct (lookup_lt_is_Some_2 (particles s) from) as [p Hp]; [lia|].
    destruct (IH (S from) (after_body from p s)) as (s' & Hrun & Hpost).
    { rewrite after_body_length_particles. lia. }
    exists s'. split.
    { simpl. unfold mbind, M_bind at 1.
      rewrite (updateParticles_body_eq from p s Hp). exact Hrun. }
    destruct Hpost as [Hlp Hlv Hpin Hpout Hvin Hvout Hnum Htr Hrnd Hfr].
    constructor.
    + rewrite Hlp. apply after_body_length_particles.
    + rewrite Hlv. apply after_body_length_vertices.
    + intros i Hi. destruct (decide (i = from)) as [->|Hne].
      * rewrite Hpout by lia. rewrite (after_body_particle_eq _ _ _ Hp), Hp. reflexivity.
      * rewrite Hpin by lia. rewrite after_body_particle_ne by congruence. reflexivity.
    + intros i Hi. rewrite Hpout by lia. apply after_body_particle_ne. lia.
    + intros i c q Hi Hc Hq Hv. destruct (decide (i = from)) as [->|Hne].
      * rewrite Hvout by lia.
        assert (q = p) as -> by congruence.
        by apply after_body_vertex_in.
      * apply Hvin; try lia.
        -- rewrite after_body_particle_ne by congruence. exact Hq.
        -- rewrite after_body_length_vertices. exact Hv.
    + intros j Hj. rewrite Hvout by lia. apply after_body_vertex_out. lia.
    + rewrite Hnum. reflexivity.
    + rewrite Htr. reflexivity.
    + rewrite Hrnd. reflexivity.
    + rewrite Hfr. reflexivity.
Qed.

(** [updateParticles] always returns; its effect on the state. *)
Lemma updateParticles_returns (s : ParticleSystem) :
  exists s', for_range 0 (length (particles s)) (updateParticles_body Math_cos Math_sin) s
             = Returns tt s'
    /\ loop_post 0 (length (particles s)) s s'
    /\ updateParticles Math_cos Math_sin s
       = Returns tt (mkSystem (particles s') (vertices s') (numParticles s')
                       (random_calls s') (gl_trace s' ++ [gl_bufferData (vertices s')])
                       (frames_requested s')).
Proof.
  destruct (update_loop (length (particles s)) 0 s) as (s' & Hrun & Hpost); [lia|].
  exists s'. split; [exact Hrun|]. split; [exact Hpost|].
  unfold updateParticles, gets, mbind, M_bind.
  rewrite Hrun. reflexivity.
Qed.

End Kernel.

(** ** What [createParticles] builds *)

(** The constants of [createParticles]. *)
Definition particle_count : nat := Z.to_nat 80000.
Definition gridWidth : number := Num.ceil (Num.sqrt (Num.of_Z 80000)).
Definition cellSize : number := (Num.of_Z 2 / gridWidth)%js.

Lemma gridWidth_value : gridWidth = Num.of_Z 283.
Proof. vm_compute. reflexivity. Qed.

Lemma loop_trips_80000 : loop_trips (Num.of_Z 80000) = particle_count.
Proof.
  unfold loop_trips.
  replace (Num.to_Z (Num.ceil (Num.of_Z 80000))) with (Some 80000)
    by (vm_compute; reflexivity).
  reflexivity.
Qed.

Lemma ToIndex_480000 : ToIndex (Num.of_Z 80000 * Num.of_Z 6)%js = Some 480000.
Proof. vm_compute. reflexivity. Qed.

Lemma buffer_length_480000 : Z.to_nat 480000 = (particle_count * 6)%nat.
Proof. unfold particle_count. lia. Qed.

Section Creation.

Variable random_tape : nat -> number.
Variable host : Host.

(** The particle pushed by iteration [i] when [r] calls of [Math.random]
    came before it. *)
Definition new_particle (gw cs : number) (i r : nat) : Particle :=
  {| position_x := (Num.of_nat i mod gw * cs - Num.of_Z 1)%js;
     position_y := (Num.floor (Num.of_nat i / gw) * cs - Num.of_Z 1)%js;
     rotation := (random_tape r * Num.PI * Num.of_Z 2)%js;
     speed := (random_tape (S r) * Num.dec 2 100 + Num.dec 1 100)%js;
     radius := (random_tape (S (S r)) * Num.dec 1 10 + Num.dec 5 100)%js |}.

Lemma createParticles_body_eq gw cs i s :
  createParticles_body random_tape gw cs i s
  = Returns tt (mkSystem (particles s ++ [new_particle gw cs i (random_calls s)])
                  (vertices s) (numParticles s) (S (S (S (random_calls s))))
                  (gl_trace s) (frames_requested s)).
Proof. reflexivity. Qed.

(** The particles pushed by iterations [from .. from + n - 1]. *)
Definition pushed (gw cs : number) (from r n : nat) : list Particle :=
  map (fun k => new_particle gw cs (from + k) (r + 3 * k)) (seq 0 n).

Lemma pushed_length gw cs from r n : length (pushed gw cs from r n) = n.
Proof. unfold pushed. rewrite length_map, length_seq. reflexivity. Qed.

Lemma pushed_lookup gw cs from r n k :
  (k < n)%nat ->
  pushed gw cs from r n !! k = Some (new_particle gw cs (from + k) (r + 3 * k)).
Proof.
  intros Hk. unfold pushed.
  rewrite list_lookup_fmap, lookup_seq_lt by lia. reflexivity.
Qed.

Lemma pushed_S gw cs from r n :
  pushed gw cs from r (S n)
  = new_particle gw cs from r :: pushed gw cs (S from) (r + 3) n.
Proof.
  unfold pushed. rewrite <- cons_seq. cbn [map].
  rewrite Nat.add_0_r, Nat.mul_0_r, Nat.add_0_r. f_equal.
  rewrite <- fmap_S_seq. rewrite <- list_fmap_compose.
  apply list_fmap_ext. intros _ k _. cbn.
  f_equal; lia.
Qed.

Lemma create_loop gw cs (n : nat) : forall (from : nat) (s : ParticleSystem),
  for_range from n (createParticles_body random_tape gw cs) s
  = Returns tt (mkSystem (particles s ++ pushed gw cs from (random_calls s) n)
                  (vertices s) (numParticles s) (random_calls s + 3 * n)
                  (gl_trace s) (frames_requested s)).
Proof.
  induction n as [|n IH]; intros from s.
  - cbn. rewrite app_nil_r, Nat.add_0_r. by destruct s.
  - cbn [for_range]. unfold mbind, M_bind at 1.
    rewrite createParticles_body_eq, IH. cbn [particles vertices numParticles random_calls
      gl_trace frames_requested].
    rewrite pushed_S, <- app_assoc. cbn [app].
    do 2 f_equal; [ do 3 f_equal; lia | lia ].
Qed.

(** The fields [createParticles] leaves, started in state [s]. *)
Definition created (s : ParticleSystem) : ParticleSystem :=
  mkSystem (pushed gridWidth cellSize 0 (random_calls s) particle_count)
    (replicate (particle_count * 6) (S754_zero false))
    (Num.of_Z 80000) (random_calls s + 3 * particle_count)
    (gl_trace s) (frames_requested s).

Lemma createParticles_eq (s : ParticleSystem) :
  createParticles random_tape host s
  = if createBuffer host
    then Returns tt (mkSystem (particles (created s)) (vertices (created s))
                       (numParticles (created s)) (random_calls (created s))
                       (gl_trace s ++ [gl_bindBuffer; gl_enableVertexAttribArray;
                                       gl_vertexAttribPointer])
                       (frames_requested s))
    else Throws "Failed to create vertex buffer" (created s).
Proof.
  unfold createParticles, set_numParticles, set_particles, set_vertices, gets, modify,
    new_Float32Array, mbind, M_bind, mret, M_ret.
  cbn [particles vertices numParticles random_calls gl_trace frames_requested].
  rewrite ToIndex_480000, buffer_length_480000.
  cbn [particles vertices numParticles random_calls gl_trace frames_requested].
  rewrite loop_trips_80000.
  fold gridWidth. fold cellSize.
  rewrite create_loop.
  cbn [particles vertices numParticles random_calls gl_trace frames_requested app].
  destruct (createBuffer host).
  - unfold gl, modify.
    cbn [particles vertices numParticles random_calls gl_trace frames_requested].
    rewrite <- !app_assoc. reflexivity.
  - reflexivity.
Qed.

Lemma createParticles_fields (s : ParticleSystem) :
  let s' := final_state (createParticles random_tape host s) in
  particles s' = pushed gridWidth cellSize 0 (random_calls s) particle_count /\
  vertices s' = replicate (particle_count * 6) (S754_zero false) /\
  numParticles s' = Num.of_Z 80000 /\
  random_calls s' = (random_calls s + 3 * particle_count)%nat.
Proof.
  cbn zeta. rewrite createParticles_eq.
  destruct (createBuffer host); repeat split; reflexivity.
Qed.

End Creation.

(** ** Ticks, frames and the reachable states *)

(** The state with one more WebGL call on its trace. *)
Definition issued (c : GLcall) (s : ParticleSystem) : ParticleSystem :=
  mkSystem (particles s) (vertices s) (numParticles s) (random_calls s)
    (gl_trace s ++ [c]) (frames_requested s).

Lemma gl_eq c s : gl c s = Returns tt (issued c s).
Proof. reflexivity. Qed.

Section Frames.

Variable Math_cos Math_sin : number -> number.
Variable random_tape : nat -> number.
Variable host : Host.

(** The state when the loop of [updateParticles] is left. *)
Definition after_loop (s : ParticleSystem) : ParticleSystem :=
  final_state (for_range 0 (length (particles s))
                 (updateParticles_body Math_cos Math_sin) s).

Lemma after_loop_run s :
  for_range 0 (length (particles s)) (updateParticles_body Math_cos Math_sin) s
  = Returns tt (after_loop s).
Proof.
  unfold after_loop.
  destruct (update_loop Math_cos Math_sin (length (particles s)) 0 s) as (s' & -> & _);
    [lia | reflexivity].
Qed.

Lemma after_loop_post s : loop_post Math_cos Math_sin 0 (length (particles s)) s (after_loop s).
Proof.
  destruct (update_loop Math_cos Math_sin (length (particles s)) 0 s) as (s' & Hrun & Hpost);
    [lia|].
  unfold after_loop. rewrite Hrun. exact Hpost.
Qed.

(** The state one tick leaves: the loop, then the upload of the buffer. *)
Definition tick (s : ParticleSystem) : ParticleSystem :=
  issued (gl_bufferData (vertices (after_loop s))) (after_loop s).

Lemma updateParticles_eq s : updateParticles Math_cos Math_sin s = Returns tt (tick s).
Proof.
  unfold updateParticles, gets, mbind, M_bind.
  rewrite after_loop_run. reflexivity.
Qed.

(** The state one frame leaves. *)
Definition frame_drawn (s : ParticleSystem) : ParticleSystem :=
  let s1 := tick (issued gl_clear s) in
  issued gl_flush
    (issued (gl_drawArrays_LINES (Num.of_Z 0) (numParticles s1 * Num.of_Z 2)%js) s1).

Lemma draw_eq s : draw Math_cos Math_sin s = Returns tt (frame_drawn s).
Proof.
  unfold draw, gets, mbind, M_bind.
  rewrite gl_eq, updateParticles_eq. reflexivity.
Qed.

Definition frame (s : ParticleSystem) : ParticleSystem :=
  let s1 := frame_drawn s in
  mkSystem (particles s1) (vertices s1) (numParticles s1) (random_calls s1)
    (gl_trace s1) (S (frames_requested s1)).

Lemma animate_eq s : animate Math_cos Math_sin s = Returns tt (frame s).
Proof.
  unfold animate, mbind, M_bind. rewrite draw_eq. reflexivity.
Qed.

(** [n] ticks in a row. *)
Fixpoint ticks (n : nat) (s : ParticleSystem) : ParticleSystem :=
  match n with
  | O => s
  | S k => ticks k (final_state (updateParticles Math_cos Math_sin s))
  end.

Lemma setParticleCount_eq count s :
  setParticleCount random_tape host count s
  = createParticles random_tape host
      (mkSystem (particles s) (vertices s) count (random_calls s)
         (gl_trace s) (frames_requested s)).
Proof. reflexivity. Qed.

(** The states a constructed object goes through: the constructor
    returned it; the host ran a frame; a caller asked for a particle
    count (the object stays in use when that call throws). *)
Inductive reachable : ParticleSystem -> Prop :=
| reach_constructor canvasId s0 s :
    constructor Math_cos Math_sin random_tape host canvasId s0 = Returns tt s ->
    reachable s
| reach_frame s :
    reachable s ->
    reachable (final_state (animate Math_cos Math_sin s))
| reach_setParticleCount count s :
    reachable s ->
    reachable (final_state (setParticleCount random_tape host count s)).

(** What holds of the fields in every such state. *)
Record well_formed (s : ParticleSystem) : Prop := {
  wf_count : numParticles s = Num.of_Z 80000;
  wf_particles : length (particles s) = particle_count;
  wf_vertices : length (vertices s) = (length (particles s) * 6)%nat }.

Lemma created_well_formed s : well_formed (created random_tape s).
Proof.
  constructor; unfold created; cbn [particles vertices numParticles].
  - reflexivity.
  - apply pushed_length.
  - rewrite pushed_length, length_replicate. reflexivity.
Qed.

Lemma createParticles_well_formed s :
  well_formed (final_state (createParticles random_tape host s)).
Proof.
  rewrite createParticles_eq.
  destruct (createBuffer host); cbn [final_state].
  - destruct (created_well_formed s) as [H1 H2 H3].
    constructor; cbn [particles vertices numParticles]; assumption.
  - apply created_well_formed.
Qed.

Lemma tick_well_formed s : well_formed s -> well_formed (tick s).
Proof.
  intros [H1 H2 H3].
  destruct (after_loop_post s) as [Hlp Hlv _ _ _ _ Hnum _ _ _].
  constructor; unfold tick, issued; cbn [particles vertices numParticles]; congruence.
Qed.

Lemma issued_well_formed c s : well_formed s -> well_formed (issued c s).
Proof. intros [H1 H2 H3]. constructor; assumption. Qed.

Lemma frame_well_formed s : well_formed s -> well_formed (frame s).
Proof.
  intros Hwf.
  assert (well_formed (frame_drawn s)) as [H1 H2 H3].
  { unfold frame_drawn. do 2 apply issued_well_formed.
    apply tick_well_formed, issued_well_formed, Hwf. }
  constructor; assumption.
Qed.

Lemma tick_frames_requested s : frames_requested (tick s) = frames_requested s.
Proof.
  destruct (after_loop_post s) as [_ _ _ _ _ _ _ _ _ Hfr].
  unfold tick, issued; cbn [frames_requested]. exact Hfr.
Qed.

Lemma frame_frames_requested s : frames_requested (frame s) = S (frames_requested s).
Proof.
  unfold frame, frame_drawn, issued; cbn [frames_requested].
  rewrite tick_frames_requested. reflexivity.
Qed.

End Frames.

(** ** The constructor *)

Lemma bind_returns {A B : Type} (c : M A) (k : A -> M B) (s s' : ParticleSystem) (b : B) :
  (c ≫= k) s = Returns b s' ->
  exists a s1, c s = Returns a s1 /\ k a s1 = Returns b s'.
Proof.
  unfold mbind, M_bind. destruct (c s) as [a s1|msg s1]; [|discriminate].
  intros H. exists a, s1. split; [reflexivity | exact H].
Qed.

Section Construction.

Variable Math_cos Math_sin : number -> number.
Variable random_tape : nat -> number.
Variable host : Host.

(** The message of the first check of the constructor that the host
    fails, in the order the constructor makes them. *)
Definition first_failure (canvasId : string) : option string :=
  if negb (getElementById host canvasId)
  then Some ("Canvas element with id '" ++ canvasId ++ "' not found")%string
  else if negb (getContext host "webgl" || getContext host "experimental-webgl")
  then Some "WebGL not supported"%string
  else if negb (createShader host VERTEX_SHADER)
  then Some "Failed to create shader"%string
  else if negb (COMPILE_STATUS host VERTEX_SHADER)
  then Some ("Shader compilation error: " ++ getShaderInfoLog host VERTEX_SHADER)%string
  else if negb (createShader host FRAGMENT_SHADER)
  then Some "Failed to create shader"%string
  else if negb (COMPILE_STATUS host FRAGMENT_SHADER)
  then Some ("Shader compilation error: " ++ getShaderInfoLog host FRAGMENT_SHADER)%string
  else if negb (createProgram host)
  then Some "Failed to create shader program"%string
  else if negb (LINK_STATUS host)
  then Some "Unable to initialize shaders"%string
  else if negb (getUniformLocation host "modelViewMatrix"
                && getUniformLocation host "perspectiveMatrix")
  then Some "Unable to get uniform locations"%string
  else if negb (createBuffer host)
  then Some "Failed to create vertex buffer"%string
  else None.

Lemma constructor_outcome (canvasId : string) (s : ParticleSystem) :
  match first_failure canvasId with
  | Some msg => exists s',
      constructor Math_cos Math_sin random_tape host canvasId s = Throws msg s'
      /\ frames_requested s' = frames_requested s
  | None => exists s',
      constructor Math_cos Math_sin random_tape host canvasId s = Returns tt s'
      /\ frames_requested s' = S (frames_requested s)
  end.
Proof.
  unfold first_failure, constructor, initWebGL, initShaders, setupScene, compileShader,
    resize.
  unfold mbind, M_bind, mret, M_ret, throw.
  destruct (getElementById host canvasId); cbn [negb];
    [|eexists; split; reflexivity].
  destruct (getContext host "webgl" || getContext host "experimental-webgl");
    cbn [negb]; [|eexists; split; reflexivity].
  rewrite !gl_eq.
  destruct (createShader host VERTEX_SHADER); cbn [negb];
    [|eexists; split; reflexivity].
  rewrite !gl_eq.
  destruct (COMPILE_STATUS host VERTEX_SHADER); cbn [negb];
    [|rewrite gl_eq; eexists; split; reflexivity].
  destruct (createShader host FRAGMENT_SHADER); cbn [negb];
    [|eexists; split; reflexivity].
  rewrite !gl_eq.
  destruct (COMPILE_STATUS host FRAGMENT_SHADER); cbn [negb];
    [|rewrite gl_eq; eexists; split; reflexivity].
  destruct (createProgram host); cbn [negb]; [|eexists; split; reflexivity].
  rewrite !gl_eq.
  destruct (LINK_STATUS host); cbn [negb]; [|eexists; split; reflexivity].
  rewrite !gl_eq.
  destruct (getUniformLocation host "modelViewMatrix"
            && getUniformLocation host "perspectiveMatrix"); cbn [negb];
    [|eexists; split; reflexivity].
  rewrite !gl_eq.
  rewrite createParticles_eq.
  destruct (createBuffer host); cbn [negb]; [|eexists; split; reflexivity].
  rewrite animate_eq. eexists; split; [reflexivity|].
  rewrite frame_frames_requested. reflexivity.
Qed.

Lemma constructor_well_formed canvasId s0 s :
  constructor Math_cos Math_sin random_tape host canvasId s0 = Returns tt s ->
  well_formed s.
Proof.
  unfold constructor. intros H.
  apply bind_returns in H as ([] & s1 & _ & H).
  apply bind_returns in H as ([] & s2 & _ & H).
  apply bind_returns in H as ([] & s3 & _ & H).
  apply bind_returns in H as ([] & s4 & _ & H).
  apply bind_returns in H as ([] & s5 & Hc & H).
  rewrite animate_eq in H. injection H as <-.
  apply frame_well_formed.
  pose proof (createParticles_well_formed random_tape host s4) as Hwf.
  rewrite Hc in Hwf. exact Hwf.
Qed.

Lemma reachable_well_formed s :
  reachable Math_cos Math_sin random_tape host s -> well_formed s.
Proof.
  induction 1 as [canvasId s0 s Hc | s _ IH | count s _ _].
  - eapply constructor_well_formed; eauto.
  - rewrite animate_eq. cbn [final_state]. by apply frame_well_formed.
  - rewrite setParticleCount_eq. apply createParticles_well_formed.
Qed.

End Construction.

(** ** The stand-alone script: [drawScene]

    The repository also holds a stand-alone script that draws lines
    with the same WebGL calls.  Its frame is [drawScene]; its buffer
    holds two vertices for each of its [numLines] lines, moved by
    [draw00]. *)

Module Legacy.

(** [interface Target]. *)
Record Target : Type := mkTarget {
  x : number; y : number; rotate : number; radius : number;
  bold_rate : number; rotate_speed : number; friction : number;
  speed : number; step : number; freq : number }.

Definition set_rotate (t : Target) (r : number) : Target :=
  mkTarget (x t) (y t) r (radius t) (bold_rate t) (rotate_speed t) (friction t)
    (speed t) (step t) (freq t).

(** The globals the frame reads and writes, with the trace of WebGL
    calls. *)
Record Scene : Type := mkScene {
  vertices : list number;
  targetArr : list Target;
  gl_trace : list GLcall }.

(** [let numLines: number = 80000], never assigned again. *)
Definition numLines : number := Num.of_Z 80000.

(** How often [for (let ii = 0; ii < n; ii += 2)] runs its body. *)
Definition loop_trips_by_2 (n : number) : nat :=
  match Num.to_Z (Num.ceil n) with
  | Some k => Z.to_nat ((k + 1) / 2)
  | None => O
  end.

(** The buffer [setup00] builds: [(0, 0, 1.83)] twice per line, then
    converted to a [Float32Array]. *)
Definition setup00_vertices : list number :=
  Num.fround <$>
    mjoin ((fun _ => [ Num.of_Z 0; Num.of_Z 0; Num.dec 183 100;
                       Num.of_Z 0; Num.of_Z 0; Num.dec 183 100 ])
           <$> seq 0 (loop_trips numLines)).

Section Engine.

Variable Math_cos Math_sin : number -> number.

(** Reading a slot of the [Float32Array]; [undefined] outside it, which
    the arithmetic that follows turns into [NaN]. *)
Definition read (vs : list number) (i : nat) : number :=
  match vs !! i with
  | Some v => v
  | None => S754_nan
  end.

(** The body of the second loop of [draw00], for [ii = 2 * k]; [None]
    when [targetArr[ii % targetArr.length]] is undefined. *)
Definition draw00_body (targets : list Target) (k : nat) (vs : list number)
    : option (list number) :=
  let ii := (2 * k)%nat in
  let bp := (ii * 3)%nat in
  match targets !! (ii `mod` length targets)%nat with
  | None => None
  | Some target =>
      let n := Num.of_nat ii in
      let tRad := (Math_cos (rotate target * Num.dec 2321 1000 + freq target * n)
                   * bold_rate target)%js in
      let tX := (x target + Math_cos (rotate target + step target * n) * tRad)%js in
      let tY := (y target + Math_sin (rotate target + step target * n) * tRad)%js in
      let px := read vs (bp + 3) in
      let py := read vs (bp + 4) in
      let px := (px + (tX - px) * Num.dec 1 10)%js in
      let py := (py + (tY - py) * Num.dec 1 10)%js in
      let vs := <[(bp + 3)%nat := Num.fround px]> vs in
      let vs := <[(bp + 4)%nat := Num.fround py]> vs in
      let vs := <[bp := Num.fround (px - Num.dec 1 1000)%js]> vs in
      let vs := <[(bp + 1)%nat := Num.fround (py - Num.dec 1 1000)%js]> vs in
      Some vs
  end.

Fixpoint draw00_loop (targets : list Target) (from n : nat) (vs : list number)
    : option (list number) :=
  match n with
  | O => Some vs
  | S m =>
      match draw00_body targets from vs with
      | Some vs' => draw00_loop targets (S from) m vs'
      | None => None
      end
  end.

Definition draw00 (s : Scene) : option Scene :=
  let targets := (fun t => set_rotate t (rotate t + rotate_speed t)%js) <$> targetArr s in
  match draw00_loop targets 0 (loop_trips_by_2 (numLines * Num.of_Z 2)%js) (vertices s) with
  | Some vs => Some (mkScene vs targets (gl_trace s))
  | None => None
  end.

Definition draw (s : Scene) : option Scene := draw00 s.

Definition gl (c : GLcall) (s : Scene) : Scene :=
  mkScene (vertices s) (targetArr s) (gl_trace s ++ [c]).

Definition drawScene (s : Scene) : option Scene :=
  match draw s with
  | None => None
  | Some s =>
      let s := gl (gl_lineWidth (Num.of_Z 2)) s in
      let s := gl (gl_bufferData (vertices s)) s in
      let s := gl gl_clear s in
      let s := gl (gl_drawArrays_LINES (Num.of_Z 0) numLines) s in
      Some (gl gl_flush s)
  end.

Lemma draw00_body_length targets k vs vs' :
  draw00_body targets k vs = Some vs' -> length vs' = length vs.
Proof.
  unfold draw00_body.
  destruct (targets !! _); [|discriminate].
  intros [= <-]. rewrite !length_insert. reflexivity.
Qed.

Lemma draw00_body_some targets k vs :
  targets <> [] -> is_Some (draw00_body targets k vs).
Proof.
  intros Hne. unfold draw00_body.
  destruct (lookup_lt_is_Some_2 targets ((2 * k) `mod` length targets)%nat) as [t ->].
  - apply Nat.mod_upper_bound. destruct targets; [congruence | cbn; lia].
  - eauto.
Qed.

Lemma draw00_loop_some targets (n : nat) : forall from vs,
  targets <> [] ->
  exists vs', draw00_loop targets from n vs = Some vs' /\ length vs' = length vs.
Proof.
  induction n as [|n IH]; intros from vs Hne; cbn [draw00_loop]; [eauto|].
  destruct (draw00_body_some targets from vs Hne) as [vs1 H1]. rewrite H1.
  destruct (IH (S from) vs1 Hne) as (vs' & -> & Hlen).
  exists vs'. split; [reflexivity|].
  rewrite Hlen. eapply draw00_body_length; eauto.
Qed.

End Engine.

Lemma setup00_vertices_length : length setup00_vertices = (particle_count * 6)%nat.
Proof.
  unfold setup00_vertices, numLines. rewrite loop_trips_80000.
  rewrite length_fmap.
  generalize particle_count. intros n.
  assert (forall from, length (mjoin ((fun _ : nat =>
            [ Num.of_Z 0; Num.of_Z 0; Num.dec 183 100;
              Num.of_Z 0; Num.of_Z 0; Num.dec 183 100 ]) <$> seq from n))
          = (n * 6)%nat) as H; [|apply H].
  induction n as [|n IH]; intros from; [reflexivity|].
  cbn [seq fmap list_fmap mjoin list_join]. rewrite length_app, IH.
  cbn [length]. lia.
Qed.

End Legacy.

(** Subtraction is the addition of the opposite. *)
Lemma sub_is_add_opp (x y : number) : (x - y)%js = (x + Num.opp y)%js.
Proof.
  unfold Num.sub, Num.add, Num.opp.
  destruct x as [sx|sx| |sx mx ex]; destruct y as [sy|sy| |sy my ey];
    try reflexivity; destruct sx, sy; reflexivity.
Qed.

(** ** Rounding to nearest, ties to even, as [SpecFloat] computes it *)

Module Rounding.

(** *** Digits *)

Lemma digits2_pos_bounds (m : positive) :
  2 ^ (Zpos (digits2_pos m) - 1) <= Zpos m < 2 ^ Zpos (digits2_pos m).
Proof.
  induction m as [m IH|m IH|]; cbn [digits2_pos].
  - rewrite Pos2Z.inj_succ, (Pos2Z.inj_xI m).
    replace (Z.succ (Zpos (digits2_pos m)) - 1) with (Z.succ (Zpos (digits2_pos m) - 1)) by lia.
    rewrite !Z.pow_succ_r by lia. lia.
  - rewrite Pos2Z.inj_succ, (Pos2Z.inj_xO m).
    replace (Z.succ (Zpos (digits2_pos m)) - 1) with (Z.succ (Zpos (digits2_pos m) - 1)) by lia.
    rewrite !Z.pow_succ_r by lia. lia.
  - cbn. lia.
Qed.

(** The number of binary digits of a positive integer is determined by
    the two powers of two around it. *)
Lemma digits_unique (m : positive) (d : Z) :
  2 ^ (d - 1) <= Zpos m < 2 ^ d -> Zpos (digits2_pos m) = d.
Proof.
  intros [Hlo Hhi]. pose proof (digits2_pos_bounds m) as [Hlo' Hhi'].
  assert (0 < d) as Hd.
  { destruct (Z.lt_ge_cases 0 d) as [|Hd]; [assumption|].
    rewrite (Z.pow_neg_r 2 d) in Hhi by lia || (destruct (Z.eq_dec d 0) as [->|]; [cbn in Hhi; lia|]; rewrite Z.pow_neg_r in Hhi by lia; lia). lia. }
  destruct (Z.lt_trichotomy (Zpos (digits2_pos m)) d) as [Hlt|[Heq|Hgt]]; [|exact Heq|].
  - assert (2 ^ Zpos (digits2_pos m) <= 2 ^ (d - 1)) by (apply Z.pow_le_mono_r; lia). lia.
  - assert (2 ^ d <= 2 ^ (Zpos (digits2_pos m) - 1)) by (apply Z.pow_le_mono_r; lia). lia.
Qed.

Lemma digits_shift (m : positive) (k : positive) :
  Zpos (digits2_pos (Pos.iter xO m k)) = Zpos (digits2_pos m) + Zpos k.
Proof.
  revert m. induction k as [|k IH] using Pos.peano_ind; intros m.
  - cbn [Pos.iter digits2_pos]. lia.
  - rewrite Pos.iter_succ. cbn [digits2_pos]. rewrite Pos2Z.inj_succ, IH. lia.
Qed.

Lemma iter_xO_value (m k : positive) : Zpos (Pos.iter xO m k) = Zpos m * 2 ^ Zpos k.
Proof.
  induction k as [|k IH] using Pos.peano_ind.
  - cbn. lia.
  - rewrite Pos.iter_succ, (Pos2Z.inj_xO (Pos.iter xO m k)), IH, Pos2Z.inj_succ, Z.pow_succ_r by lia. lia.
Qed.

(** *** Shifting right with a round bit and a sticky bit *)

(** The record keeps the quotient of [N] by [D] and places the remainder
    with respect to half of [D]. *)
Record represents (N D : Z) (mrs : shr_record) : Prop := {
  rep_D : 0 < D;
  rep_N : 0 <= N;
  rep_m : shr_m mrs = N / D;
  rep_r : shr_r mrs = true <-> D <= 2 * (N mod D);
  rep_s : shr_s mrs = true <-> N mod D <> 0 /\ 2 * (N mod D) <> D }.

Lemma represents_init (m : Z) : 0 <= m -> represents m 1 (Build_shr_record m false false).
Proof.
  intros Hm. constructor; cbn; rewrite ?Z.div_1_r, ?Z.mod_1_r; try lia.
Qed.

Lemma represents_shr_1 (N D : Z) (mrs : shr_record) :
  represents N D mrs -> represents N (2 * D) (shr_1 mrs).
Proof.
  intros [HD HN Hm Hr Hs]. destruct mrs as [m r s]. cbn in Hm, Hr, Hs.
  pose proof (Z.div_mod N D ltac:(lia)) as Hdm.
  pose proof (Z.mod_pos_bound N D HD) as Hrho.
  set (rho := N mod D) in *. subst m.
  assert (Hsticky : r || s = true <-> rho <> 0).
  { rewrite orb_true_iff, Hr, Hs. lia. }
  assert (Hq : 0 <= N / D) by (apply Z.div_pos; lia).
  assert (Hcase : forall q b, N / D = 2 * q + b -> 0 <= b <= 1 ->
            N / (2 * D) = q /\ N mod (2 * D) = b * D + rho).
  { intros q b Hqb Hb.
    assert (N = (2 * D) * q + (b * D + rho)) as HN' by nia.
    assert (0 <= b * D + rho < 2 * D) as Hrange by nia.
    split; symmetry.
    - eapply Z.div_unique_pos; eauto.
    - eapply Z.mod_unique_pos; eauto. }
  unfold shr_1.
  destruct (N / D) as [|[p|p|]|p] eqn:Hquot; try lia;
    [ destruct (Hcase 0 0 ltac:(lia) ltac:(lia)) as [Hd Hmod]
    | destruct (Hcase (Zpos p) 1 ltac:(lia) ltac:(lia)) as [Hd Hmod]
    | destruct (Hcase (Zpos p) 0 ltac:(lia) ltac:(lia)) as [Hd Hmod]
    | destruct (Hcase 0 1 ltac:(lia) ltac:(lia)) as [Hd Hmod] ];
    (constructor; cbn [shr_m shr_r shr_s];
     [ lia | lia | lia
     | rewrite Hmod; split; intros ?; first [discriminate | lia | reflexivity]
     | rewrite Hsticky, Hmod; lia ]).
Qed.

Lemma pow2_xO (n : positive) : 2 ^ Zpos n~0 = 2 ^ Zpos n * 2 ^ Zpos n.
Proof.
  replace (Zpos n~0) with (Zpos n + Zpos n) by lia.
  rewrite Z.pow_add_r by lia. reflexivity.
Qed.

Lemma pow2_xI (n : positive) : 2 ^ Zpos n~1 = 2 * (2 ^ Zpos n * 2 ^ Zpos n).
Proof.
  replace (Zpos n~1) with (1 + Zpos n + Zpos n) by lia.
  rewrite !Z.pow_add_r by lia. change (2 ^ 1) with 2. lia.
Qed.

Lemma represents_iter (n : positive) : forall (N D : Z) (mrs : shr_record),
  represents N D mrs -> represents N (D * 2 ^ Zpos n) (SpecFloat.iter_pos shr_1 n mrs).
Proof.
  induction n as [n IH|n IH|]; intros N D mrs H; cbn [SpecFloat.iter_pos].
  - apply represents_shr_1 in H. apply IH in H. apply IH in H.
    replace (D * 2 ^ Zpos n~1) with (2 * D * 2 ^ Zpos n * 2 ^ Zpos n); [exact H|].
    rewrite pow2_xI. lia.
  - apply IH in H. apply IH in H.
    replace (D * 2 ^ Zpos n~0) with (D * 2 ^ Zpos n * 2 ^ Zpos n); [exact H|].
    rewrite pow2_xO. lia.
  - apply represents_shr_1 in H.
    replace (D * 2 ^ 1) with (2 * D) by lia. exact H.
Qed.

(** *** The integer rounding *)

(** [N / D] rounded to the nearest integer, ties to the even one. *)
Definition rne (N D : Z) : Z :=
  let q := N / D in
  let r := N mod D in
  match 2 * r ?= D with
  | Lt => q
  | Gt => q + 1
  | Eq => if Z.even q then q else q + 1
  end.

Lemma round_nearest_even_rne (N D : Z) (mrs : shr_record) :
  represents N D mrs ->
  round_nearest_even (shr_m mrs) (loc_of_shr_record mrs) = rne N D.
Proof.
  intros [HD HN Hm Hr Hs]. destruct mrs as [m r s]. cbn in Hm, Hr, Hs.
  pose proof (Z.mod_pos_bound N D HD) as Hrho.
  unfold rne. cbn [shr_m]. subst m.
  destruct (Z.compare_spec (2 * (N mod D)) D) as [Heq|Hlt|Hgt].
  - assert (r = true) as -> by (apply Hr; lia).
    assert (s = false) as ->
      by (destruct s; [destruct (proj1 Hs eq_refl); lia | reflexivity]).
    reflexivity.
  - assert (r = false) as ->
      by (destruct r; [pose proof (proj1 Hr eq_refl); lia | reflexivity]).
    destruct s; reflexivity.
  - assert (r = true) as -> by (apply Hr; lia).
    assert (s = true) as -> by (apply Hs; lia).
    reflexivity.
Qed.

Lemma rne_bounds (N D : Z) : 0 < D -> N / D <= rne N D <= N / D + 1.
Proof.
  intros HD. unfold rne.
  destruct (2 * (N mod D) ?= D); [destruct (Z.even (N / D))| |]; lia.
Qed.

Lemma rne_exact (k D : Z) : 0 < D -> rne (k * D) D = k.
Proof.
  intros HD. unfold rne. rewrite Z.mod_mul, Z.div_mul by lia.
  destruct (Z.compare_spec (2 * 0) D); lia.
Qed.

Lemma rne_mono (N1 N2 D : Z) : 0 < D -> N1 <= N2 -> rne N1 D <= rne N2 D.
Proof.
  intros HD Hle.
  pose proof (Z.div_le_mono N1 N2 D HD Hle) as Hq.
  pose proof (Z.div_mod N1 D ltac:(lia)) as H1.
  pose proof (Z.div_mod N2 D ltac:(lia)) as H2.
  pose proof (Z.mod_pos_bound N1 D HD) as Hr1.
  pose proof (Z.mod_pos_bound N2 D HD) as Hr2.
  pose proof (rne_bounds N1 D HD) as Hb1.
  pose proof (rne_bounds N2 D HD) as Hb2.
  destruct (Z.eq_dec (N1 / D) (N2 / D)) as [Heq|Hne]; [|lia].
  assert (N1 mod D <= N2 mod D) as Hr by nia.
  unfold rne in *. rewrite <- Heq in *.
  destruct (Z.compare_spec (2 * (N1 mod D)) D);
    destruct (Z.compare_spec (2 * (N2 mod D)) D);
    destruct (Z.even (N1 / D)); lia.
Qed.

(** The rounding depends on the quotient only. *)
Lemma rne_scale (N D k : Z) : 0 < D -> 0 < k -> rne (N * k) (D * k) = rne N D.
Proof.
  intros HD Hk. unfold rne.
  rewrite Z.div_mul_cancel_r by lia.
  rewrite Z.mul_mod_distr_r by lia.
  destruct (Z.compare_spec (2 * (N mod D * k)) (D * k));
    destruct (Z.compare_spec (2 * (N mod D)) D); try reflexivity; nia.
Qed.

(** *** One rounding step of a format *)

Section Format.

Variables prec emax : Z.
Hypothesis Hprec : 0 < prec.
Hypothesis Hemax : prec < emax.

Local Abbreviation emin := (SpecFloat.emin prec emax).
Local Abbreviation fexp := (SpecFloat.fexp prec emax).

Lemma fexp_eq (k : Z) : fexp k = Z.max (k - prec) (3 - emax - prec).
Proof. reflexivity. Qed.

Lemma emin_eq : emin = 3 - emax - prec.
Proof. reflexivity. Qed.

(** The exponent at which [m * 2^e] is rounded. *)
Definition target (m : positive) (e : Z) : Z := fexp (Zpos (digits2_pos m) + e).

(** A mantissa [M] at exponent [E] as the rounding leaves it before the
    final normalisation: at most [2^prec], and at least [2^(prec-1)]
    above the smallest exponent. *)
Definition in_format (M E : Z) : Prop :=
  emin <= E /\ 0 <= M <= 2 ^ prec /\ (E = emin \/ 2 ^ (prec - 1) <= M).

(** The datum for such a mantissa and exponent. *)
Definition normalized (s : bool) (M E : Z) : spec_float :=
  match M with
  | Zpos p =>
      if M =? 2 ^ prec
      then if E + 1 <=? emax - prec
           then S754_finite s (Z.to_pos (2 ^ (prec - 1))) (E + 1)
           else S754_infinity s
      else if E <=? emax - prec then S754_finite s p E else S754_infinity s
  | _ => S754_zero s
  end.

Lemma shr_fexp_exact (m : positive) (e : Z) :
  let n := Z.max (target m e - e) 0 in
  exists mrs, shr_fexp prec emax (Zpos m) e loc_Exact = (mrs, e + n)
              /\ represents (Zpos m) (2 ^ n) mrs.
Proof.
  cbn zeta. unfold shr_fexp, shr, target. cbn [Zdigits2 shr_record_of_loc].
  destruct (fexp (Zpos (digits2_pos m) + e) - e) as [|p|p] eqn:Hn.
  - eexists. split; [rewrite Z.add_0_r; reflexivity|].
    apply represents_init. lia.
  - eexists. split; [rewrite Z.max_l by lia; reflexivity|].
    rewrite Z.max_l by lia.
    rewrite <- (Z.mul_1_l (2 ^ Zpos p)).
    apply represents_iter, represents_init. lia.
  - eexists. split; [rewrite Z.max_r by lia; rewrite Z.add_0_r; reflexivity|].
    rewrite Z.max_r by lia. apply represents_init. lia.
Qed.

Lemma pow2_pos (k : Z) : 0 <= k -> 0 < 2 ^ k.
Proof. intros. apply Z.pow_pos_nonneg; lia. Qed.

Lemma pow2_split (a b : Z) : 0 <= b <= a -> 2 ^ a = 2 ^ (a - b) * 2 ^ b.
Proof. intros. rewrite <- Z.pow_add_r by lia. f_equal. lia. Qed.

(** The rounded mantissa fits the format. *)
Lemma rne_in_format (m : positive) (e : Z) :
  e <= target m e ->
  in_format (rne (Zpos m) (2 ^ (target m e - e))) (target m e).
Proof.
  intros Hn. unfold in_format.
  pose proof (digits2_pos_bounds m) as [Hlo Hhi].
  set (d := Zpos (digits2_pos m)) in *.
  assert (0 < d) as Hd by (unfold d; lia).
  set (E := target m e) in *.
  assert (HE : E = Z.max (d + e - prec) emin) by reflexivity.
  set (n := E - e) in *.
  assert (0 <= n) as Hn0 by (unfold n; lia).
  pose proof (pow2_pos n Hn0) as HD.
  pose proof (rne_bounds (Zpos m) (2 ^ n) HD) as [Hb1 Hb2].
  pose proof (Z.div_mod (Zpos m) (2 ^ n) ltac:(lia)) as Hdm.
  pose proof (Z.mod_pos_bound (Zpos m) (2 ^ n) HD) as Hmod.
  assert (0 <= Zpos m / 2 ^ n) as Hq0 by (apply Z.div_pos; lia).
  split; [rewrite emin_eq in *; lia|].
  assert (Hupper : forall k, 0 <= k -> d <= n + k -> Zpos m / 2 ^ n + 1 <= 2 ^ k).
  { intros k Hk Hdk.
    assert (2 ^ d <= 2 ^ (n + k)) by (apply Z.pow_le_mono_r; lia).
    rewrite Z.pow_add_r in * by lia.
    pose proof (pow2_pos k Hk). nia. }
  split; [split; [lia|]|].
  - apply Z.le_trans with (Zpos m / 2 ^ n + 1); [exact Hb2|].
    apply Hupper; [lia|]. unfold n. rewrite emin_eq in HE. lia.
  - destruct (Z.eq_dec E emin) as [Heq|Hne]; [left; exact Heq|right].
    assert (n = d - prec) as Hnd by (unfold n; rewrite emin_eq in *; lia).
    apply Z.le_trans with (Zpos m / 2 ^ n); [|exact Hb1].
    assert (2 ^ (d - 1) = 2 ^ (prec - 1) * 2 ^ n) as Hsplit.
    { rewrite <- Z.pow_add_r by lia. f_equal. lia. }
    apply Z.div_le_lower_bound; [exact HD|]. lia.
Qed.

(** The last shift of [binary_round_aux] applies when the mantissa has
    grown to [2^prec], and only then. *)
Lemma shr_fexp_normalize (M E : Z) :
  in_format M E ->
  exists mrs, shr_fexp prec emax M E loc_Exact
              = (mrs, if M =? 2 ^ prec then E + 1 else E)
    /\ shr_m mrs = if M =? 2 ^ prec then 2 ^ (prec - 1) else M.
Proof.
  intros (HE & [HM0 HM1] & Hnorm).
  pose proof (pow2_pos prec ltac:(lia)) as Hpp.
  assert (2 ^ prec = 2 * 2 ^ (prec - 1)) as Hhalf.
  { replace prec with (Z.succ (prec - 1)) at 1 by lia.
    rewrite Z.pow_succ_r by lia. reflexivity. }
  unfold shr_fexp, shr.
  destruct M as [|p|p]; [| |lia].
  - (* zero stays zero *)
    replace (0 =? 2 ^ prec) with false by (symmetry; apply Z.eqb_neq; lia).
    cbn [Zdigits2 shr_record_of_loc].
    destruct (fexp (0 + E) - E) as [|k|k] eqn:Hk.
    + eexists; split; reflexivity.
    + exfalso. rewrite fexp_eq in Hk. rewrite emin_eq in HE. lia.
    + eexists; split; reflexivity.
  - cbn [Zdigits2 shr_record_of_loc].
    pose proof (digits2_pos_bounds p) as [Hlo Hhi].
    destruct (Z.eqb_spec (Zpos p) (2 ^ prec)) as [Heq|Hne].
    + assert (Zpos (digits2_pos p) = prec + 1) as ->.
      { apply digits_unique. rewrite Heq.
        replace (prec + 1 - 1) with prec by lia.
        rewrite Z.pow_add_r by lia. lia. }
      replace (fexp (prec + 1 + E) - E) with 1
        by (rewrite fexp_eq; rewrite emin_eq in HE; lia).
      eexists. split; [reflexivity|].
      cbn [SpecFloat.iter_pos]. rewrite Heq.
      pose proof (represents_shr_1 _ _ _ (represents_init (2 ^ prec) ltac:(lia)))
        as [_ _ Hm _ _].
      rewrite Hm. rewrite Hhalf. rewrite Z.mul_comm, Z.mul_1_r.
      apply Z.div_mul. lia.
    + assert (Zpos (digits2_pos p) <= prec) as Hd.
      { destruct (Z.le_gt_cases (Zpos (digits2_pos p)) prec) as [|Hgt]; [assumption|].
        assert (2 ^ prec <= 2 ^ (Zpos (digits2_pos p) - 1))
          by (apply Z.pow_le_mono_r; lia). lia. }
      assert (fexp (Zpos (digits2_pos p) + E) - E <= 0) as Hk.
      { rewrite fexp_eq. rewrite emin_eq in HE. lia. }
      assert (fexp (Zpos (digits2_pos p) + E) - E = 0) as ->.
      { rewrite fexp_eq in *. rewrite emin_eq in *.
        destruct Hnorm as [->|Hn]; [lia|].
        assert (Zpos (digits2_pos p) = prec) as ->; [|lia].
        apply digits_unique. lia. }
      eexists; split; reflexivity.
Qed.

(** [binary_round_aux] on an exact positive integer whose exponent is not
    above the target. *)
Lemma binary_round_aux_eq (s : bool) (m : positive) (e : Z) :
  e <= target m e ->
  binary_round_aux prec emax s (Zpos m) e loc_Exact
  = normalized s (rne (Zpos m) (2 ^ (target m e - e))) (target m e).
Proof.
  intros Hn. unfold binary_round_aux.
  destruct (shr_fexp_exact m e) as (mrs & Hshr & Hrep). cbn zeta in *.
  rewrite Z.max_l in * by lia.
  rewrite Hshr.
  replace (e + (target m e - e)) with (target m e) by lia.
  rewrite (round_nearest_even_rne _ _ _ Hrep).
  pose proof (rne_in_format m e Hn) as Hfmt.
  set (M := rne (Zpos m) (2 ^ (target m e - e))) in *.
  destruct (shr_fexp_normalize M (target m e) Hfmt) as (mrs' & -> & Hm').
  rewrite Hm'. unfold normalized.
  destruct Hfmt as (_ & [HM0 HM1] & _).
  pose proof (pow2_pos (prec - 1) ltac:(lia)) as Hp1.
  destruct (Z.eqb_spec M (2 ^ prec)) as [Heq|Hne].
  - destruct M as [|p|p]; [pose proof (pow2_pos prec); lia| |lia].
    destruct (2 ^ (prec - 1)) as [|q|q] eqn:Hq; [lia| |lia].
    reflexivity.
  - destruct M as [|p|p]; [reflexivity|reflexivity|lia].
Qed.

(** *** The value a rounding step leaves, on the grid of [2^emin] *)

Lemma Zdigits2_bounds (N : Z) : 0 < N -> 2 ^ (Zdigits2 N - 1) <= N < 2 ^ Zdigits2 N.
Proof.
  intros HN. destruct N as [|p|p]; try lia. apply digits2_pos_bounds.
Qed.

Lemma Zdigits2_unique (N d : Z) : 0 < N -> 2 ^ (d - 1) <= N < 2 ^ d -> Zdigits2 N = d.
Proof.
  intros HN. destruct N as [|p|p]; try lia. apply digits_unique.
Qed.

Lemma Zdigits2_pos (N : Z) : 0 < N -> 0 < Zdigits2 N.
Proof. intros HN. destruct N as [|p|p]; cbn; lia. Qed.

Lemma Zdigits2_mono (N1 N2 : Z) : 0 < N1 <= N2 -> Zdigits2 N1 <= Zdigits2 N2.
Proof.
  intros [H1 H12].
  pose proof (Zdigits2_bounds N1 H1) as [Hlo1 _].
  pose proof (Zdigits2_bounds N2 ltac:(lia)) as [_ Hhi2].
  destruct (Z.le_gt_cases (Zdigits2 N1) (Zdigits2 N2)) as [|Hgt]; [assumption|].
  assert (2 ^ Zdigits2 N2 <= 2 ^ (Zdigits2 N1 - 1)) by (apply Z.pow_le_mono_r; lia).
  lia.
Qed.

Lemma Zdigits2_shift (N k : Z) : 0 < N -> 0 <= k -> Zdigits2 (N * 2 ^ k) = Zdigits2 N + k.
Proof.
  intros HN Hk.
  pose proof (Zdigits2_bounds N HN) as [Hlo Hhi].
  pose proof (Zdigits2_pos N HN) as Hd.
  pose proof (pow2_pos k Hk) as Hpk.
  apply Zdigits2_unique; [nia|].
  replace (Zdigits2 N + k - 1) with (Zdigits2 N - 1 + k) by lia.
  rewrite !Z.pow_add_r by lia. nia.
Qed.

(** The exponent at which the positive integer [N], counted in units of
    [2^g], is rounded; and the rounded value in units of [2^emin]. *)
Definition targetz (N g : Z) : Z := fexp (Zdigits2 N + g).

Definition Rz (N g : Z) : Z :=
  rne N (2 ^ (targetz N g - g)) * 2 ^ (targetz N g - emin).

Lemma targetz_emin (N g : Z) : emin <= targetz N g.
Proof. unfold targetz. rewrite fexp_eq, emin_eq. lia. Qed.

Lemma targetz_mono (N1 N2 g : Z) : 0 < N1 <= N2 -> targetz N1 g <= targetz N2 g.
Proof.
  intros H. pose proof (Zdigits2_mono N1 N2 H). unfold targetz. rewrite !fexp_eq. lia.
Qed.

(** Writing the same value on a finer grid does not change its rounding. *)
Lemma Rz_shift (N g k : Z) :
  0 < N -> 0 <= k -> g <= targetz N g -> Rz (N * 2 ^ k) (g - k) = Rz N g.
Proof.
  intros HN Hk Hg. unfold Rz.
  assert (targetz (N * 2 ^ k) (g - k) = targetz N g) as ->.
  { unfold targetz. rewrite Zdigits2_shift by assumption. f_equal. lia. }
  f_equal.
  replace (targetz N g - (g - k)) with (targetz N g - g + k) by lia.
  rewrite Z.pow_add_r by lia.
  apply rne_scale; apply pow2_pos; lia.
Qed.

Lemma Rz_mono (N1 N2 g : Z) :
  0 < N1 <= N2 -> g <= targetz N1 g -> Rz N1 g <= Rz N2 g.
Proof.
  intros [H1 H12] Hg.
  pose proof (targetz_mono N1 N2 g (conj H1 H12)) as HE.
  pose proof (targetz_emin N1 g) as Hmin1.
  unfold Rz.
  destruct (Z.eq_dec (targetz N1 g) (targetz N2 g)) as [Heq|Hne].
  - rewrite <- Heq.
    apply Z.mul_le_mono_nonneg_r; [apply Z.pow_nonneg; lia|].
    apply rne_mono; [apply pow2_pos; lia | exact H12].
  - assert (targetz N1 g < targetz N2 g) as Hlt by lia.
    pose proof (Zdigits2_bounds N1 H1) as [_ Hhi1].
    pose proof (Zdigits2_bounds N2 ltac:(lia)) as [Hlo2 _].
    pose proof (Zdigits2_pos N1 H1) as Hd1.
    set (d1 := Zdigits2 N1) in *. set (d2 := Zdigits2 N2) in *.
    set (E1 := targetz N1 g) in *. set (E2 := targetz N2 g) in *.
    assert (HE1 : E1 = Z.max (d1 + g - prec) emin) by reflexivity.
    assert (HE2 : E2 = Z.max (d2 + g - prec) emin) by reflexivity.
    rewrite emin_eq in *.
    assert (E2 = d2 + g - prec) as HE2' by lia.
    assert (d1 < d2) as Hd12 by lia.
    set (n1 := E1 - g) in *. set (n2 := E2 - g) in *.
    assert (0 <= n1 < n2) as Hn by (unfold n1, n2; lia).
    assert (n2 = d2 - prec) as Hn2 by (unfold n2; lia).
    pose proof (pow2_pos n1 ltac:(lia)) as HD1.
    pose proof (pow2_pos n2 ltac:(lia)) as HD2.
    (* the power of two between the two values *)
    assert (N1 <= 2 ^ (d2 - 1)) as HP1.
    { assert (2 ^ d1 <= 2 ^ (d2 - 1)) by (apply Z.pow_le_mono_r; lia). lia. }
    assert (rne N1 (2 ^ n1) <= 2 ^ (d2 - 1 - n1)) as HM1.
    { rewrite <- (rne_exact (2 ^ (d2 - 1 - n1)) (2 ^ n1) HD1).
      apply rne_mono; [exact HD1|].
      rewrite <- Z.pow_add_r by lia.
      replace (d2 - 1 - n1 + n1) with (d2 - 1) by lia. exact HP1. }
    assert (2 ^ (prec - 1) <= rne N2 (2 ^ n2)) as HM2.
    { rewrite <- (rne_exact (2 ^ (prec - 1)) (2 ^ n2) HD2).
      apply rne_mono; [exact HD2|].
      rewrite <- Z.pow_add_r by lia.
      replace (prec - 1 + n2) with (d2 - 1) by lia. exact Hlo2. }
    apply Z.le_trans with (2 ^ (d2 - 1 - n1) * 2 ^ (E1 - (3 - emax - prec))).
    { apply Z.mul_le_mono_nonneg_r; [apply Z.pow_nonneg; lia | exact HM1]. }
    apply Z.le_trans with (2 ^ (prec - 1) * 2 ^ (E2 - (3 - emax - prec))).
    { rewrite <- !Z.pow_add_r by lia. apply Z.pow_le_mono_r; [lia|].
      unfold n1. lia. }
    apply Z.mul_le_mono_nonneg_r; [apply Z.pow_nonneg; lia | exact HM2].
Qed.

(** A multiple of the rounding grid is left as it is. *)
Lemma Rz_exact (N g k : Z) :
  emin <= g -> g <= targetz N g -> N = k * 2 ^ (targetz N g - g) ->
  Rz N g = N * 2 ^ (g - emin).
Proof.
  intros Hg Ht HN. unfold Rz.
  set (E := targetz N g) in *.
  rewrite HN at 1. rewrite rne_exact by (apply pow2_pos; lia).
  rewrite HN. rewrite <- Z.mul_assoc, <- Z.pow_add_r by lia.
  do 2 f_equal. lia.
Qed.

(** The scaled value of a datum, with [2^emax] standing for infinity. *)
Definition Vx (x : spec_float) : Z :=
  match x with
  | S754_finite _ m e => Zpos m * 2 ^ (e - emin)
  | S754_infinity _ => 2 ^ (emax - emin)
  | _ => 0
  end.

(** Well-formed data that are not negative. *)
Definition nonneg (x : spec_float) : bool :=
  match x with
  | S754_zero _ => true
  | S754_finite false m e => bounded prec emax m e
  | S754_infinity false => true
  | _ => false
  end.

Lemma bounded_facts (m : positive) (e : Z) :
  bounded prec emax m e = true ->
  emin <= e <= emax - prec /\ Zpos m < 2 ^ prec /\
  (e = emin \/ 2 ^ (prec - 1) <= Zpos m) /\
  fexp (Zpos (digits2_pos m) + e) = e.
Proof.
  unfold bounded, canonical_mantissa. rewrite andb_true_iff, Z.eqb_eq, Z.leb_le.
  intros [Hc Hb]. pose proof Hc as Hc'. rewrite fexp_eq in Hc'.
  pose proof (digits2_pos_bounds m) as [Hlo Hhi].
  rewrite emin_eq.
  split; [lia|]. split; [|split; [|exact Hc]].
  - assert (2 ^ Zpos (digits2_pos m) <= 2 ^ prec) by (apply Z.pow_le_mono_r; lia). lia.
  - destruct (Z.eq_dec e (3 - emax - prec)) as [|Hne]; [left; assumption|right].
    assert (Zpos (digits2_pos m) = prec) as Hd by lia.
    rewrite Hd in Hlo. exact Hlo.
Qed.

Lemma bounded_in_format (m : positive) (e : Z) :
  bounded prec emax m e = true -> in_format (Zpos m) e /\ Zpos m <> 2 ^ prec.
Proof.
  intros H. destruct (bounded_facts m e H) as (He & Hm & Hn & _).
  unfold in_format. repeat split; first [lia | exact Hn].
Qed.

Lemma in_format_bounded (p : positive) (E : Z) :
  in_format (Zpos p) E -> Zpos p <> 2 ^ prec -> E <= emax - prec ->
  bounded prec emax p E = true.
Proof.
  intros (HE & [HM0 HM1] & Hnorm) Hne Hb.
  unfold bounded, canonical_mantissa. rewrite andb_true_iff, Z.eqb_eq, Z.leb_le.
  split; [|exact Hb].
  pose proof (digits2_pos_bounds p) as [Hlo Hhi].
  assert (Zpos (digits2_pos p) <= prec) as Hd.
  { destruct (Z.le_gt_cases (Zpos (digits2_pos p)) prec) as [|Hgt]; [assumption|].
    assert (2 ^ prec <= 2 ^ (Zpos (digits2_pos p) - 1))
      by (apply Z.pow_le_mono_r; lia). lia. }
  rewrite fexp_eq. rewrite emin_eq in *.
  destruct Hnorm as [->|Hn]; [lia|].
  assert (Zpos (digits2_pos p) = prec) as ->; [|lia].
  apply digits_unique. lia.
Qed.

Lemma pow2_half : 2 ^ prec = 2 * 2 ^ (prec - 1).
Proof.
  replace prec with (Z.succ (prec - 1)) at 1 by lia.
  rewrite Z.pow_succ_r by lia. reflexivity.
Qed.

Lemma normalized_nonneg (M E : Z) : in_format M E -> nonneg (normalized false M E) = true.
Proof.
  intros Hfmt. pose proof Hfmt as (HE & [HM0 HM1] & Hnorm).
  unfold normalized. destruct M as [|p|p]; [reflexivity| |lia].
  pose proof (pow2_pos (prec - 1) ltac:(lia)) as Hp1.
  destruct (Z.eqb_spec (Zpos p) (2 ^ prec)) as [Heq|Hne].
  - destruct (Z.leb_spec (E + 1) (emax - prec)) as [Hb|Hb]; [|reflexivity].
    cbn [nonneg]. destruct (2 ^ (prec - 1)) as [|q|q] eqn:Hq; try lia.
    cbn [Z.to_pos]. apply in_format_bounded; [|rewrite <- Hq, pow2_half; lia|exact Hb].
    unfold in_format. rewrite <- Hq, pow2_half. repeat split; try lia.
  - destruct (Z.leb_spec E (emax - prec)) as [Hb|Hb]; [|reflexivity].
    cbn [nonneg]. by apply in_format_bounded.
Qed.

Lemma normalized_Vx (s : bool) (M E : Z) :
  in_format M E ->
  Vx (normalized s M E) = Z.min (M * 2 ^ (E - emin)) (2 ^ (emax - emin)).
Proof.
  intros (HE & [HM0 HM1] & Hnorm).
  pose proof (pow2_pos (prec - 1) ltac:(lia)) as Hp1.
  pose proof pow2_half as Hhalf.
  assert (Hovf : forall e, emax - prec < e -> emin <= e ->
            2 ^ (emax - emin) <= 2 ^ (prec - 1) * 2 ^ (e - emin)).
  { intros e He He'. rewrite <- Z.pow_add_r by (rewrite ?emin_eq in *; lia).
    apply Z.pow_le_mono_r; rewrite ?emin_eq in *; lia. }
  assert (Hfin : forall m e, 0 <= m < 2 ^ prec -> e <= emax - prec -> emin <= e ->
            m * 2 ^ (e - emin) < 2 ^ (emax - emin)).
  { intros m e Hm He He'.
    assert (2 ^ (emax - emin) = 2 ^ prec * 2 ^ (emax - prec - emin)) as ->.
    { rewrite <- Z.pow_add_r by (rewrite ?emin_eq in *; lia). f_equal. lia. }
    assert (2 ^ (e - emin) <= 2 ^ (emax - prec - emin))
      by (apply Z.pow_le_mono_r; lia).
    pose proof (pow2_pos (e - emin) ltac:(lia)). nia. }
  unfold normalized. destruct M as [|p|p]; [|clear HM0|lia].
  - cbn [Vx]. pose proof (pow2_pos (emax - emin) ltac:(rewrite emin_eq; lia)). lia.
  - destruct (Z.eqb_spec (Zpos p) (2 ^ prec)) as [Heq|Hne].
    + rewrite Heq.
      assert (2 ^ prec * 2 ^ (E - emin) = 2 ^ (prec - 1) * 2 ^ (E + 1 - emin)) as ->.
      { rewrite Hhalf. replace (E + 1 - emin) with (Z.succ (E - emin)) by lia.
        rewrite Z.pow_succ_r by lia. lia. }
      destruct (Z.leb_spec (E + 1) (emax - prec)) as [Hb|Hb]; cbn [Vx].
      * rewrite Z2Pos.id by lia.
        pose proof (Hfin (2 ^ (prec - 1)) (E + 1) ltac:(lia) Hb ltac:(lia)). lia.
      * pose proof (Hovf (E + 1) Hb ltac:(lia)). lia.
    + destruct (Z.leb_spec E (emax - prec)) as [Hb|Hb]; cbn [Vx].
      * pose proof (Hfin (Zpos p) E ltac:(lia) Hb HE). lia.
      * assert (2 ^ (prec - 1) <= Zpos p) as Hn.
        { destruct Hnorm as [->|]; [rewrite emin_eq in Hb; lia | assumption]. }
        pose proof (Hovf E Hb HE).
        pose proof (pow2_pos (E - emin) ltac:(lia)). nia.
Qed.

(** The outcome of the rounding step: a well-formed datum that is not
    negative, holding the rounded value unless that overflows. *)
Lemma binary_round_aux_Vx (m : positive) (e : Z) :
  e <= targetz (Zpos m) e ->
  nonneg (binary_round_aux prec emax false (Zpos m) e loc_Exact) = true /\
  Vx (binary_round_aux prec emax false (Zpos m) e loc_Exact)
  = Z.min (Rz (Zpos m) e) (2 ^ (emax - emin)).
Proof.
  intros He. change (targetz (Zpos m) e) with (target m e) in He.
  rewrite (binary_round_aux_eq false m e He).
  pose proof (rne_in_format m e He) as Hfmt.
  split; [by apply normalized_nonneg | by apply normalized_Vx].
Qed.

(** Order on such data is order of the values. *)
Lemma SFcompare_Vx (x y : spec_float) :
  nonneg x = true -> nonneg y = true -> SFcompare x y = Some (Vx x ?= Vx y).
Proof.
  intros Hx Hy.
  assert (Hpos : forall m e, bounded prec emax m e = true -> 0 < Zpos m * 2 ^ (e - emin)).
  { intros m e H. destruct (bounded_facts m e H) as (He & _).
    pose proof (pow2_pos (e - emin) ltac:(lia)). nia. }
  assert (Hfin : forall m e, bounded prec emax m e = true ->
            Zpos m * 2 ^ (e - emin) < 2 ^ (emax - emin)).
  { intros m e H. destruct (bounded_facts m e H) as (He & Hm & _).
    assert (2 ^ (emax - emin) = 2 ^ prec * 2 ^ (emax - prec - emin)) as ->.
    { rewrite <- Z.pow_add_r by (rewrite ?emin_eq in *; lia). f_equal. lia. }
    assert (2 ^ (e - emin) <= 2 ^ (emax - prec - emin))
      by (apply Z.pow_le_mono_r; lia).
    pose proof (pow2_pos (e - emin) ltac:(lia)). nia. }
  assert (Hinf : 0 < 2 ^ (emax - emin)) by (apply pow2_pos; rewrite emin_eq; lia).
  assert (Hlex : forall m1 e1 m2 e2,
            bounded prec emax m1 e1 = true -> bounded prec emax m2 e2 = true ->
            e1 < e2 -> Zpos m1 * 2 ^ (e1 - emin) < Zpos m2 * 2 ^ (e2 - emin)).
  { intros m1 e1 m2 e2 H1 H2 Hlt.
    destruct (bounded_facts m1 e1 H1) as (He1 & Hm1 & _ & _).
    destruct (bounded_facts m2 e2 H2) as (He2 & _ & Hn2 & _).
    destruct Hn2 as [->|Hn2]; [lia|].
    pose proof (pow2_pos (e1 - emin) ltac:(lia)) as Hp1.
    apply Z.lt_le_trans with (2 ^ prec * 2 ^ (e1 - emin)); [nia|].
    apply Z.le_trans with (2 ^ (prec - 1) * 2 ^ (e2 - emin));
      [|apply Z.mul_le_mono_nonneg_r; [apply Z.pow_nonneg; lia | exact Hn2]].
    rewrite <- !Z.pow_add_r by lia. apply Z.pow_le_mono_r; lia. }
  destruct x as [sx|[|]| |[|] mx ex]; try discriminate Hx;
    destruct y as [sy|[|]| |[|] my ey]; try discriminate Hy;
    cbn [nonneg] in Hx, Hy; cbn [SFcompare Vx]; f_equal; symmetry;
    try solve
      [ reflexivity
      | apply Z.compare_lt_iff;
        first [exact Hinf | apply Hpos; assumption | apply Hfin; assumption]
      | apply Z.compare_gt_iff;
        first [exact Hinf | apply Hpos; assumption | apply Hfin; assumption]
      | apply Z.compare_eq_iff; reflexivity ].
  destruct (Z.compare_spec ex ey) as [->|Hlt|Hgt].
  - rewrite Pos.compare_cont_spec. unfold Pos.switch_Eq.
    change (mx ?= my)%positive with (Zpos mx ?= Zpos my).
    destruct (bounded_facts my ey Hy) as (He & _).
    pose proof (pow2_pos (ey - emin) ltac:(lia)).
    destruct (Z.compare_spec (Zpos mx) (Zpos my)) as [Heq|Hl|Hg].
    + apply Z.compare_eq_iff. rewrite Heq. reflexivity.
    + apply Z.compare_lt_iff. nia.
    + apply Z.compare_gt_iff. nia.
  - apply Z.compare_lt_iff. by apply Hlex.
  - apply Z.compare_gt_iff. by apply Hlex.
Qed.

Lemma SFleb_Vx (x y : spec_float) :
  nonneg x = true -> nonneg y = true -> SFleb x y = true <-> Vx x <= Vx y.
Proof.
  intros Hx Hy. unfold SFleb. rewrite (SFcompare_Vx x y Hx Hy).
  destruct (Z.compare_spec (Vx x) (Vx y)); split; intros; try lia; try discriminate;
    reflexivity.
Qed.

Lemma SFltb_Vx (x y : spec_float) :
  nonneg x = true -> nonneg y = true -> SFltb x y = true <-> Vx x < Vx y.
Proof.
  intros Hx Hy. unfold SFltb. rewrite (SFcompare_Vx x y Hx Hy).
  destruct (Z.compare_spec (Vx x) (Vx y)); split; intros; try lia; try discriminate;
    reflexivity.
Qed.

(** *** Multiplication and addition of data that are not negative *)

(** Finite well-formed data that are not negative. *)
Definition fin_nonneg (x : spec_float) : bool :=
  match x with
  | S754_zero _ => true
  | S754_finite false m e => bounded prec emax m e
  | _ => false
  end.

Lemma fin_nonneg_nonneg (x : spec_float) : fin_nonneg x = true -> nonneg x = true.
Proof. destruct x as [|[|]| |[|] m e]; cbn; congruence. Qed.

Lemma Vx_nonneg (x : spec_float) : 0 <= Vx x.
Proof.
  destruct x as [| | |s m e]; cbn [Vx];
    first [ lia
          | apply Z.pow_nonneg; lia
          | apply Z.mul_nonneg_nonneg; [lia | apply Z.pow_nonneg; lia] ].
Qed.

Lemma Vx_finite_lt (x : spec_float) : fin_nonneg x = true -> Vx x < 2 ^ (emax - emin).
Proof.
  intros Hx. pose proof (pow2_pos (emax - emin) ltac:(rewrite emin_eq; lia)) as Hinf.
  destruct x as [|[|]| |[|] m e]; try discriminate Hx; cbn [Vx fin_nonneg] in *; [lia|].
  destruct (bounded_facts m e Hx) as (He & Hm & _).
  assert (2 ^ (emax - emin) = 2 ^ prec * 2 ^ (emax - prec - emin)) as ->.
  { rewrite <- Z.pow_add_r by (rewrite ?emin_eq in *; lia). f_equal. lia. }
  assert (2 ^ (e - emin) <= 2 ^ (emax - prec - emin)) by (apply Z.pow_le_mono_r; lia).
  pose proof (pow2_pos (e - emin) ltac:(lia)). nia.
Qed.

Lemma nonneg_finite (x : spec_float) :
  nonneg x = true -> Vx x < 2 ^ (emax - emin) -> fin_nonneg x = true.
Proof.
  destruct x as [|[|]| |[|] m e]; cbn [nonneg fin_nonneg Vx]; try congruence.
  lia.
Qed.

(** A positive integer [N] counted in units of [2^g], rounded into the
    format; the result is counted in units of [2^emin]. *)
Definition round_at (g N : Z) : Z :=
  if N <=? 0 then 0 else Z.min (Rz N g) (2 ^ (emax - emin)).

Lemma Rz_nonneg (N g : Z) : 0 <= N -> g <= targetz N g -> 0 <= Rz N g.
Proof.
  intros HN Hg. unfold Rz.
  pose proof (targetz_emin N g).
  apply Z.mul_nonneg_nonneg; [|apply Z.pow_nonneg; lia].
  pose proof (rne_bounds N (2 ^ (targetz N g - g)) ltac:(apply pow2_pos; lia)) as [Hb _].
  assert (0 <= N / 2 ^ (targetz N g - g)) by (apply Z.div_pos; [lia | apply pow2_pos; lia]).
  lia.
Qed.

Lemma round_at_mono (g N1 N2 : Z) :
  g <= emin -> N1 <= N2 -> round_at g N1 <= round_at g N2.
Proof.
  intros Hg H12. unfold round_at.
  pose proof (pow2_pos (emax - emin) ltac:(rewrite emin_eq; lia)) as Hinf.
  destruct (Z.leb_spec N1 0) as [H1|H1]; destruct (Z.leb_spec N2 0) as [H2|H2]; try lia.
  - pose proof (Rz_nonneg N2 g ltac:(lia) ltac:(pose proof (targetz_emin N2 g); lia)). lia.
  - pose proof (Rz_mono N1 N2 g ltac:(lia) ltac:(pose proof (targetz_emin N1 g); lia)). lia.
Qed.

(** Rounding the value of a datum of the format gives the datum back. *)
Lemma round_at_Vx (x : spec_float) : fin_nonneg x = true -> round_at emin (Vx x) = Vx x.
Proof.
  intros Hx. pose proof (Vx_finite_lt x Hx) as Hlt. unfold round_at.
  destruct x as [|[|]| |[|] m e]; try discriminate Hx; cbn [Vx fin_nonneg] in *;
    [reflexivity|].
  destruct (bounded_facts m e Hx) as (He & Hm & _ & Hc).
  pose proof (pow2_pos (e - emin) ltac:(lia)) as Hp.
  destruct (Z.leb_spec (Zpos m * 2 ^ (e - emin)) 0) as [|_]; [nia|].
  assert (targetz (Zpos m * 2 ^ (e - emin)) emin = e) as Ht.
  { unfold targetz. rewrite Zdigits2_shift by lia. cbn [Zdigits2].
    rewrite <- Hc at 2. f_equal. lia. }
  rewrite (Rz_exact _ _ (Zpos m)) by (rewrite ?Ht; lia).
  rewrite Z.sub_diag. change (2 ^ 0) with 1. lia.
Qed.

Lemma Zdigits2_mul (a b : Z) :
  0 < a -> 0 < b -> Zdigits2 a + Zdigits2 b - 1 <= Zdigits2 (a * b).
Proof.
  intros Ha Hb.
  pose proof (Zdigits2_bounds a Ha) as [Hla _].
  pose proof (Zdigits2_bounds b Hb) as [Hlb _].
  pose proof (Zdigits2_bounds (a * b) ltac:(nia)) as [_ Hhab].
  pose proof (Zdigits2_pos a Ha). pose proof (Zdigits2_pos b Hb).
  assert (2 ^ (Zdigits2 a - 1 + (Zdigits2 b - 1)) < 2 ^ Zdigits2 (a * b)) as Hlt.
  { rewrite Z.pow_add_r by lia.
    pose proof (pow2_pos (Zdigits2 a - 1) ltac:(lia)).
    pose proof (pow2_pos (Zdigits2 b - 1) ltac:(lia)). nia. }
  apply Z.pow_lt_mono_r_iff in Hlt; try lia.
  pose proof (Zdigits2_pos (a * b) ltac:(nia)). lia.
Qed.

Lemma SFmul_finite_Vx (mx my : positive) (ex ey : Z) :
  bounded prec emax mx ex = true -> bounded prec emax my ey = true ->
  let r := SFmul prec emax (S754_finite false mx ex) (S754_finite false my ey) in
  nonneg r = true /\
  Vx r = round_at (2 * emin)
           (Vx (S754_finite false mx ex) * Vx (S754_finite false my ey)).
Proof.
  intros Hx Hy. cbn zeta. cbn [SFmul xorb Vx].
  destruct (bounded_facts mx ex Hx) as (Hex & Hmx & Hnx & Hcx).
  destruct (bounded_facts my ey Hy) as (Hey & Hmy & Hny & Hcy).
  pose proof (Zdigits2_mul (Zpos mx) (Zpos my) ltac:(lia) ltac:(lia)) as Hd.
  assert (0 < Zpos (digits2_pos mx)) as Hdx by lia.
  assert (0 < Zpos (digits2_pos my)) as Hdy by lia.
  assert (Hpre : ex + ey <= targetz (Zpos (mx * my)) (ex + ey)).
  { unfold targetz. rewrite Pos2Z.inj_mul.
    cbn [Zdigits2] in Hd. rewrite fexp_eq in *. rewrite emin_eq in *. lia. }
  destruct (binary_round_aux_Vx (mx * my) (ex + ey) Hpre) as [Hnn HV].
  split; [exact Hnn|]. rewrite HV.
  pose proof (pow2_pos (ex - emin) ltac:(lia)) as Hpx.
  pose proof (pow2_pos (ey - emin) ltac:(lia)) as Hpy.
  unfold round_at.
  destruct (Z.leb_spec (Zpos mx * 2 ^ (ex - emin) * (Zpos my * 2 ^ (ey - emin))) 0);
    [nia|].
  f_equal.
  rewrite <- (Rz_shift (Zpos (mx * my)) (ex + ey) (ex - emin + (ey - emin)))
    by (try lia; exact Hpre).
  f_equal; [|lia].
  rewrite Pos2Z.inj_mul, Z.pow_add_r by lia. lia.
Qed.

Lemma shl_align_fst (m : positive) (e e' : Z) :
  e' <= e -> Zpos (fst (shl_align m e e')) = Zpos m * 2 ^ (e - e').
Proof.
  intros He. unfold shl_align.
  destruct (e' - e) as [|d|d] eqn:Hd; cbn [fst]; try lia.
  - replace (e - e') with 0 by lia. lia.
  - rewrite iter_xO_value. do 2 f_equal. lia.
Qed.

Lemma SFadd_finite_Vx (mx my : positive) (ex ey : Z) :
  bounded prec emax mx ex = true -> bounded prec emax my ey = true ->
  let r := SFadd prec emax (S754_finite false mx ex) (S754_finite false my ey) in
  nonneg r = true /\
  Vx r = round_at emin (Vx (S754_finite false mx ex) + Vx (S754_finite false my ey)).
Proof.
  intros Hx Hy. cbn zeta. cbn [SFadd cond_Zopp Vx].
  destruct (bounded_facts mx ex Hx) as (Hex & Hmx & Hnx & Hcx).
  destruct (bounded_facts my ey Hy) as (Hey & Hmy & Hny & Hcy).
  set (ez := Z.min ex ey).
  rewrite (shl_align_fst mx ex ez), (shl_align_fst my ey ez) by (unfold ez; lia).
  pose proof (pow2_pos (ex - ez) ltac:(unfold ez; lia)) as Hpx.
  pose proof (pow2_pos (ey - ez) ltac:(unfold ez; lia)) as Hpy.
  set (X := Zpos mx * 2 ^ (ex - ez)) in *. set (Y := Zpos my * 2 ^ (ey - ez)) in *.
  assert (0 < X) as HX by (unfold X; nia).
  assert (0 < Y) as HY by (unfold Y; nia).
  destruct (X + Y) as [|p|p] eqn:HS; try lia.
  cbn [binary_normalize]. unfold binary_round.
  (* the sum does not need more precision than its finer operand *)
  assert (Hpre : ez <= fexp (Zpos (digits2_pos p) + ez)).
  { assert (Zdigits2 X <= Zdigits2 (Zpos p)) as HdX by (apply Zdigits2_mono; lia).
    assert (Zdigits2 Y <= Zdigits2 (Zpos p)) as HdY by (apply Zdigits2_mono; lia).
    unfold X in HdX. unfold Y in HdY.
    rewrite Zdigits2_shift in HdX, HdY by (unfold ez; lia).
    cbn [Zdigits2] in HdX, HdY.
    rewrite fexp_eq in *. unfold ez in *. lia. }
  assert (shl_align p ez (fexp (Zpos (digits2_pos p) + ez)) = (p, ez)) as ->.
  { unfold shl_align.
    destruct (fexp (Zpos (digits2_pos p) + ez) - ez) eqn:Hd; try reflexivity. lia. }
  destruct (binary_round_aux_Vx p ez Hpre) as [Hnn HV].
  split; [exact Hnn|]. rewrite HV.
  pose proof (pow2_pos (ex - emin) ltac:(lia)) as Hqx.
  pose proof (pow2_pos (ey - emin) ltac:(lia)) as Hqy.
  unfold round_at.
  destruct (Z.leb_spec (Zpos mx * 2 ^ (ex - emin) + Zpos my * 2 ^ (ey - emin)) 0); [nia|].
  f_equal.
  rewrite <- (Rz_shift (Zpos p) ez (ez - emin)) by (try (unfold ez; lia); exact Hpre).
  f_equal; [|lia].
  rewrite <- HS. unfold X, Y.
  rewrite Z.mul_add_distr_r, <- !Z.mul_assoc, <- !Z.pow_add_r by (unfold ez; lia).
  do 2 f_equal; f_equal; lia.
Qed.

(** A product of finite data that are not negative is the exact product,
    rounded; so is a sum. *)
Theorem SFmul_Vx (x y : spec_float) :
  fin_nonneg x = true -> fin_nonneg y = true ->
  nonneg (SFmul prec emax x y) = true /\
  Vx (SFmul prec emax x y) = round_at (2 * emin) (Vx x * Vx y).
Proof.
  intros Hx Hy.
  destruct x as [sx|[|]| |[|] mx ex]; try discriminate Hx;
    destruct y as [sy|[|]| |[|] my ey]; try discriminate Hy.
  - split; [reflexivity|]. cbn [SFmul Vx]. reflexivity.
  - split; [reflexivity|]. cbn [SFmul Vx]. reflexivity.
  - split; [reflexivity|]. cbn [SFmul Vx]. rewrite Z.mul_0_r. reflexivity.
  - by apply SFmul_finite_Vx.
Qed.

Theorem SFadd_Vx (x y : spec_float) :
  fin_nonneg x = true -> fin_nonneg y = true ->
  nonneg (SFadd prec emax x y) = true /\
  Vx (SFadd prec emax x y) = round_at emin (Vx x + Vx y).
Proof.
  intros Hx Hy.
  destruct x as [sx|[|]| |[|] mx ex]; try discriminate Hx;
    destruct y as [sy|[|]| |[|] my ey]; try discriminate Hy.
  - split; [destruct sx, sy; reflexivity|]. destruct sx, sy; reflexivity.
  - split; [exact Hy|]. cbn [SFadd]. rewrite Z.add_0_l.
    symmetry. by apply round_at_Vx.
  - split; [exact Hx|]. cbn [SFadd]. change (Vx (S754_zero sy)) with 0.
    rewrite Z.add_0_r. symmetry. by apply round_at_Vx.
  - by apply SFadd_finite_Vx.
Qed.

(** Both operations are monotone on such data. *)
Corollary SFmul_mono (x1 x2 y1 y2 : spec_float) :
  fin_nonneg x1 = true -> fin_nonneg x2 = true ->
  fin_nonneg y1 = true -> fin_nonneg y2 = true ->
  Vx x1 <= Vx x2 -> Vx y1 <= Vx y2 ->
  Vx (SFmul prec emax x1 y1) <= Vx (SFmul prec emax x2 y2).
Proof.
  intros Hx1 Hx2 Hy1 Hy2 Hx Hy.
  rewrite (proj2 (SFmul_Vx x1 y1 Hx1 Hy1)), (proj2 (SFmul_Vx x2 y2 Hx2 Hy2)).
  apply round_at_mono; [rewrite emin_eq; lia|].
  pose proof (Vx_nonneg x1). pose proof (Vx_nonneg y1). nia.
Qed.

Corollary SFadd_mono (x1 x2 y1 y2 : spec_float) :
  fin_nonneg x1 = true -> fin_nonneg x2 = true ->
  fin_nonneg y1 = true -> fin_nonneg y2 = true ->
  Vx x1 <= Vx x2 -> Vx y1 <= Vx y2 ->
  Vx (SFadd prec emax x1 y1) <= Vx (SFadd prec emax x2 y2).
Proof.
  intros Hx1 Hx2 Hy1 Hy2 Hx Hy.
  rewrite (proj2 (SFadd_Vx x1 y1 Hx1 Hy1)), (proj2 (SFadd_Vx x2 y2 Hx2 Hy2)).
  apply round_at_mono; lia.
Qed.

(** Adding a datum that is not negative does not decrease the value, and
    increases it when the datum added is at least one unit in the last
    place. *)
Lemma SFadd_increases (x y : spec_float) :
  fin_nonneg x = true -> fin_nonneg y = true -> Vx x <= Vx (SFadd prec emax x y).
Proof.
  intros Hx Hy. rewrite (proj2 (SFadd_Vx x y Hx Hy)).
  rewrite <- (round_at_Vx x Hx) at 1.
  apply round_at_mono; [lia|]. pose proof (Vx_nonneg y). lia.
Qed.

Lemma successor_exact (m : positive) (e : Z) :
  bounded prec emax m e = true ->
  Rz ((Zpos m + 1) * 2 ^ (e - emin)) emin = (Zpos m + 1) * 2 ^ (e - emin).
Proof.
  intros Hb. destruct (bounded_facts m e Hb) as (He & Hm & Hn & Hc).
  pose proof (digits2_pos_bounds m) as [Hlo Hhi].
  pose proof (pow2_pos (e - emin) ltac:(lia)) as Hp.
  pose proof (pow2_pos prec ltac:(lia)) as Hpp.
  set (N := (Zpos m + 1) * 2 ^ (e - emin)).
  assert (Hd : Zdigits2 N = Zdigits2 (Zpos m + 1) + (e - emin))
    by (apply Zdigits2_shift; lia).
  assert (Ht : targetz N emin = fexp (Zdigits2 (Zpos m + 1) + e)).
  { unfold targetz. rewrite Hd. f_equal. lia. }
  pose proof (Zdigits2_mono (Zpos m) (Zpos m + 1) ltac:(lia)) as Hmono.
  cbn [Zdigits2] in Hmono.
  destruct (Z.eq_dec (Zpos m + 1) (2 ^ prec)) as [Heq|Hne].
  - assert (Zdigits2 (Zpos m + 1) = prec + 1) as Hd1.
    { apply Zdigits2_unique; [lia|]. rewrite Heq.
      replace (prec + 1 - 1) with prec by lia.
      rewrite Z.pow_add_r by lia. lia. }
    assert (targetz N emin = e + 1) as Ht'.
    { rewrite Ht, Hd1, fexp_eq. rewrite emin_eq in *. lia. }
    rewrite (Rz_exact N emin (2 ^ (prec - 1))).
    + rewrite Z.sub_diag. change (2 ^ 0) with 1. lia.
    + lia.
    + rewrite Ht'. lia.
    + rewrite Ht'. unfold N. rewrite Heq, pow2_half.
      replace (e + 1 - emin) with (Z.succ (e - emin)) by lia.
      rewrite Z.pow_succ_r by lia. lia.
  - assert (Zdigits2 (Zpos m + 1) <= prec) as Hd1.
    { pose proof (Zdigits2_bounds (Zpos m + 1) ltac:(lia)) as [Hlo1 _].
      destruct (Z.le_gt_cases (Zdigits2 (Zpos m + 1)) prec) as [|Hgt]; [assumption|].
      assert (2 ^ prec <= 2 ^ (Zdigits2 (Zpos m + 1) - 1))
        by (apply Z.pow_le_mono_r; lia). lia. }
    assert (targetz N emin = e) as Ht'.
    { rewrite Ht. rewrite fexp_eq in *. rewrite emin_eq in *. lia. }
    rewrite (Rz_exact N emin (Zpos m + 1)).
    + rewrite Z.sub_diag. change (2 ^ 0) with 1. lia.
    + lia.
    + rewrite Ht'. lia.
    + rewrite Ht'. reflexivity.
Qed.

Lemma SFadd_strict (m : positive) (e : Z) (y : spec_float) :
  bounded prec emax m e = true -> fin_nonneg y = true ->
  2 ^ (e - emin) <= Vx y ->
  Vx (S754_finite false m e) < Vx (SFadd prec emax (S754_finite false m e) y).
Proof.
  intros Hb Hy Hulp.
  rewrite (proj2 (SFadd_Vx (S754_finite false m e) y Hb Hy)).
  pose proof (Vx_finite_lt (S754_finite false m e) Hb) as Hfin.
  cbn [Vx] in *.
  destruct (bounded_facts m e Hb) as (He & _).
  pose proof (pow2_pos (e - emin) ltac:(lia)) as Hp.
  apply Z.lt_le_trans with (round_at emin ((Zpos m + 1) * 2 ^ (e - emin))).
  - unfold round_at.
    destruct (Z.leb_spec ((Zpos m + 1) * 2 ^ (e - emin)) 0) as [|_]; [nia|].
    rewrite successor_exact by exact Hb. nia.
  - apply round_at_mono; [lia|]. nia.
Qed.

(** A normal datum below [2^k] has an exponent of at most [k - prec]. *)
Lemma exponent_below (m : positive) (e k : Z) :
  bounded prec emax m e = true -> emin <= k - prec ->
  Zpos m * 2 ^ (e - emin) < 2 ^ (k - emin) -> e <= k - prec.
Proof.
  intros Hb Hk Hlt. destruct (bounded_facts m e Hb) as (He & _ & Hn & _).
  destruct (Z.le_gt_cases e (k - prec)) as [|Hgt]; [assumption|exfalso].
  destruct Hn as [->|Hn]; [lia|].
  assert (2 ^ (k - emin) <= 2 ^ (prec - 1) * 2 ^ (e - emin)).
  { rewrite <- Z.pow_add_r by lia. apply Z.pow_le_mono_r; lia. }
  pose proof (pow2_pos (e - emin) ltac:(lia)). nia.
Qed.

(** A value [K * 2^j] with [K] of at most [prec] digits is a datum of the
    format: rounding leaves it. *)
Lemma round_at_grid (K j : Z) :
  0 < K < 2 ^ prec -> emin <= j <= emax - prec ->
  round_at emin (K * 2 ^ (j - emin)) = K * 2 ^ (j - emin).
Proof.
  intros [HK0 HK1] [Hj0 Hj1].
  pose proof (pow2_pos (j - emin) ltac:(lia)) as Hp.
  set (N := K * 2 ^ (j - emin)).
  assert (0 < N) as HN by (unfold N; nia).
  pose proof (Zdigits2_bounds K HK0) as [Hlo _].
  pose proof (Zdigits2_pos K HK0) as Hd0.
  assert (Zdigits2 K <= prec) as Hd.
  { destruct (Z.le_gt_cases (Zdigits2 K) prec) as [|Hgt]; [assumption|].
    assert (2 ^ prec <= 2 ^ (Zdigits2 K - 1)) by (apply Z.pow_le_mono_r; lia). lia. }
  assert (Ht : targetz N emin = fexp (Zdigits2 K + j)).
  { unfold targetz, N. rewrite Zdigits2_shift by lia. f_equal. lia. }
  assert (emin <= targetz N emin <= j) as [Ht0 Ht1].
  { rewrite Ht, fexp_eq. rewrite emin_eq in *. lia. }
  unfold round_at. destruct (Z.leb_spec N 0) as [|_]; [lia|].
  rewrite (Rz_exact N emin (K * 2 ^ (j - targetz N emin))).
  2, 3, 4: clear Ht; set (t := targetz N emin) in *; clearbody t.
  - rewrite Z.sub_diag. change (2 ^ 0) with 1. rewrite Z.mul_1_r.
    apply Z.min_l.
    assert (2 ^ (emax - emin) = 2 ^ prec * 2 ^ (emax - prec - emin)) as ->.
    { rewrite <- Z.pow_add_r by (rewrite ?emin_eq in *; lia). f_equal. lia. }
    assert (2 ^ (j - emin) <= 2 ^ (emax - prec - emin)) by (apply Z.pow_le_mono_r; lia).
    unfold N. nia.
  - lia.
  - exact Ht0.
  - unfold N. rewrite <- Z.mul_assoc, <- Z.pow_add_r by lia. do 2 f_equal. lia.
Qed.

Lemma Vx_le_infinity (x : spec_float) : nonneg x = true -> Vx x <= 2 ^ (emax - emin).
Proof.
  intros Hx. destruct x as [|[|]| |[|] m e]; try discriminate Hx; cbn [Vx].
  - apply Z.pow_nonneg. lia.
  - lia.
  - apply Z.lt_le_incl. by apply (Vx_finite_lt (S754_finite false m e)).
Qed.

End Format.

End Rounding.

(** ** Data of either sign: how far a rounding moves a value *)

Module Signed.

Lemma rne_error (N D : Z) : 0 < D -> 2 * Z.abs (Rounding.rne N D * D - N) <= D.
Proof.
  intros HD. unfold Rounding.rne.
  pose proof (Z.div_mod N D ltac:(lia)) as Hdm.
  pose proof (Z.mod_pos_bound N D HD) as Hr.
  set (q := N / D) in *. set (r := N mod D) in *. cbn zeta.
  destruct (Z.compare_spec (2 * r) D); [| |]; try destruct (Z.even q); lia.
Qed.

(** The value of a datum in multiples of [2^u]; zero for what is not
    finite. *)
Definition Sz (u : Z) (x : spec_float) : Z :=
  match x with
  | S754_finite s m e => cond_Zopp s (Zpos m) * 2 ^ (e - u)
  | _ => 0
  end.

Definition finite (prec emax : Z) (x : spec_float) : bool :=
  match x with
  | S754_zero _ => true
  | S754_finite _ m e => bounded prec emax m e
  | _ => false
  end.

Lemma cond_Zopp_abs (s : bool) (a b : Z) :
  Z.abs (cond_Zopp s a - cond_Zopp s b) = Z.abs (a - b).
Proof. destruct s; cbn [cond_Zopp]; lia. Qed.

Lemma cond_Zopp_mul (s : bool) (a b : Z) : cond_Zopp s a * b = cond_Zopp s (a * b).
Proof. destruct s; cbn [cond_Zopp]; lia. Qed.

Section Format.

Variables prec emax : Z.
Hypothesis Hprec : 0 < prec.
Hypothesis Hemax : prec < emax.
Variable u : Z.
Hypothesis Hu : u <= emin prec emax.

Local Abbreviation emin := (SpecFloat.emin prec emax).
Local Abbreviation fexp := (SpecFloat.fexp prec emax).
Local Abbreviation in_format := (Rounding.in_format prec emax).
Local Abbreviation normalized := (Rounding.normalized prec emax).
Local Abbreviation target := (Rounding.target prec emax).

Lemma normalized_Sz (s : bool) (M E : Z) :
  in_format M E -> E < emax - prec ->
  finite prec emax (normalized s M E) = true /\
  Sz u (normalized s M E) = cond_Zopp s M * 2 ^ (E - u).
Proof.
  intros Hfmt HE. pose proof Hfmt as (HminE & HM & Hnorm).
  unfold Rounding.normalized.
  destruct M as [|p|p]; [split; [reflexivity | destruct s; reflexivity] | | lia].
  pose proof (Rounding.pow2_half prec Hprec) as Hhalf.
  pose proof (Rounding.pow2_pos (prec - 1) ltac:(lia)) as Hpp.
  destruct (Z.eqb_spec (Zpos p) (2 ^ prec)) as [Heq|Hne].
  - destruct (Z.leb_spec (E + 1) (emax - prec)); [|lia].
    cbn [finite Sz]. split.
    + apply (Rounding.in_format_bounded prec emax Hprec); rewrite ?Z2Pos.id by lia.
      * unfold Rounding.in_format. lia.
      * lia.
      * lia.
    + rewrite Z2Pos.id by lia. rewrite !cond_Zopp_mul. f_equal.
      rewrite Heq, Hhalf.
      replace (E + 1 - u) with (1 + (E - u)) by lia.
      rewrite Z.pow_add_r by lia. lia.
  - destruct (Z.leb_spec E (emax - prec)); [|lia].
    cbn [finite Sz]. split; [|reflexivity].
    apply (Rounding.in_format_bounded prec emax Hprec); [exact Hfmt | exact Hne | lia].
Qed.

(** What [binary_round] returns: the mantissa rounded at the exponent
    the format gives the datum, at most half a unit of that exponent
    away, and the datum itself when it needs no rounding. *)
Lemma binary_round_eq (s : bool) (m : positive) (e : Z) :
  u <= e ->
  let t := target m e in
  exists M, in_format M t /\
    binary_round prec emax s m e = normalized s M t /\
    2 * Z.abs (M * 2 ^ (t - u) - Zpos m * 2 ^ (e - u)) <= 2 ^ (t - u) /\
    (t <= e -> M * 2 ^ (t - u) = Zpos m * 2 ^ (e - u)).
Proof.
  intros He t.
  assert (emin <= t) as Ht.
  { unfold t, Rounding.target. rewrite Rounding.fexp_eq, Rounding.emin_eq. lia. }
  unfold binary_round. fold (target m e). fold t.
  unfold shl_align. destruct (t - e) as [|d|d] eqn:Hd.
  - (* the datum sits at its exponent *)
    assert (t = e) as Hte by lia.
    exists (Zpos m). split; [|split; [|split]].
    + pose proof (Rounding.rne_in_format prec emax Hprec m e ltac:(fold t; lia)) as H.
      fold t in H. rewrite Hte, Z.sub_diag in H. cbn [Z.pow] in H.
      rewrite <- (Z.mul_1_r (Zpos m)) in H at 1.
      rewrite Rounding.rne_exact in H by lia. by rewrite Hte.
    + rewrite (Rounding.binary_round_aux_eq prec emax Hprec s m e) by (fold t; lia).
      fold t. rewrite Hte, Z.sub_diag. cbn [Z.pow].
      rewrite <- (Z.mul_1_r (Zpos m)) at 1. by rewrite Rounding.rne_exact by lia.
    + rewrite Hte, Z.sub_diag. cbn [Z.abs].
      pose proof (Rounding.pow2_pos (e - u) ltac:(lia)). lia.
    + intros _. by rewrite Hte.
  - (* the datum is finer than the format: round *)
    assert (e < t) as Hlt by lia.
    pose proof (Rounding.rne_in_format prec emax Hprec m e ltac:(fold t; lia)) as Hfmt.
    fold t in Hfmt.
    set (D := 2 ^ (t - e)) in *.
    exists (Rounding.rne (Zpos m) D). split; [exact Hfmt|]. split; [|split].
    + by rewrite (Rounding.binary_round_aux_eq prec emax Hprec s m e) by (fold t; lia).
    + pose proof (Rounding.pow2_pos (t - e) ltac:(lia)) as HD. fold D in HD.
      pose proof (rne_error (Zpos m) D HD) as Herr.
      pose proof (Rounding.pow2_pos (e - u) ltac:(lia)) as HP.
      replace (2 ^ (t - u)) with (D * 2 ^ (e - u))
        by (unfold D; rewrite <- Z.pow_add_r by lia; f_equal; lia).
      set (P := 2 ^ (e - u)) in *. set (M := Rounding.rne (Zpos m) D) in *.
      replace (M * (D * P) - Zpos m * P) with ((M * D - Zpos m) * P) by lia.
      rewrite Z.abs_mul, (Z.abs_eq P) by lia.
      rewrite Z.mul_assoc. apply Z.mul_le_mono_nonneg_r; lia.
    + lia.
  - (* the datum is coarser than the format: shift, exactly *)
    assert (t < e) as Hlt by lia.
    assert (target (Pos.iter xO m d) t = t) as Ht'.
    { unfold Rounding.target. rewrite Rounding.digits_shift.
      replace (Zpos (digits2_pos m) + Zpos d + t) with (Zpos (digits2_pos m) + e) by lia.
      reflexivity. }
    pose proof (Rounding.rne_in_format prec emax Hprec (Pos.iter xO m d) t
                  ltac:(rewrite Ht'; lia)) as Hfmt.
    rewrite Ht', Z.sub_diag in Hfmt. cbn [Z.pow] in Hfmt.
    rewrite <- (Z.mul_1_r (Zpos (Pos.iter xO m d))) in Hfmt at 1.
    rewrite Rounding.rne_exact in Hfmt by lia.
    exists (Zpos (Pos.iter xO m d)). split; [exact Hfmt|].
    assert (Zpos (Pos.iter xO m d) * 2 ^ (t - u) = Zpos m * 2 ^ (e - u)) as Hval.
    { rewrite Rounding.iter_xO_value, <- Z.mul_assoc, <- Z.pow_add_r by lia.
      do 2 f_equal. lia. }
    split; [|split].
    + rewrite (Rounding.binary_round_aux_eq prec emax Hprec s _ t) by (rewrite Ht'; lia).
      rewrite Ht', Z.sub_diag. cbn [Z.pow].
      rewrite <- (Z.mul_1_r (Zpos (Pos.iter xO m d))) at 1.
      by rewrite Rounding.rne_exact by lia.
    + rewrite Hval, Z.sub_diag. cbn [Z.abs].
      pose proof (Rounding.pow2_pos (t - u) ltac:(lia)). lia.
    + intros _. exact Hval.
Qed.

(** A datum below [2^K] is rounded to a finite datum at most
    [2^(K - prec) / 2] away. *)
Lemma binary_round_Sz (s : bool) (m : positive) (e K : Z) :
  u <= e -> Zpos m * 2 ^ (e - u) < 2 ^ (K - u) ->
  K < emax -> emin <= K - prec ->
  finite prec emax (binary_round prec emax s m e) = true /\
  2 * Z.abs (Sz u (binary_round prec emax s m e) - cond_Zopp s (Zpos m * 2 ^ (e - u)))
  <= 2 ^ (K - prec - u).
Proof.
  intros He Hlt HK HKmin.
  destruct (binary_round_eq s m e He) as (M & Hfmt & -> & Herr & _).
  set (t := target m e) in *.
  assert (t <= K - prec) as Ht.
  { pose proof (Rounding.digits2_pos_bounds m) as [Hd _].
    pose proof (Rounding.pow2_pos (e - u) ltac:(lia)) as HP.
    assert (2 ^ (Zpos (digits2_pos m) - 1 + (e - u)) < 2 ^ (K - u)) as Hpow.
    { rewrite Z.pow_add_r by lia. nia. }
    assert (0 <= K - u) as HKu.
    { destruct (Z.le_gt_cases 0 (K - u)); [lia|].
      rewrite (Z.pow_neg_r 2 (K - u)) in Hlt by lia. nia. }
    apply Z.pow_lt_mono_r_iff in Hpow; [|lia|lia].
    unfold t, Rounding.target. rewrite Rounding.fexp_eq.
    rewrite Rounding.emin_eq in HKmin. lia. }
  destruct (normalized_Sz s M t Hfmt ltac:(lia)) as [Hfin ->].
  split; [exact Hfin|].
  rewrite cond_Zopp_mul, cond_Zopp_abs.
  eapply Z.le_trans; [exact Herr|].
  apply Z.pow_le_mono_r; lia.
Qed.

(** A datum that fits the format is returned as it is. *)
Lemma binary_round_exact (s : bool) (m : positive) (e : Z) :
  u <= e -> target m e <= e -> target m e < emax - prec ->
  finite prec emax (binary_round prec emax s m e) = true /\
  Sz u (binary_round prec emax s m e) = cond_Zopp s (Zpos m * 2 ^ (e - u)).
Proof.
  intros He Ht Hmax.
  destruct (binary_round_eq s m e He) as (M & Hfmt & -> & _ & Hval).
  destruct (normalized_Sz s M _ Hfmt Hmax) as [Hfin ->].
  split; [exact Hfin|]. by rewrite cond_Zopp_mul, Hval.
Qed.

Lemma Sz_finite_split (s : bool) (m : positive) (e g : Z) :
  u <= g -> g <= e ->
  Sz u (S754_finite s m e) = cond_Zopp s (Zpos m * 2 ^ (e - g)) * 2 ^ (g - u).
Proof.
  intros Hg He. cbn [Sz]. rewrite !cond_Zopp_mul. f_equal.
  rewrite <- Z.mul_assoc, <- Z.pow_add_r by lia. do 2 f_equal. lia.
Qed.

(** A sum of finite data of either sign, below [2^K] in magnitude, is
    finite and at most [2^(K - prec) / 2] away from the exact sum. *)
Theorem SFadd_Sz (x y : spec_float) (K : Z) :
  finite prec emax x = true -> finite prec emax y = true ->
  Z.abs (Sz u x + Sz u y) < 2 ^ (K - u) ->
  K < emax -> emin <= K - prec ->
  finite prec emax (SFadd prec emax x y) = true /\
  2 * Z.abs (Sz u (SFadd prec emax x y) - (Sz u x + Sz u y)) <= 2 ^ (K - prec - u).
Proof.
  intros Hx Hy Hlt HK HKmin.
  assert (0 <= 2 ^ (K - prec - u)) as Hnn by (apply Z.pow_nonneg; lia).
  destruct x as [sx| | |sx mx ex]; try discriminate Hx;
    destruct y as [sy| | |sy my ey]; try discriminate Hy.
  - split; [destruct sx, sy; reflexivity|].
    destruct sx, sy; cbn [SFadd Sz]; lia.
  - cbn [SFadd]. split; [exact Hy|]. cbn [Sz]. rewrite Z.add_0_l, Z.sub_diag. exact Hnn.
  - cbn [SFadd]. split; [exact Hx|]. cbn [Sz]. rewrite Z.add_0_r, Z.sub_diag. exact Hnn.
  - cbn [finite] in Hx, Hy.
    destruct (Rounding.bounded_facts prec emax Hprec mx ex Hx) as (Hex & _).
    destruct (Rounding.bounded_facts prec emax Hprec my ey Hy) as (Hey & _).
    cbn [SFadd]. set (ez := Z.min ex ey) in *.
    rewrite (Sz_finite_split sx mx ex ez), (Sz_finite_split sy my ey ez) in *
      by (unfold ez; lia).
    rewrite (Rounding.shl_align_fst mx ex ez), (Rounding.shl_align_fst my ey ez)
      by (unfold ez; lia).
    rewrite <- Z.mul_add_distr_r in *.
    pose proof (Rounding.pow2_pos (ez - u) ltac:(unfold ez; lia)) as HP.
    destruct (cond_Zopp sx (Zpos mx * 2 ^ (ex - ez))
              + cond_Zopp sy (Zpos my * 2 ^ (ey - ez))) as [|p|p];
      cbn [binary_normalize].
    + split; [reflexivity|]. cbn [Sz]. rewrite Z.mul_0_l, Z.sub_diag. exact Hnn.
    + apply (binary_round_Sz false p ez K); try assumption; [unfold ez; lia|].
      rewrite Z.abs_eq in Hlt by lia. exact Hlt.
    + pose proof (binary_round_Sz true p ez K ltac:(unfold ez; lia)) as H.
      cbn [cond_Zopp] in H. rewrite <- Z.mul_opp_l in H. apply H; try assumption.
      rewrite Z.abs_neq in Hlt by lia. lia.
Qed.

Lemma Sz_opp (x : spec_float) : Sz u (SFopp x) = - Sz u x.
Proof.
  destruct x as [ | | |[|] m e]; cbn [SFopp Sz negb cond_Zopp]; lia.
Qed.

Lemma finite_opp (x : spec_float) : finite prec emax (SFopp x) = finite prec emax x.
Proof. by destruct x. Qed.

End Format.
Section Bounds.

Variables prec emax : Z.
Hypothesis Hprec : 0 < prec.
Hypothesis Hemax : prec < emax.
Variable u : Z.
Hypothesis Hu : u <= emin prec emax.

Local Abbreviation emin := (SpecFloat.emin prec emax).
Local Abbreviation fexp := (SpecFloat.fexp prec emax).
Local Abbreviation in_format := (Rounding.in_format prec emax).
Local Abbreviation normalized := (Rounding.normalized prec emax).
Local Abbreviation target := (Rounding.target prec emax).

(** Rounding does not cross a power of two. *)
Lemma binary_round_le (s : bool) (m : positive) (e j : Z) :
  u <= e -> Zpos m * 2 ^ (e - u) <= 2 ^ (j - u) ->
  emin <= j -> j + 1 < emax ->
  finite prec emax (binary_round prec emax s m e) = true /\
  Z.abs (Sz u (binary_round prec emax s m e)) <= 2 ^ (j - u).
Proof.
  intros He Hle Hj Hjmax.
  destruct (binary_round_eq prec emax Hprec u Hu s m e He) as (M & Hfmt & -> & Herr & _).
  set (t := target m e) in *.
  assert (emin <= t) as Ht0 by apply Hfmt.
  assert (t <= j /\ t < emax - prec) as [Ht Htmax].
  { pose proof (Rounding.digits2_pos_bounds m) as [Hd _].
    pose proof (Rounding.pow2_pos (e - u) ltac:(lia)) as HP.
    assert (2 ^ (Zpos (digits2_pos m) - 1 + (e - u)) <= 2 ^ (j - u)) as Hpow.
    { rewrite Z.pow_add_r by lia. nia. }
    assert (Zpos (digits2_pos m) - 1 + (e - u) <= j - u) as Hexp.
    { apply (Z.pow_le_mono_r_iff 2); lia. }
    unfold t, Rounding.target. rewrite Rounding.fexp_eq.
    rewrite Rounding.emin_eq in Hj. lia. }
  destruct (normalized_Sz prec emax Hprec u Hu s M t Hfmt Htmax) as [Hfin ->].
  split; [exact Hfin|].
  destruct Hfmt as (_ & HM & _).
  rewrite cond_Zopp_mul.
  replace (Z.abs (cond_Zopp s (M * 2 ^ (t - u)))) with (M * 2 ^ (t - u)).
  2:{ pose proof (Rounding.pow2_pos (t - u) ltac:(lia)).
      destruct s; cbn [cond_Zopp]; nia. }
  replace (j - u) with (j - t + (t - u)) in * by lia.
  rewrite Z.pow_add_r in * by lia.
  pose proof (Rounding.pow2_pos (t - u) ltac:(lia)) as HT.
  pose proof (Rounding.pow2_pos (j - t) ltac:(lia)) as HJ.
  set (T := 2 ^ (t - u)) in *. set (J := 2 ^ (j - t)) in *.
  apply Z.mul_le_mono_nonneg_r; [lia|].
  (* [M] is an integer at most [J + 1/2] *)
  assert (2 * (M * T) <= 2 * (J * T) + T) as H2 by lia.
  nia.
Qed.

Theorem SFadd_le (x y : spec_float) (j : Z) :
  finite prec emax x = true -> finite prec emax y = true ->
  Z.abs (Sz u x + Sz u y) <= 2 ^ (j - u) ->
  emin <= j -> j + 1 < emax ->
  finite prec emax (SFadd prec emax x y) = true /\
  Z.abs (Sz u (SFadd prec emax x y)) <= 2 ^ (j - u).
Proof.
  intros Hx Hy Hle Hj Hjmax.
  assert (0 <= 2 ^ (j - u)) as Hnn by (apply Z.pow_nonneg; lia).
  destruct x as [sx| | |sx mx ex]; try discriminate Hx;
    destruct y as [sy| | |sy my ey]; try discriminate Hy.
  - split; [destruct sx, sy; reflexivity|].
    destruct sx, sy; cbn [SFadd Sz]; lia.
  - cbn [SFadd]. split; [exact Hy|]. cbn [Sz] in *. by rewrite Z.add_0_l in Hle.
  - cbn [SFadd]. split; [exact Hx|]. cbn [Sz] in *. by rewrite Z.add_0_r in Hle.
  - cbn [finite] in Hx, Hy.
    destruct (Rounding.bounded_facts prec emax Hprec mx ex Hx) as (Hex & _).
    destruct (Rounding.bounded_facts prec emax Hprec my ey Hy) as (Hey & _).
    cbn [SFadd]. set (ez := Z.min ex ey) in *.
    rewrite (Sz_finite_split u sx mx ex ez), (Sz_finite_split u sy my ey ez) in *
      by (unfold ez; lia).
    rewrite (Rounding.shl_align_fst mx ex ez), (Rounding.shl_align_fst my ey ez)
      by (unfold ez; lia).
    rewrite <- Z.mul_add_distr_r in *.
    pose proof (Rounding.pow2_pos (ez - u) ltac:(unfold ez; lia)) as HP.
    destruct (cond_Zopp sx (Zpos mx * 2 ^ (ex - ez))
              + cond_Zopp sy (Zpos my * 2 ^ (ey - ez))) as [|p|p];
      cbn [binary_normalize].
    + split; [reflexivity|]. cbn [Sz Z.abs]. exact Hnn.
    + apply (binary_round_le false p ez j); try assumption; [unfold ez; lia|].
      rewrite Z.abs_eq in Hle by lia. exact Hle.
    + apply (binary_round_le true p ez j); try assumption; [unfold ez; lia|].
      rewrite Z.abs_neq in Hle by lia. lia.
Qed.

End Bounds.

Section Magnitude.

Variables prec emax : Z.
Hypothesis Hprec : 0 < prec.
Hypothesis Hemax : prec < emax.

Local Abbreviation emin := (SpecFloat.emin prec emax).
Local Abbreviation fexp := (SpecFloat.fexp prec emax).
Local Abbreviation normalized := (Rounding.normalized prec emax).

Lemma finite_abs (x : spec_float) :
  finite prec emax x = true -> Rounding.fin_nonneg prec emax (SFabs x) = true.
Proof. by destruct x. Qed.

Lemma Sz_abs (x : spec_float) :
  finite prec emax x = true -> Z.abs (Sz emin x) = Rounding.Vx prec emax (SFabs x).
Proof.
  destruct x as [| | |s m e]; try discriminate; intros Hx; [reflexivity|].
  cbn [finite] in Hx.
  destruct (Rounding.bounded_facts prec emax Hprec m e Hx) as (He & _).
  pose proof (Rounding.pow2_pos (e - emin) ltac:(lia)).
  cbn [Sz SFabs Rounding.Vx]. destruct s; cbn [cond_Zopp]; nia.
Qed.

Lemma normalized_sign (s : bool) (M E : Z) :
  Rounding.fin_nonneg prec emax (normalized false M E) = true ->
  finite prec emax (normalized s M E) = true /\
  SFabs (normalized s M E) = normalized false M E.
Proof.
  unfold Rounding.normalized.
  destruct M as [|p|p]; [by split| |by split].
  destruct (Zpos p =? 2 ^ prec).
  - destruct (E + 1 <=? emax - prec); [by split | discriminate].
  - destruct (E <=? emax - prec); [by split | discriminate].
Qed.

(** The magnitude of a product is the product of the magnitudes. *)
Theorem SFmul_abs (x y : spec_float) :
  finite prec emax x = true -> finite prec emax y = true ->
  Rounding.fin_nonneg prec emax (SFmul prec emax (SFabs x) (SFabs y)) = true ->
  finite prec emax (SFmul prec emax x y) = true /\
  SFabs (SFmul prec emax x y) = SFmul prec emax (SFabs x) (SFabs y).
Proof.
  intros Hx Hy.
  destruct x as [sx| | |sx mx ex]; try discriminate Hx;
    destruct y as [sy| | |sy my ey]; try discriminate Hy;
    try (intros _; split; reflexivity).
  cbn [finite] in Hx, Hy. cbn [SFabs SFmul xorb].
  destruct (Rounding.bounded_facts prec emax Hprec mx ex Hx) as (Hex & Hmx & Hnx & Hcx).
  destruct (Rounding.bounded_facts prec emax Hprec my ey Hy) as (Hey & Hmy & Hny & Hcy).
  pose proof (Rounding.Zdigits2_mul prec emax Hprec Hemax (Zpos mx) (Zpos my)
                (Pos2Z.is_pos mx) (Pos2Z.is_pos my)) as Hd.
  assert (Hpre : ex + ey <= Rounding.target prec emax (mx * my) (ex + ey)).
  { unfold Rounding.target.
    change (Zpos mx * Zpos my) with (Zpos (mx * my)) in Hd. cbn [Zdigits2] in Hd.
    rewrite Rounding.fexp_eq in *. rewrite Rounding.emin_eq in *. lia. }
  rewrite !(Rounding.binary_round_aux_eq prec emax Hprec _ _ _ Hpre).
  apply normalized_sign.
Qed.

End Magnitude.

End Signed.

(** ** Quotients: what a division rounds to *)

Module Quotients.
Import Rounding.

(** The record a division leaves: quotient, round bit, sticky bit. *)
Lemma represents_new_location (N D : Z) :
  0 < D -> 0 <= N ->
  represents N D (shr_record_of_loc (N / D) (new_location D (N mod D))).
Proof.
  intros HD HN.
  pose proof (Z.mod_pos_bound N D HD) as Hr.
  set (r := N mod D) in *.
  assert (forall l, shr_m (shr_record_of_loc (N / D) l) = N / D) as Hm
    by (intros [|[| |]]; reflexivity).
  unfold new_location.
  destruct (Z.even D) eqn:Hev.
  - unfold new_location_even.
    destruct (Z.eqb_spec r 0) as [H0|H0].
    + constructor; cbn; try lia; fold r; split; try lia; congruence.
    + destruct (Z.compare_spec (2 * r) D); constructor; cbn; try lia; fold r;
        split; try lia; try congruence; intros; split; lia.
  - unfold new_location_odd.
    assert (2 * r <> D) as Hodd.
    { intros Heq. rewrite <- Heq, Z.even_mul in Hev. discriminate. }
    destruct (Z.eqb_spec r 0) as [H0|H0].
    + constructor; cbn; try lia; fold r; split; try lia; congruence.
    + destruct (Z.compare_spec (2 * r + 1) D); constructor; cbn; try lia; fold r;
        split; try lia; try congruence; intros; split; lia.
Qed.

Section Format.

Variables prec emax : Z.
Hypothesis Hprec : 0 < prec.
Hypothesis Hemax : prec < emax.

Local Abbreviation emin := (SpecFloat.emin prec emax).
Local Abbreviation fexp := (SpecFloat.fexp prec emax).
Local Abbreviation in_format := (Rounding.in_format prec emax).
Local Abbreviation normalized := (Rounding.normalized prec emax).

(** The exponent the format gives a quotient [N / D] counted in units
    of [2^e]. *)
Definition targetq (N D e : Z) : Z := fexp (Zdigits2 (N / D) + e).

Lemma shr_fexp_represents (q e : Z) (l : location) (N D : Z) :
  represents N D (shr_record_of_loc q l) ->
  let n := Z.max (fexp (Zdigits2 q + e) - e) 0 in
  exists mrs, shr_fexp prec emax q e l = (mrs, e + n) /\ represents N (D * 2 ^ n) mrs.
Proof.
  intros Hrep. cbn zeta. unfold shr_fexp, shr.
  destruct (fexp (Zdigits2 q + e) - e) as [|p|p] eqn:Hn.
  - eexists. split; [rewrite Z.add_0_r; reflexivity|].
    cbn [Z.max Z.compare Z.pow]. by rewrite Z.mul_1_r.
  - eexists. split; [rewrite Z.max_l by lia; reflexivity|].
    rewrite Z.max_l by lia. by apply represents_iter.
  - eexists. split; [rewrite Z.max_r by lia; rewrite Z.add_0_r; reflexivity|].
    rewrite Z.max_r by lia. cbn [Z.pow]. by rewrite Z.mul_1_r.
Qed.

Lemma Zdigits2_upper (q : Z) : 0 <= q -> q < 2 ^ Zdigits2 q.
Proof.
  intros Hq. destruct q as [|p|p]; [reflexivity| |lia].
  apply Zdigits2_bounds. lia.
Qed.

(** The rounded quotient fits the format. *)
Lemma rne_quotient_in_format (N D e : Z) :
  0 < D -> 0 <= N -> e <= targetq N D e ->
  in_format (rne N (D * 2 ^ (targetq N D e - e))) (targetq N D e).
Proof.
  intros HD HN Hn. unfold Rounding.in_format.
  set (q := N / D) in *.
  assert (0 <= q) as Hq by (apply Z.div_pos; lia).
  pose proof (Zdigits2_upper q Hq) as Hhi.
  set (E := targetq N D e) in *.
  assert (HE : E = Z.max (Zdigits2 q + e - prec) emin)
    by (unfold E, targetq; fold q; rewrite fexp_eq, emin_eq; reflexivity).
  set (d := Zdigits2 q) in *.
  assert (0 <= d) as Hd.
  { unfold d. destruct q as [|p|p]; cbn [Zdigits2]; lia. }
  set (n := E - e) in *.
  assert (0 <= n) as Hn0 by (unfold n; lia).
  pose proof (pow2_pos n Hn0) as HP.
  assert (0 < D * 2 ^ n) as HD' by nia.
  pose proof (rne_bounds N (D * 2 ^ n) HD') as [Hb1 Hb2].
  rewrite <- Z.div_div in Hb1, Hb2 by lia. fold q in Hb1, Hb2.
  assert (0 <= q / 2 ^ n) as Hq0 by (apply Z.div_pos; lia).
  split; [rewrite emin_eq in *; lia|].
  assert (Hupper : forall k, 0 <= k -> d <= n + k -> q / 2 ^ n + 1 <= 2 ^ k).
  { intros k Hk Hdk.
    assert (2 ^ d <= 2 ^ (n + k)) by (apply Z.pow_le_mono_r; lia).
    rewrite Z.pow_add_r in * by lia.
    pose proof (pow2_pos k Hk).
    pose proof (Z.div_mod q (2 ^ n) ltac:(lia)).
    pose proof (Z.mod_pos_bound q (2 ^ n) HP). nia. }
  split; [split; [lia|]|].
  - apply Z.le_trans with (q / 2 ^ n + 1); [exact Hb2|].
    apply Hupper; [lia|]. unfold n. rewrite emin_eq in HE. lia.
  - destruct (Z.eq_dec E emin) as [Heq|Hne]; [left; exact Heq|right].
    assert (n = d - prec) as Hnd by (unfold n; rewrite emin_eq in *; lia).
    assert (0 < q) as Hqpos.
    { destruct (Z.eq_dec q 0) as [H0|H0]; [|lia].
      exfalso. unfold d in *. rewrite H0 in *. cbn [Zdigits2] in *. lia. }
    pose proof (Zdigits2_bounds q Hqpos) as [Hlo _]. fold d in Hlo.
    apply Z.le_trans with (q / 2 ^ n); [|exact Hb1].
    assert (2 ^ (d - 1) = 2 ^ (prec - 1) * 2 ^ n) as Hsplit.
    { rewrite <- Z.pow_add_r by lia. f_equal. lia. }
    apply Z.div_le_lower_bound; [exact HP|]. lia.
Qed.

(** [binary_round_aux] on a quotient with its location. *)
Lemma binary_round_aux_quotient (s : bool) (N D e : Z) :
  0 < D -> 0 <= N -> e <= targetq N D e ->
  binary_round_aux prec emax s (N / D) e (new_location D (N mod D))
  = normalized s (rne N (D * 2 ^ (targetq N D e - e))) (targetq N D e).
Proof.
  intros HD HN Hn. unfold binary_round_aux.
  destruct (shr_fexp_represents (N / D) e _ N D (represents_new_location N D HD HN))
    as (mrs & Hshr & Hrep). cbn zeta in *.
  fold (targetq N D e) in Hshr, Hrep.
  rewrite Z.max_l in * by lia.
  rewrite Hshr.
  replace (e + (targetq N D e - e)) with (targetq N D e) by lia.
  rewrite (round_nearest_even_rne _ _ _ Hrep).
  pose proof (rne_quotient_in_format N D e HD HN Hn) as Hfmt.
  set (M := rne N (D * 2 ^ (targetq N D e - e))) in *.
  destruct (shr_fexp_normalize prec emax Hprec M (targetq N D e) Hfmt) as (mrs' & -> & Hm').
  rewrite Hm'. unfold Rounding.normalized.
  destruct Hfmt as (_ & [HM0 HM1] & _).
  pose proof (pow2_pos (prec - 1) ltac:(lia)) as Hp1.
  destruct (Z.eqb_spec M (2 ^ prec)) as [Heq|Hne].
  - destruct M as [|p|p]; [pose proof (pow2_pos prec); lia| |lia].
    destruct (2 ^ (prec - 1)) as [|q|q] eqn:Hq; [lia| |lia].
    reflexivity.
  - destruct M as [|p|p]; [reflexivity|reflexivity|lia].
Qed.

(** What [SFdiv] returns on finite operands: the quotient of the
    mantissas, the dividend shifted to give it enough digits, rounded. *)
Lemma SFdiv_quotient (sx sy : bool) (mx my : positive) (ex ey : Z) :
  bounded prec emax mx ex = true -> bounded prec emax my ey = true ->
  let e' := Z.min (fexp (Zpos (digits2_pos mx) + ex - (Zpos (digits2_pos my) + ey)))
                  (ex - ey) in
  let N := Zpos mx * 2 ^ (ex - ey - e') in
  let t := targetq N (Zpos my) e' in
  e' <= t /\ (emin < e' -> 2 ^ (prec - 1) <= N / Zpos my) /\
  SFdiv prec emax (S754_finite sx mx ex) (S754_finite sy my ey)
  = normalized (xorb sx sy) (rne N (Zpos my * 2 ^ (t - e'))) t.
Proof.
  intros Hx Hy. cbn zeta.
  set (d1 := Zpos (digits2_pos mx)). set (d2 := Zpos (digits2_pos my)).
  set (e' := Z.min (fexp (d1 + ex - (d2 + ey))) (ex - ey)).
  set (s := ex - ey - e').
  assert (0 <= s) as Hs by (unfold s, e'; lia).
  pose proof (pow2_pos s Hs) as HPs.
  set (N := Zpos mx * 2 ^ s).
  assert (0 < N) as HN by (unfold N; nia).
  pose proof (digits2_pos_bounds mx) as [Hlo1 Hhi1]. fold d1 in Hlo1, Hhi1.
  pose proof (digits2_pos_bounds my) as [Hlo2 Hhi2]. fold d2 in Hlo2, Hhi2.
  assert (emin < e' -> 2 ^ (prec - 1) <= N / Zpos my) as Hbig.
  { intros He'.
    assert (fexp (d1 + ex - (d2 + ey)) = d1 + ex - (d2 + ey) - prec) as HF.
    { unfold e' in He'. rewrite fexp_eq in *. rewrite emin_eq in *. lia. }
    assert (d2 - d1 + prec <= s) as Hs' by (unfold s, e'; rewrite HF; lia).
    apply Z.div_le_lower_bound; [lia|].
    assert (2 ^ (d2 + (prec - 1)) <= 2 ^ (d1 - 1 + s)) as Hpow
      by (apply Z.pow_le_mono_r; lia).
    rewrite !Z.pow_add_r in Hpow by lia.
    pose proof (pow2_pos (prec - 1) ltac:(lia)).
    unfold N. nia. }
  assert (e' <= targetq N (Zpos my) e') as Hpre.
  { unfold targetq. rewrite fexp_eq.
    destruct (Z.le_gt_cases e' emin) as [Hle|Hgt]; [rewrite emin_eq in Hle; lia|].
    specialize (Hbig Hgt).
    assert (0 < N / Zpos my) as Hq by (pose proof (pow2_pos (prec - 1)); lia).
    pose proof (Zdigits2_bounds _ Hq) as [_ Hqhi].
    pose proof (Zdigits2_pos _ Hq) as Hdq.
    assert (2 ^ (prec - 1) < 2 ^ Zdigits2 (N / Zpos my)) as Hp by lia.
    apply Z.pow_lt_mono_r_iff in Hp; [|lia|lia].
    lia. }
  split; [exact Hpre|]. split; [exact Hbig|].
  rewrite <- (binary_round_aux_quotient (xorb sx sy) N (Zpos my) e') by lia.
  cbn [SFdiv]. unfold SFdiv_core_binary. cbn [Zdigits2].
  fold d1 d2 e' s.
  assert ((match s with
           | 0 => Zpos mx
           | Zpos _ => Z.shiftl (Zpos mx) s
           | Zneg _ => 0
           end) = N) as ->.
  { unfold N. destruct s as [|p|p] eqn:Hsp; [lia| |lia].
    rewrite Z.shiftl_mul_pow2 by lia. reflexivity. }
  change (IntDef.Z.div_eucl N (Zpos my)) with (Z.div_eucl N (Zpos my)).
  pose proof (Z.div_eucl_eq N (Zpos my) ltac:(lia)) as _.
  unfold Z.div, Z.modulo.
  destruct (Z.div_eucl N (Zpos my)) as [q r]. reflexivity.
Qed.

End Format.
End Quotients.

(** ** binary64 numbers that are finite and not negative *)

Module Num64.

Import Rounding.

Definition ok (x : number) : bool := fin_nonneg Num.prec Num.emax x.
Definition V (x : number) : Z := Vx Num.prec Num.emax x.

Lemma prec_pos : 0 < Num.prec.
Proof. reflexivity. Qed.

Lemma prec_lt_emax : Num.prec < Num.emax.
Proof. reflexivity. Qed.

Lemma V_nonneg x : 0 <= V x.
Proof. apply Vx_nonneg. Qed.

Lemma leb_V x y : ok x = true -> ok y = true -> Num.leb x y = true <-> V x <= V y.
Proof.
  intros Hx Hy.
  apply (SFleb_Vx _ _ prec_pos prec_lt_emax); by apply fin_nonneg_nonneg.
Qed.

Lemma ltb_V x y : ok x = true -> ok y = true -> Num.ltb x y = true <-> V x < V y.
Proof.
  intros Hx Hy.
  apply (SFltb_Vx _ _ prec_pos prec_lt_emax); by apply fin_nonneg_nonneg.
Qed.

(** A number bounded by a finite one is finite. *)
Lemma ok_below (x b : number) :
  nonneg Num.prec Num.emax x = true -> ok b = true -> V x <= V b -> ok x = true.
Proof.
  intros Hx Hb Hle. apply nonneg_finite; [exact Hx|].
  pose proof (Vx_finite_lt _ _ prec_pos prec_lt_emax b Hb). unfold V in Hle. lia.
Qed.

Lemma mul_bounds (x y lo hi : number) :
  ok x = true -> ok y = true -> ok lo = true -> ok hi = true ->
  V lo <= V x <= V hi -> ok (hi * y)%js = true ->
  ok (x * y)%js = true /\ V (lo * y)%js <= V (x * y)%js <= V (hi * y)%js.
Proof.
  intros Hx Hy Hlo Hhi [H1 H2] Hfin.
  assert (V (x * y)%js <= V (hi * y)%js) as Hup
    by (apply (SFmul_mono _ _ prec_pos prec_lt_emax); try assumption; lia).
  split; [|split; [|exact Hup]].
  - apply (ok_below _ (hi * y)%js); try assumption.
    by apply (SFmul_Vx _ _ prec_pos prec_lt_emax).
  - apply (SFmul_mono _ _ prec_pos prec_lt_emax); try assumption; lia.
Qed.

Lemma add_bounds (x y lo hi : number) :
  ok x = true -> ok y = true -> ok lo = true -> ok hi = true ->
  V lo <= V x <= V hi -> ok (hi + y)%js = true ->
  ok (x + y)%js = true /\ V (lo + y)%js <= V (x + y)%js <= V (hi + y)%js.
Proof.
  intros Hx Hy Hlo Hhi [H1 H2] Hfin.
  assert (V (x + y)%js <= V (hi + y)%js) as Hup
    by (apply (SFadd_mono _ _ prec_pos prec_lt_emax); try assumption; lia).
  split; [|split; [|exact Hup]].
  - apply (ok_below _ (hi + y)%js); try assumption.
    by apply (SFadd_Vx _ _ prec_pos prec_lt_emax).
  - apply (SFadd_mono _ _ prec_pos prec_lt_emax); try assumption; lia.
Qed.

(** The exact value is the scaled value times [2^emin]. *)
Lemma toQ_V (x : number) :
  ok x = true -> (Num.toQ x == inject_Z (V x) * 2 ^ (-1074))%Q.
Proof.
  destruct x as [|[|]| |[|] m e]; try discriminate; intros Hx.
  - cbn [Num.toQ V Vx]. rewrite Qmult_0_l. reflexivity.
  - cbn [ok fin_nonneg] in Hx.
    destruct (bounded_facts _ _ prec_pos m e Hx) as (He & _).
    change (emin Num.prec Num.emax) with (-1074) in He.
    cbn [Num.toQ V Vx cond_Zopp]. change (emin Num.prec Num.emax) with (-1074).
    rewrite inject_Z_mult, Zpower_Qpower by lia.
    rewrite <- Qmult_assoc. apply Qmult_comp; [reflexivity|].
    change (inject_Z 2) with 2%Q.
    rewrite <- Qpower_plus by discriminate.
    replace (e - -1074 + -1074) with e by lia. reflexivity.
Qed.

Lemma toQ_le (x y : number) :
  ok x = true -> ok y = true -> V x <= V y -> (Num.toQ x <= Num.toQ y)%Q.
Proof.
  intros Hx Hy Hle. rewrite (toQ_V x Hx), (toQ_V y Hy).
  apply Qmult_le_compat_r; [rewrite <- Zle_Qle; exact Hle|].
  apply Qpower_0_le. discriminate.
Qed.

(** The largest number below 1. *)
Definition below_one : number := S754_finite false 9007199254740991 (-53).

(** Membership in [[0, 1)], as [Math.random] promises. *)
Definition unit_interval (u : number) : Prop :=
  Num.valid u = true /\ Num.leb (Num.of_Z 0) u = true /\ Num.ltb u (Num.of_Z 1) = true.

Lemma unit_interval_ok (u : number) :
  unit_interval u -> ok u = true /\ V u <= V below_one.
Proof.
  intros (Hv & H0 & H1).
  assert (ok u = true) as Hok.
  { destruct u as [|[|]| |[|] m e]; try discriminate; try reflexivity; exact Hv. }
  split; [exact Hok|].
  apply (ltb_V u (Num.of_Z 1) Hok eq_refl) in H1.
  destruct u as [s|[|]| |[|] m e]; try discriminate Hok; [apply V_nonneg|].
  cbn [ok fin_nonneg] in Hok.
  destruct (bounded_facts _ _ prec_pos m e Hok) as (He & Hm & Hn & _).
  change (emin Num.prec Num.emax) with (-1074) in *.
  change Num.prec with 53 in *. change Num.emax with 1024 in *.
  unfold V, below_one in *. cbn [Vx] in H1 |- *.
  change (Num.of_Z 1) with (S754_finite false 4503599627370496 (-52)) in H1.
  cbn [Vx] in H1.
  change (emin Num.prec Num.emax) with (-1074) in *.
  change (2 ^ (53 - 1)) with 4503599627370496 in Hn.
  change (2 ^ 53) with 9007199254740992 in Hm.
  destruct (Z.le_gt_cases e (-53)) as [Hle|Hgt].
  - apply Z.le_trans with (9007199254740991 * 2 ^ (e - -1074)).
    + apply Z.mul_le_mono_nonneg_r; [apply Z.pow_nonneg|]; lia.
    + apply Z.mul_le_mono_nonneg_l; [lia|]. apply Z.pow_le_mono_r; lia.
  - exfalso. destruct Hn as [->|Hn]; [lia|].
    assert (4503599627370496 * 2 ^ (-52 - -1074) <= Zpos m * 2 ^ (e - -1074)); [|lia].
    apply Z.le_trans with (4503599627370496 * 2 ^ (e - -1074)).
    + apply Z.mul_le_mono_nonneg_l; [lia|]. apply Z.pow_le_mono_r; lia.
    + apply Z.mul_le_mono_nonneg_r; [apply Z.pow_nonneg|]; lia.
Qed.

(** Adding a speed: the rotation does not decrease, and it increases
    while it is below [2^46] and the speed is at least 0.01. *)
Lemma add_not_below (r s : number) :
  ok r = true -> ok s = true -> Num.leb r (r + s)%js = true.
Proof.
  intros Hr Hs.
  apply (SFleb_Vx _ _ prec_pos prec_lt_emax).
  - by apply fin_nonneg_nonneg.
  - by apply (SFadd_Vx _ _ prec_pos prec_lt_emax).
  - by apply (SFadd_increases _ _ prec_pos prec_lt_emax).
Qed.

Definition two_to_46 : number := Num.of_Z 70368744177664.

Lemma add_above (r s : number) :
  ok r = true -> ok s = true ->
  Num.ltb r two_to_46 = true -> Num.leb (Num.dec 1 100) s = true ->
  Num.ltb r (r + s)%js = true.
Proof.
  intros Hr Hs Hlt Hle.
  apply (ltb_V r two_to_46 Hr eq_refl) in Hlt.
  apply (leb_V (Num.dec 1 100) s eq_refl Hs) in Hle.
  assert (Hc : 2 ^ (-7 - -1074) <= V (Num.dec 1 100)) by (vm_compute; discriminate).
  assert (H46 : V two_to_46 = 2 ^ (46 - -1074)) by (vm_compute; reflexivity).
  apply (SFltb_Vx _ _ prec_pos prec_lt_emax).
  - by apply fin_nonneg_nonneg.
  - by apply (SFadd_Vx _ _ prec_pos prec_lt_emax).
  - destruct r as [sr|[|]| |[|] m e]; try discriminate Hr.
    + (* zero: the sum is the speed *)
      destruct s as [ss|[|]| |[|] ms es]; try discriminate Hs.
      * exfalso. unfold V in Hle, Hc. cbn [Vx] in Hle.
        pose proof (pow2_pos (-7 - -1074) ltac:(lia)). lia.
      * cbn [SFadd Num.add Vx]. unfold Num.add. cbn [SFadd Vx].
        cbn [ok fin_nonneg] in Hs.
        destruct (bounded_facts _ _ prec_pos ms es Hs) as (He & _).
        pose proof (pow2_pos (es - emin Num.prec Num.emax) ltac:(lia)). nia.
    + cbn [ok fin_nonneg] in Hr.
      apply (SFadd_strict _ _ prec_pos prec_lt_emax); [exact Hr | exact Hs |].
      change (emin Num.prec Num.emax) with (-1074).
      assert (e <= 46 - Num.prec) as He.
      { apply (exponent_below _ _ prec_pos m e 46 Hr); [vm_compute; discriminate|].
        rewrite H46 in Hlt. unfold V in Hlt. cbn [Vx] in Hlt. exact Hlt. }
      change Num.prec with 53 in He.
      apply Z.le_trans with (2 ^ (-7 - -1074)); [apply Z.pow_le_mono_r; lia|].
      unfold V in *. lia.
Qed.

(** Every run of additions of a speed comes to a rotation that the next
    addition does not increase. *)
Lemma eventually_stalls (s : number) :
  ok s = true ->
  forall r, nonneg Num.prec Num.emax r = true ->
  exists n, Num.ltb (Nat.iter n (fun r => (r + s)%js) r)
                    (Nat.iter (S n) (fun r => (r + s)%js) r) = false.
Proof.
  intros Hs r Hr.
  remember (Z.to_nat (2 ^ (Num.emax - emin Num.prec Num.emax) - V r)) as k eqn:Hk.
  assert (2 ^ (Num.emax - emin Num.prec Num.emax) - V r <= Z.of_nat k) as Hm by lia.
  clear Hk. revert r Hr Hm.
  induction k as [|k IH]; intros r Hr Hm.
  - exists 0%nat. cbn [Nat.iter nat_rect].
    destruct (Num.ltb r (r + s)%js) eqn:Hlt; [exfalso|reflexivity].
    assert (ok r = true) as Hok.
    { destruct r as [|[|]| |[|] m e]; try discriminate Hr; try exact Hr; try reflexivity.
      destruct s as [|[|]| |[|] ? ?]; discriminate. }
    pose proof (Vx_finite_lt _ _ prec_pos prec_lt_emax r Hok). unfold V in Hm. lia.
  - destruct (Num.ltb r (r + s)%js) eqn:Hlt; [|exists 0%nat; exact Hlt].
    assert (ok r = true) as Hok.
    { destruct r as [|[|]| |[|] m e]; try discriminate Hr; try exact Hr; try reflexivity.
      destruct s as [|[|]| |[|] ? ?]; discriminate. }
    destruct (SFadd_Vx _ _ prec_pos prec_lt_emax r s Hok Hs) as [Hnn _].
    apply (SFltb_Vx _ _ prec_pos prec_lt_emax r _ (fin_nonneg_nonneg _ _ _ Hok) Hnn) in Hlt.
    destruct (IH (r + s)%js Hnn) as [n Hn]; [unfold V in *; unfold Num.add; lia|].
    exists (S n). rewrite !Nat.iter_succ_r. rewrite !Nat.iter_succ_r in Hn.
    exact Hn.
Qed.

(** The value of [8 + n / 16], which bounds the rotation after [n] ticks. *)
Definition rotation_bound (n : Z) : Z := (128 + n) * 2 ^ (-4 - -1074).

Lemma rotation_bound_step (r s : number) (n : Z) :
  ok r = true -> ok s = true -> 0 <= n -> 129 + n < 2 ^ 53 ->
  V r <= rotation_bound n -> V s <= V (Num.dec 3 100) ->
  ok (r + s)%js = true /\ V (r + s)%js <= rotation_bound (n + 1).
Proof.
  intros Hr Hs Hn Hn' Hb Hv.
  destruct (SFadd_Vx _ _ prec_pos prec_lt_emax r s Hr Hs) as [Hnn HV].
  assert (Hc : V (Num.dec 3 100) <= 2 ^ (-4 - -1074)) by (vm_compute; discriminate).
  assert (Hgrid : round_at Num.prec Num.emax (emin Num.prec Num.emax) (rotation_bound (n + 1))
                  = rotation_bound (n + 1)).
  { unfold rotation_bound.
    apply (round_at_grid _ _ prec_pos prec_lt_emax (128 + (n + 1)) (-4)).
    - change Num.prec with 53. lia.
    - split; vm_compute; discriminate. }
  assert (V (r + s)%js <= rotation_bound (n + 1)) as Hle.
  { unfold V, Num.add. rewrite HV, <- Hgrid.
    apply (round_at_mono _ _ prec_pos prec_lt_emax); [lia|].
    unfold V, rotation_bound in *. lia. }
  split; [|exact Hle].
  apply nonneg_finite; [exact Hnn|].
  apply Z.le_lt_trans with (rotation_bound (n + 1)); [exact Hle|].
  unfold rotation_bound.
  apply Z.lt_le_trans with (2 ^ 53 * 2 ^ (-4 - -1074)).
  - apply Z.mul_lt_mono_pos_r; [apply pow2_pos|]; lia.
  - vm_compute. discriminate.
Qed.

Lemma rotation_bound_iter (s : number) (n : nat) : forall (r : number),
  ok r = true -> ok s = true -> 128 + Z.of_nat n < 2 ^ 53 ->
  V r <= rotation_bound 0 -> V s <= V (Num.dec 3 100) ->
  ok (Nat.iter n (fun r => (r + s)%js) r) = true /\
  V (Nat.iter n (fun r => (r + s)%js) r) <= rotation_bound (Z.of_nat n).
Proof.
  induction n as [|n IH]; intros r Hr Hs Hn Hb Hv.
  - cbn [Nat.iter nat_rect]. split; assumption.
  - rewrite Nat.iter_succ.
    destruct (IH r Hr Hs ltac:(lia) Hb Hv) as [Hok Hle].
    replace (Z.of_nat (S n)) with (Z.of_nat n + 1) by lia.
    apply rotation_bound_step; try assumption; lia.
Qed.

End Num64.

(** ** binary64 data of either sign *)

Module Signed64.

Definition finite (x : number) : bool := Signed.finite Num.prec Num.emax x.

(** The value in multiples of [2^-1074], the smallest positive number. *)
Definition scaled (x : number) : Z := Signed.Sz (-1074) x.

Lemma finite_ok (x : number) : Num64.ok x = true -> finite x = true.
Proof. by destruct x as [| | |[|] m e]. Qed.

Lemma finite_valid (x : number) :
  finite x = Num.valid x && Num.is_finite x.
Proof. destruct x; cbn; try reflexivity. by rewrite andb_true_r. Qed.

Lemma add_error (x y : number) (K : Z) :
  finite x = true -> finite y = true ->
  Z.abs (scaled x + scaled y) < 2 ^ (K + 1074) ->
  -1021 <= K < 1024 ->
  finite (x + y)%js = true /\
  2 * Z.abs (scaled (x + y)%js - (scaled x + scaled y)) <= 2 ^ (K + 1021).
Proof.
  intros Hx Hy Hlt HK.
  destruct (Signed.SFadd_Sz Num.prec Num.emax Num64.prec_pos (-1074)
              ltac:(vm_compute; discriminate) x y K Hx Hy) as [Hfin Herr].
  - replace (K - -1074) with (K + 1074) by lia. exact Hlt.
  - unfold Num.emax. lia.
  - change (emin Num.prec Num.emax) with (-1074). unfold Num.prec. lia.
  - split; [exact Hfin|].
    replace (K + 1021) with (K - Num.prec - -1074) by (unfold Num.prec; lia).
    exact Herr.
Qed.

Lemma opp_scaled (x : number) : scaled (Num.opp x) = - scaled x.
Proof. apply Signed.Sz_opp. Qed.

Lemma opp_finite (x : number) : finite (Num.opp x) = finite x.
Proof. apply Signed.finite_opp. Qed.

(** The store into a [Float32Array] moves a number below [2^K] by at
    most [2^(K - 24) / 2]. *)
Lemma fround_error (x : number) (K : Z) :
  finite x = true ->
  Z.abs (scaled x) < 2 ^ (K + 1074) ->
  -125 <= K < 128 ->
  finite (Num.fround x) = true /\
  2 * Z.abs (scaled (Num.fround x) - scaled x) <= 2 ^ (K + 1050).
Proof.
  intros Hx Hlt HK.
  assert (0 <= 2 ^ (K + 1050)) as Hnn by (apply Z.pow_nonneg; lia).
  destruct x as [sx| | |s m e]; try discriminate Hx.
  { cbn [Num.fround]. split; [reflexivity|]. rewrite Z.sub_diag. exact Hnn. }
  cbn [finite Signed.finite] in Hx.
  destruct (Rounding.bounded_facts _ _ Num64.prec_pos m e Hx) as (He & _).
  change (emin Num.prec Num.emax) with (-1074) in He.
  assert (Zpos m * 2 ^ (e - -1074) < 2 ^ (K - -1074)) as Hlt'.
  { replace (K - -1074) with (K + 1074) by lia.
    unfold scaled in Hlt. cbn [Signed.Sz] in Hlt.
    rewrite Signed.cond_Zopp_mul in Hlt.
    pose proof (Rounding.pow2_pos (e - -1074) ltac:(lia)).
    destruct s; cbn [cond_Zopp] in Hlt; lia. }
  destruct (Signed.binary_round_Sz 24 128 eq_refl (-1074)
              ltac:(vm_compute; discriminate) s m e K ltac:(lia) Hlt' ltac:(lia)
              ltac:(change (emin 24 128) with (-149); lia)) as [Hfin Herr].
  replace (K - 24 - -1074) with (K + 1050) in Herr by lia.
  unfold scaled at 2. cbn [Signed.Sz]. rewrite Signed.cond_Zopp_mul.
  cbn [Num.fround].
  destruct (binary_round 24 128 s m e) as [s'| | |s' m' e']; try discriminate Hfin.
  { split; [reflexivity|]. exact Herr. }
  cbn [Signed.finite] in Hfin.
  destruct (Rounding.bounded_facts 24 128 eq_refl m' e' Hfin) as (He' & Hm' & _).
  change (emin 24 128) with (-149) in He'.
  pose proof (Rounding.digits2_pos_bounds m') as [Hd _].
  assert (Zpos (digits2_pos m') <= 24) as Hd'.
  { assert (2 ^ (Zpos (digits2_pos m') - 1) < 2 ^ 24) as Hp by lia.
    apply Z.pow_lt_mono_r_iff in Hp; lia. }
  assert (Rounding.target Num.prec Num.emax m' e' <= e') as Ht.
  { unfold Rounding.target. rewrite Rounding.fexp_eq. unfold Num.prec, Num.emax. lia. }
  destruct (Signed.binary_round_exact Num.prec Num.emax Num64.prec_pos (-1074)
              ltac:(vm_compute; discriminate) s' m' e' ltac:(lia) Ht
              ltac:(unfold Num.prec, Num.emax in *; lia)) as [Hfin' Hval].
  split; [exact Hfin'|].
  unfold scaled. rewrite Hval.
  cbn [Signed.Sz] in Herr. rewrite Signed.cond_Zopp_mul in Herr. exact Herr.
Qed.

Lemma toQ_scaled (x : number) :
  finite x = true -> (Num.toQ x == inject_Z (scaled x) * 2 ^ (-1074))%Q.
Proof.
  destruct x as [| | |s m e]; try discriminate; intros Hx.
  - cbn [Num.toQ scaled Signed.Sz]. rewrite Qmult_0_l. reflexivity.
  - cbn [finite Signed.finite] in Hx.
    destruct (Rounding.bounded_facts _ _ Num64.prec_pos m e Hx) as (He & _).
    change (emin Num.prec Num.emax) with (-1074) in He.
    cbn [Num.toQ scaled Signed.Sz].
    rewrite inject_Z_mult, Zpower_Qpower by lia.
    rewrite <- Qmult_assoc. apply Qmult_comp; [reflexivity|].
    change (inject_Z 2) with 2%Q.
    rewrite <- Qpower_plus by discriminate.
    replace (e - -1074 + -1074) with e by lia. reflexivity.
Qed.

Lemma Qabs_scaled (z : Z) :
  (Qabs (inject_Z z * 2 ^ (-1074)) == inject_Z (Z.abs z) * 2 ^ (-1074))%Q.
Proof.
  rewrite Qabs_Qmult. apply Qmult_comp; [reflexivity|].
  apply Qabs_pos. apply Qpower_0_le. discriminate.
Qed.

Lemma scaled_le (x : number) (n : Z) (q : Q) :
  finite x = true -> (q == inject_Z n * 2 ^ (-1074))%Q ->
  (Qabs (Num.toQ x) <= q)%Q -> Z.abs (scaled x) <= n.
Proof.
  intros Hx Hq H. rewrite (toQ_scaled x Hx), Qabs_scaled, Hq in H.
  apply Qmult_le_r in H; [by rewrite Zle_Qle|].
  apply Qpower_0_lt. reflexivity.
Qed.

(** The two endpoints of a segment: with the anchor at most 1 and the
    offset at most 1/2 in magnitude, the stored endpoints add up to
    twice the anchor but for the four roundings, a binary64 sum and a
    binary32 store each. *)
Lemma midpoint_scaled (x d : number) :
  finite x = true -> finite d = true ->
  Z.abs (scaled x) <= 2 ^ 1074 -> Z.abs (scaled d) <= 2 ^ 1073 ->
  let a := Num.fround (x + d)%js in
  let b := Num.fround (x + Num.opp d)%js in
  finite a = true /\ finite b = true /\
  Z.abs (scaled a + scaled b - 2 * scaled x) <= 1073741826 * 2 ^ 1021.
Proof.
  intros Hx Hd HX HD a b.
  assert (forall e : number, finite e = true -> Z.abs (scaled e) <= 2 ^ 1073 ->
            finite (Num.fround (x + e)%js) = true /\
            Z.abs (scaled (Num.fround (x + e)%js) - (scaled x + scaled e))
            <= 536870913 * 2 ^ 1021) as Hone.
  { intros e He HE.
    set (U := 2 ^ 1021) in *.
    assert (2 ^ (1 + 1074) = 18014398509481984 * U) as E1 by (vm_compute; reflexivity).
    assert (2 ^ (1 + 1021) = 2 * U) as E2 by (vm_compute; reflexivity).
    assert (2 ^ (1 + 1050) = 1073741824 * U) as E3 by (vm_compute; reflexivity).
    assert (2 ^ 1074 = 9007199254740992 * U) as E4 by (vm_compute; reflexivity).
    assert (2 ^ 1073 = 4503599627370496 * U) as E5 by (vm_compute; reflexivity).
    assert (0 < U) as HU by (vm_compute; reflexivity).
    rewrite E4 in HX. rewrite E5 in HE. clearbody U.
    destruct (add_error x e 1 Hx He) as [Hfs Hes]; [rewrite E1; lia | lia |].
    rewrite E2 in Hes.
    destruct (fround_error (x + e)%js 1 Hfs) as [Hfa Hea]; [rewrite E1; lia | lia |].
    rewrite E3 in Hea.
    split; [exact Hfa | lia]. }
  destruct (Hone d Hd HD) as [Hfa Ha].
  destruct (Hone (Num.opp d)) as [Hfb Hb].
  { by rewrite opp_finite. }
  { rewrite opp_scaled. lia. }
  rewrite opp_scaled in Hb. fold a in Hfa, Ha. fold b in Hfb, Hb.
  split; [exact Hfa|]. split; [exact Hfb|].
  set (U := 2 ^ 1021) in *. clearbody U. lia.
Qed.

Lemma midpoint_error (x d : number) :
  finite x = true -> finite d = true ->
  (Qabs (Num.toQ x) <= 1)%Q -> (Qabs (Num.toQ d) <= 1 # 2)%Q ->
  let a := Num.fround (x + d)%js in
  let b := Num.fround (x + Num.opp d)%js in
  finite a = true /\ finite b = true /\
  (Qabs ((Num.toQ a + Num.toQ b) / 2 - Num.toQ x)
   <= (1 # 16777216) + (1 # 9007199254740992))%Q.
Proof.
  intros Hx Hd HX HD a b.
  apply (scaled_le x (2 ^ 1074)) in HX; [|exact Hx|vm_compute; reflexivity].
  apply (scaled_le d (2 ^ 1073)) in HD; [|exact Hd|vm_compute; reflexivity].
  destruct (midpoint_scaled x d Hx Hd HX HD) as (Hfa & Hfb & Herr).
  fold a in Hfa, Herr. fold b in Hfb, Herr.
  split; [exact Hfa|]. split; [exact Hfb|].
  rewrite (toQ_scaled a Hfa), (toQ_scaled b Hfb), (toQ_scaled x Hx).
  set (w := (2 ^ (-1074))%Q).
  assert ((inject_Z (scaled a) * w + inject_Z (scaled b) * w) / 2
          - inject_Z (scaled x) * w
          == inject_Z (scaled a + scaled b - 2 * scaled x) * w * (1 # 2))%Q as ->.
  { unfold Z.sub. rewrite !inject_Z_plus, inject_Z_opp, inject_Z_mult.
    change (inject_Z 2) with 2%Q. field. }
  rewrite Qabs_Qmult. unfold w. rewrite Qabs_scaled.
  change (Qabs (1 # 2)) with (1 # 2)%Q.
  rewrite Zle_Qle in Herr.
  eapply Qle_trans.
  - apply Qmult_le_compat_r; [|discriminate].
    apply Qmult_le_compat_r; [exact Herr|].
    apply Qpower_0_le. discriminate.
  - vm_compute. discriminate.
Qed.

Lemma scaled_V (x : number) : Num64.ok x = true -> scaled x = Num64.V x.
Proof. destruct x as [| | |[|] m e]; try discriminate; reflexivity. Qed.

(** Adding a speed of at most 0.03 to a rotation of at most 8, [n]
    times: while the sums stay below [2^K], each addition is at most
    [2^(K - 54)] away from the exact sum, and the errors add up. *)
Lemma iter_add_scaled (s r : number) (K : Z) (n : nat) :
  Num64.ok r = true -> Num64.ok s = true ->
  Num64.V r <= Num64.rotation_bound 0 -> Num64.V s <= Num64.V (Num.dec 3 100) ->
  4 <= K <= 48 -> Z.of_nat n + 128 <= 2 ^ (K + 4) ->
  2 * Z.abs (Num64.V (Nat.iter n (fun r => (r + s)%js) r)
             - (Num64.V r + Z.of_nat n * Num64.V s))
  <= Z.of_nat n * 2 ^ (K + 1021).
Proof.
  intros Hr Hs Hb Hv HK.
  assert (0 < 2 ^ (K + 1021)) as HE by (apply Rounding.pow2_pos; lia).
  assert (2 ^ (K + 4) <= 2 ^ 52) as Hcap by (apply Z.pow_le_mono_r; lia).
  induction n as [|n IH]; intros Hn.
  - cbn [Nat.iter nat_rect]. change (Z.of_nat 0) with 0. rewrite Z.mul_0_l, Z.add_0_r.
    rewrite Z.sub_diag. cbn. lia.
  - rewrite Nat.iter_succ.
    set (rn := Nat.iter n (fun r => (r + s)%js) r) in *.
    specialize (IH ltac:(lia)).
    destruct (Num64.rotation_bound_iter s n r Hr Hs ltac:(lia) Hb Hv) as [Hok Hle].
    fold rn in Hok, Hle.
    assert (Num64.V (Num.dec 3 100) < 2 ^ (-4 - -1074)) as Hc by (vm_compute; reflexivity).
    pose proof (Num64.V_nonneg rn) as Hrn. pose proof (Num64.V_nonneg s) as Hsn.
    destruct (add_error rn s K (finite_ok _ Hok) (finite_ok _ Hs)) as [_ Herr].
    + rewrite !scaled_V by assumption. rewrite Z.abs_eq by lia.
      unfold Num64.rotation_bound in Hle.
      replace (K + 1074) with (K + 4 + (-4 - -1074)) by lia.
      rewrite Z.pow_add_r by lia.
      set (P := 2 ^ (-4 - -1074)) in *.
      assert (0 < P) as HP by (apply Rounding.pow2_pos; lia).
      apply Z.lt_le_trans with ((129 + Z.of_nat n) * P); [lia|].
      apply Z.mul_le_mono_nonneg_r; lia.
    + lia.
    + rewrite !scaled_V in Herr by (try assumption;
        apply (Num64.rotation_bound_iter s (S n) r Hr Hs ltac:(lia) Hb Hv)).
      lia.
Qed.

Lemma iter_add_error (s r : number) (K : Z) (n : nat) :
  Num64.ok r = true -> Num64.ok s = true ->
  Num64.V r <= Num64.rotation_bound 0 -> Num64.V s <= Num64.V (Num.dec 3 100) ->
  4 <= K <= 48 -> Z.of_nat n + 128 <= 2 ^ (K + 4) ->
  (Qabs (Num.toQ (Nat.iter n (fun r => (r + s)%js) r)
         - (Num.toQ r + inject_Z (Z.of_nat n) * Num.toQ s))
   <= inject_Z (Z.of_nat n) * 2 ^ (K - 54))%Q.
Proof.
  intros Hr Hs Hb Hv HK Hn.
  pose proof (iter_add_scaled s r K n Hr Hs Hb Hv HK Hn) as Herr.
  destruct (Num64.rotation_bound_iter s n r Hr Hs) as [Hok _]; try assumption.
  { assert (2 ^ (K + 4) <= 2 ^ 52) by (apply Z.pow_le_mono_r; lia). lia. }
  rewrite (Num64.toQ_V _ Hok), (Num64.toQ_V r Hr), (Num64.toQ_V s Hs).
  set (A := Num64.V (Nat.iter n _ r)) in *. set (R := Num64.V r) in *.
  set (S' := Num64.V s) in *.
  set (w := (2 ^ (-1074))%Q).
  assert (inject_Z A * w - (inject_Z R * w + inject_Z (Z.of_nat n) * (inject_Z S' * w))
          == inject_Z (A - (R + Z.of_nat n * S')) * w)%Q as ->.
  { unfold Z.sub. rewrite !inject_Z_plus, inject_Z_opp, inject_Z_plus, inject_Z_mult. ring. }
  unfold w. rewrite Qabs_scaled.
  assert (Z.abs (A - (R + Z.of_nat n * S')) <= Z.of_nat n * 2 ^ (K + 1020)) as Hle.
  { replace (K + 1021) with (1 + (K + 1020)) in Herr by lia.
    rewrite Z.pow_add_r in Herr by lia. change (2 ^ 1) with 2 in Herr. lia. }
  rewrite Zle_Qle in Hle.
  eapply Qle_trans.
  - apply Qmult_le_compat_r; [exact Hle|]. apply Qpower_0_le. discriminate.
  - rewrite inject_Z_mult, Zpower_Qpower by lia. change (inject_Z 2) with 2%Q.
    rewrite <- Qmult_assoc, <- Qpower_plus by discriminate.
    replace (K + 1020 + -1074) with (K - 54) by lia. apply Qle_refl.
Qed.

Lemma ok_of_finite (x : number) :
  finite x = true -> 0 <= scaled x -> Num64.ok x = true.
Proof.
  destruct x as [| | |[|] m e]; try discriminate; try (intros; assumption).
  intros Hx. cbn [finite Signed.finite] in Hx.
  destruct (Rounding.bounded_facts _ _ Num64.prec_pos m e Hx) as (He & _).
  change (emin Num.prec Num.emax) with (-1074) in He.
  pose proof (Rounding.pow2_pos (e - -1074) ltac:(lia)).
  unfold scaled. cbn [Signed.Sz cond_Zopp]. nia.
Qed.

Lemma digits_le (p : positive) (k : Z) : Zpos p < 2 ^ k -> Zpos (digits2_pos p) <= k.
Proof.
  intros Hp. pose proof (Rounding.digits2_pos_bounds p) as [Hd _].
  destruct (Z.le_gt_cases 0 k) as [Hk|Hk]; [|rewrite Z.pow_neg_r in Hp; lia].
  assert (2 ^ (Zpos (digits2_pos p) - 1) < 2 ^ k) as H by lia.
  apply Z.pow_lt_mono_r_iff in H; lia.
Qed.

(** A positive integer below [2^53], counted in units of [2^e], is a
    number as it is. *)
Lemma binary_round_integer (p : positive) (e : Z) :
  -1074 <= e < 971 -> Zpos p < 2 ^ 53 ->
  Num64.ok (binary_round Num.prec Num.emax false p e) = true /\
  Num64.V (binary_round Num.prec Num.emax false p e) = Zpos p * 2 ^ (e - -1074).
Proof.
  intros He Hp. pose proof (digits_le p 53 Hp) as Hd.
  destruct (Signed.binary_round_exact Num.prec Num.emax Num64.prec_pos (-1074)
              ltac:(vm_compute; discriminate) false p e) as [Hfin Hval].
  - lia.
  - unfold Rounding.target. rewrite Rounding.fexp_eq. unfold Num.prec, Num.emax. lia.
  - unfold Rounding.target. rewrite Rounding.fexp_eq. unfold Num.prec, Num.emax. lia.
  - cbn [cond_Zopp] in Hval.
    pose proof (Rounding.pow2_pos (e - -1074) ltac:(lia)).
    assert (Num64.ok (binary_round Num.prec Num.emax false p e) = true) as Hok.
    { apply ok_of_finite; [exact Hfin|]. unfold scaled. rewrite Hval. lia. }
    split; [exact Hok|]. rewrite <- scaled_V by exact Hok. exact Hval.
Qed.

Lemma of_Z_ok (z : Z) :
  0 <= z < 2 ^ 53 ->
  Num64.ok (Num.of_Z z) = true /\ Num64.V (Num.of_Z z) = z * 2 ^ 1074.
Proof.
  intros Hz. unfold Num.of_Z. destruct z as [|p|p]; [by split| |lia].
  cbn [binary_normalize].
  destruct (binary_round_integer p 0 ltac:(lia) ltac:(lia)) as [Hok HV].
  split; [exact Hok|]. rewrite HV. reflexivity.
Qed.

(** [x % y] lies below [y]. *)
Lemma rem_bound (x : number) (my : positive) (ey : Z) :
  Num64.ok x = true -> bounded Num.prec Num.emax my ey = true -> ey < 971 ->
  Num64.ok (x mod S754_finite false my ey)%js = true /\
  Num64.V (x mod S754_finite false my ey)%js < Num64.V (S754_finite false my ey).
Proof.
  intros Hx Hy Hey.
  destruct (Rounding.bounded_facts _ _ Num64.prec_pos my ey Hy) as (Hey' & Hmy & _).
  change (emin Num.prec Num.emax) with (-1074) in Hey'. change Num.prec with 53 in Hmy.
  assert (0 < Num64.V (S754_finite false my ey)) as HVy.
  { unfold Num64.V. cbn [Rounding.Vx]. change (emin Num.prec Num.emax) with (-1074).
    pose proof (Rounding.pow2_pos (ey - -1074) ltac:(lia)). nia. }
  destruct x as [[|]| | |[|] mx ex]; try discriminate Hx; try (split; [reflexivity|exact HVy]).
  cbn [Num64.ok Rounding.fin_nonneg] in Hx.
  destruct (Rounding.bounded_facts _ _ Num64.prec_pos mx ex Hx) as (Hex & Hmx & _).
  change (emin Num.prec Num.emax) with (-1074) in Hex. change Num.prec with 53 in Hmx.
  cbn [Num.rem cond_Zopp]. set (ez := Z.min ex ey).
  pose proof (Rounding.pow2_pos (ex - ez) ltac:(unfold ez; lia)) as HPx.
  pose proof (Rounding.pow2_pos (ey - ez) ltac:(unfold ez; lia)) as HPy.
  pose proof (Rounding.pow2_pos (ez - -1074) ltac:(unfold ez; lia)) as HPz.
  set (X := Zpos mx * 2 ^ (ex - ez)). set (Y := Zpos my * 2 ^ (ey - ez)).
  assert (0 < Y) as HY by (unfold Y; nia).
  pose proof (Z.mod_pos_bound X Y HY) as Hmod.
  assert (Num64.V (S754_finite false my ey) = Y * 2 ^ (ez - -1074)) as ->.
  { unfold Num64.V, Y. cbn [Rounding.Vx]. change (emin Num.prec Num.emax) with (-1074).
    rewrite <- Z.mul_assoc, <- Z.pow_add_r by (unfold ez; lia).
    do 2 f_equal. lia. }
  destruct (X mod Y) as [|p|p] eqn:Hp; [| |lia].
  { cbn [binary_normalize]. split; [reflexivity|]. cbn. nia. }
  assert (Zpos p < 2 ^ 53) as Hp53.
  { destruct (Z.le_ge_cases ex ey).
    - (* the dividend is the finer one *)
      assert (X = Zpos mx) as HX.
      { unfold X. replace (ex - ez) with 0 by (unfold ez; lia). lia. }
      pose proof (Z.mod_le X Y ltac:(unfold X; nia) HY). lia.
    - assert (Y = Zpos my) as HY'.
      { unfold Y. replace (ey - ez) with 0 by (unfold ez; lia). lia. }
      lia. }
  cbn [binary_normalize].
  destruct (binary_round_integer p ez ltac:(unfold ez; lia) Hp53) as [Hok HV].
  split; [exact Hok|]. rewrite HV. nia.
Qed.

(** The product of a number of magnitude at most 1 and a number of
    [[0, 1/2]] has magnitude at most 1/2. *)
Lemma mul_half (c r : number) :
  finite c = true -> Z.abs (scaled c) <= 2 ^ 1074 ->
  Num64.ok r = true -> Num64.V r <= 2 ^ 1073 ->
  finite (c * r)%js = true /\ Z.abs (scaled (c * r)%js) <= 2 ^ 1073.
Proof.
  intros Hc HC Hr HR.
  pose proof (Signed.finite_abs Num.prec Num.emax c Hc) as Ha.
  pose proof (Signed.finite_abs Num.prec Num.emax r (finite_ok r Hr)) as Hb.
  pose proof (Signed.Sz_abs Num.prec Num.emax Num64.prec_pos c Hc) as HVa.
  change (emin Num.prec Num.emax) with (-1074) in HVa. fold (scaled c) in HVa.
  assert (Num64.V (SFabs r) = Num64.V r) as HVb
    by (destruct r as [[|]| | |[|] ? ?]; try discriminate Hr; reflexivity).
  set (a := SFabs c) in *. set (b := SFabs r) in *.
  assert (Num64.V (Num.of_Z 1 * Num.dec 1 2)%js = 2 ^ 1073) as Hone
    by (vm_compute; reflexivity).
  assert (Num64.V (a * b)%js <= 2 ^ 1073) as Hle.
  { rewrite <- Hone.
    apply (Rounding.SFmul_mono _ _ Num64.prec_pos Num64.prec_lt_emax);
      [exact Ha | reflexivity | exact Hb | reflexivity | |].
    - rewrite <- HVa. etrans; [exact HC|]. vm_compute. discriminate.
    - fold (Num64.V b). rewrite HVb. etrans; [exact HR|]. vm_compute. discriminate. }
  assert (Num64.ok (a * b)%js = true) as Hok.
  { apply (Num64.ok_below _ (Num.of_Z 1 * Num.dec 1 2)%js); [|reflexivity|by rewrite Hone].
    by apply (Rounding.SFmul_Vx _ _ Num64.prec_pos Num64.prec_lt_emax). }
  destruct (Signed.SFmul_abs Num.prec Num.emax Num64.prec_pos Num64.prec_lt_emax c r Hc
              (finite_ok r Hr) Hok) as [Hfin Habs].
  split; [exact Hfin|].
  pose proof (Signed.Sz_abs Num.prec Num.emax Num64.prec_pos _ Hfin) as HV.
  change (emin Num.prec Num.emax) with (-1074) in HV.
  unfold scaled, Num.mul in *. rewrite HV, Habs. exact Hle.
Qed.

(** Taking 1 from a number of [[0, 2]] leaves a number of magnitude at
    most 1. *)
Lemma sub_one (t : number) :
  Num64.ok t = true -> Num64.V t <= 2 ^ 1075 ->
  finite (t - Num.of_Z 1)%js = true /\ Z.abs (scaled (t - Num.of_Z 1)%js) <= 2 ^ 1074.
Proof.
  intros Ht HT. rewrite sub_is_add_opp.
  destruct (Signed.SFadd_le Num.prec Num.emax Num64.prec_pos Num64.prec_lt_emax (-1074)
              ltac:(vm_compute; discriminate) t (Num.opp (Num.of_Z 1)) 0
              (finite_ok t Ht) eq_refl) as [Hfin Hle].
  - fold (scaled t). rewrite (scaled_V t Ht).
    pose proof (Num64.V_nonneg t).
    change (Signed.Sz (-1074) (Num.opp (Num.of_Z 1))) with (- 2 ^ 1074).
    change (2 ^ (0 - -1074)) with (2 ^ 1074).
    assert (2 ^ 1075 = 2 * 2 ^ 1074) as E by (vm_compute; reflexivity).
    set (P := 2 ^ 1074) in *. lia.
  - vm_compute. discriminate.
  - vm_compute. reflexivity.
  - split; [exact Hfin | exact Hle].
Qed.

(** The anchor coordinate of column (or row) [c] of the grid. *)
Lemma anchor_scaled (c : number) :
  Num64.ok c = true -> Num64.V c <= Num64.V (Num.of_Z 283) ->
  finite (c * cellSize - Num.of_Z 1)%js = true /\
  Z.abs (scaled (c * cellSize - Num.of_Z 1)%js) <= 2 ^ 1074.
Proof.
  intros Hc HC.
  destruct (Num64.mul_bounds c cellSize (S754_zero false) (Num.of_Z 283))
    as (Hok & _ & Hhi); try reflexivity; [exact Hc | split; [apply Num64.V_nonneg | exact HC] |].
  apply sub_one; [exact Hok|].
  etrans; [exact Hhi|]. vm_compute. discriminate.
Qed.

(** A quotient does not round past a bound [k * 2^j] that the format
    holds. *)
Lemma div_le (x : number) (my : positive) (ey k j : Z) :
  Num64.ok x = true -> bounded Num.prec Num.emax my ey = true ->
  0 < k < 2 ^ 53 -> -1074 <= j <= 0 ->
  2 ^ (- j) * Num64.V x <= k * Num64.V (S754_finite false my ey) ->
  Num64.ok (x / S754_finite false my ey)%js = true /\
  2 ^ (- j) * Num64.V (x / S754_finite false my ey)%js <= k * 2 ^ 1074.
Proof.
  intros Hx Hy Hk Hj H.
  pose proof (Rounding.pow2_pos 1074 ltac:(lia)) as HP1074.
  destruct x as [[|]| | |[|] mx ex]; try discriminate Hx;
    try (split; [reflexivity|]; cbn; nia).
  cbn [Num64.ok Rounding.fin_nonneg] in Hx.
  destruct (Rounding.bounded_facts _ _ Num64.prec_pos mx ex Hx) as (Hex & Hmx & _).
  destruct (Rounding.bounded_facts _ _ Num64.prec_pos my ey Hy) as (Hey & Hmy & _).
  change (emin Num.prec Num.emax) with (-1074) in Hex, Hey.
  destruct (Quotients.SFdiv_quotient Num.prec Num.emax Num64.prec_pos Num64.prec_lt_emax false false mx my ex ey
              Hx Hy) as (Hpre & Hbig & Heq).
  cbn zeta in *. unfold Num.div. rewrite Heq. clear Heq. cbn [xorb].
  set (e' := Z.min _ (ex - ey)) in *.
  set (s := ex - ey - e') in *.
  assert (0 <= s) as Hs by (unfold s, e'; lia).
  set (N := Zpos mx * 2 ^ s) in *.
  set (q := N / Zpos my) in *.
  set (t := Quotients.targetq Num.prec Num.emax N (Zpos my) e') in *.
  pose proof (Rounding.pow2_pos s Hs) as HPs.
  assert (0 < N) as HN by (unfold N; nia).
  pose proof (Z.div_mod N (Zpos my) ltac:(lia)) as Hdm.
  pose proof (Z.mod_pos_bound N (Zpos my) ltac:(lia)) as Hmod.
  fold q in Hdm.
  assert (0 <= q) as Hq by (apply Z.div_pos; lia).
  unfold Num64.V in H. cbn [Rounding.Vx] in H.
  change (emin Num.prec Num.emax) with (-1074) in *.
  (* the exponent of the quotient is not above [j] *)
  assert (e' <= j) as He'.
  { destruct (Z.le_gt_cases e' j) as [|Hgt]; [assumption|exfalso].
    specialize (Hbig ltac:(lia)). change (2 ^ (Num.prec - 1)) with (2 ^ 52) in Hbig.
    assert (N * 2 ^ (e' - j) <= k * Zpos my) as Hle.
    { apply (Z.mul_le_mono_pos_r _ _ (2 ^ (ey - -1074)));
        [apply Rounding.pow2_pos; lia|].
      etrans; [|etrans; [exact H|]]; [|lia].
      unfold N. rewrite (Z.mul_comm (2 ^ (- j))).
      rewrite <- !Z.mul_assoc, <- !Z.pow_add_r by lia.
      apply Z.eq_le_incl. do 2 f_equal. unfold s. lia. }
    assert (2 <= 2 ^ (e' - j)) as H2.
    { change 2 with (2 ^ 1) at 1. apply Z.pow_le_mono_r; lia. }
    assert (2 ^ 53 = 2 * 2 ^ 52) as E by reflexivity.
    nia. }
  set (b := j - e').
  assert (N <= k * Zpos my * 2 ^ b) as HNle.
  { apply (Z.mul_le_mono_pos_r _ _ (2 ^ (ey - -1074)));
      [apply Rounding.pow2_pos; lia|].
    apply (Z.mul_le_mono_nonneg_r _ _ (2 ^ b)) in H; [|apply Z.pow_nonneg; lia].
    etrans; [|etrans; [exact H|]].
    - unfold N. rewrite (Z.mul_comm (2 ^ (- j))).
      rewrite <- !Z.mul_assoc, <- !Z.pow_add_r by (unfold b; lia).
      apply Z.eq_le_incl. do 2 f_equal. unfold s, b. lia.
    - apply Z.eq_le_incl. lia. }
  pose proof (Rounding.pow2_pos b ltac:(unfold b; lia)) as HPb.
  assert (q <= k * 2 ^ b) as Hqle by nia.
  assert (t <= j) as Ht.
  { unfold t, Quotients.targetq. fold q. rewrite Rounding.fexp_eq.
    change (3 - Num.emax - Num.prec) with (-1074). change Num.prec with 53.
    assert (Zdigits2 q <= 53 + b); [|unfold b in *; lia].
    destruct (Z.eq_dec q 0) as [->|Hq0]; [cbn [Zdigits2]; unfold b; lia|].
    pose proof (Rounding.Zdigits2_bounds q ltac:(lia)) as [Hlo _].
    pose proof (Rounding.Zdigits2_pos q ltac:(lia)) as Hdq.
    assert (2 ^ (Zdigits2 q - 1) < 2 ^ (53 + b)) as Hp.
    { rewrite (Z.pow_add_r 2 53 b) by (unfold b; lia). nia. }
    apply Z.pow_lt_mono_r_iff in Hp; unfold b in *; lia. }
  set (n := t - e') in *.
  assert (0 <= n) as Hn by (unfold n; lia).
  pose proof (Rounding.pow2_pos n Hn) as HPn.
  pose proof (Quotients.rne_quotient_in_format Num.prec Num.emax Num64.prec_pos Num64.prec_lt_emax N (Zpos my) e'
                ltac:(lia) ltac:(lia) Hpre) as Hfmt.
  fold t in Hfmt. fold n in Hfmt.
  set (M := Rounding.rne N (Zpos my * 2 ^ n)) in *.
  assert (M <= k * 2 ^ (j - t)) as HM.
  { unfold M.
    rewrite <- (Rounding.rne_exact (k * 2 ^ (j - t)) (Zpos my * 2 ^ n)) by nia.
    apply Rounding.rne_mono; [nia|].
    etrans; [exact HNle|]. apply Z.eq_le_incl.
    replace b with (j - t + n) by (unfold b, n; lia).
    rewrite Z.pow_add_r by lia. lia. }
  destruct (Signed.normalized_Sz Num.prec Num.emax Num64.prec_pos (-1074)
              ltac:(vm_compute; discriminate) false M t Hfmt
              ltac:(unfold Num.prec, Num.emax; lia)) as [Hfin HSz].
  cbn [cond_Zopp] in HSz.
  destruct Hfmt as (Htmin & HM0 & _). change (emin Num.prec Num.emax) with (-1074) in Htmin.
  pose proof (Rounding.pow2_pos (t - -1074) ltac:(lia)) as HPt.
  assert (Num64.ok (Rounding.normalized Num.prec Num.emax false M t) = true) as Hok.
  { apply ok_of_finite; [exact Hfin|]. unfold scaled. rewrite HSz. nia. }
  split; [exact Hok|].
  rewrite <- (scaled_V _ Hok). unfold scaled. rewrite HSz.
  pose proof (Rounding.pow2_pos (- j) ltac:(lia)) as HPj.
  pose proof (Rounding.pow2_pos (j - t) ltac:(lia)) as HPjt.
  assert (2 ^ 1074 = 2 ^ (- j) * (2 ^ (j - t) * 2 ^ (t - -1074))) as ->.
  { rewrite <- !Z.pow_add_r by lia. f_equal. lia. }
  nia.
Qed.

(** [Math.floor] of a number that is not negative and below [2^53]. *)
Lemma floor_le (x : number) :
  Num64.ok x = true -> Num64.V x < 2 ^ 53 * 2 ^ 1074 ->
  Num64.ok (Num.floor x) = true /\ Num64.V (Num.floor x) <= Num64.V x.
Proof.
  intros Hx Hlt.
  destruct x as [[|]| | |[|] m e]; try discriminate Hx;
    try (split; [reflexivity|cbn; lia]).
  cbn [Num64.ok Rounding.fin_nonneg] in Hx.
  destruct (Rounding.bounded_facts _ _ Num64.prec_pos m e Hx) as (He & _).
  change (emin Num.prec Num.emax) with (-1074) in He.
  unfold Num64.V in *. cbn [Rounding.Vx] in *.
  change (emin Num.prec Num.emax) with (-1074) in *.
  pose proof (Rounding.pow2_pos 1074 ltac:(lia)) as HP.
  pose proof (Rounding.pow2_pos (e - -1074) ltac:(lia)) as HPe.
  cbn [Num.floor].
  assert (exists q inexact, Num.trunc_mag m e = (q, inexact) /\
            0 <= q /\ q * 2 ^ 1074 <= Zpos m * 2 ^ (e - -1074)) as (q & ix & -> & Hq0 & Hq).
  { unfold Num.trunc_mag. destruct e as [|p|p].
    - eexists; eexists. split; [reflexivity|]. cbn. lia.
    - eexists; eexists. split; [reflexivity|]. split; [lia|].
      replace (Zpos p - -1074) with (Zpos p + 1074) by lia.
      rewrite Z.pow_add_r by lia. lia.
    - eexists; eexists. split; [reflexivity|].
      rewrite Z.pow_pos_fold.
      pose proof (Rounding.pow2_pos (Zpos p) ltac:(lia)) as HPp.
      pose proof (Z.div_mod (Zpos m) (2 ^ Zpos p) ltac:(lia)) as Hdm.
      pose proof (Z.mod_pos_bound (Zpos m) (2 ^ Zpos p) HPp) as Hmod.
      split; [apply Z.div_pos; lia|].
      assert (2 ^ 1074 = 2 ^ Zpos p * 2 ^ (Zneg p - -1074)) as ->.
      { rewrite <- Z.pow_add_r by lia. f_equal. lia. }
      nia. }
  fold (Num.of_Z q).
  destruct (of_Z_ok q ltac:(nia)) as [Hok HV].
  split; [exact Hok|]. unfold Num64.V in HV. rewrite HV. exact Hq.
Qed.

End Signed64.

(** How far the midpoint of two stored coordinates is from the anchor's
    coordinate. *)
Definition midpoint_gap (anchor a b : number) : Q :=
  Qabs ((Num.toQ a + Num.toQ b) / 2 - Num.toQ anchor).

(** [2^-24 + 2^-53]: half a unit of binary32 and half a unit of binary64
    for numbers below 2. *)
Definition store_error : Q := (1 # 16777216) + (1 # 9007199254740992).

(** A finite number of magnitude at most [bound]. *)
Definition within (bound : Q) (x : number) : Prop :=
  Signed64.finite x = true /\ (Qabs (Num.toQ x) <= bound)%Q.

Lemma midpoint_gap_bound (x d : number) :
  within 1 x -> within (1 # 2) d ->
  (midpoint_gap x (Num.fround (x + d)%js) (Num.fround (x + Num.opp d)%js)
   <= store_error)%Q.
Proof.
  intros [Hx HX] [Hd HD].
  by destruct (Signed64.midpoint_error x d Hx Hd HX HD) as (_ & _ & H).
Qed.

(** ** The anchors and offsets of the grid *)

Section Anchors.

Import Signed64.

Lemma within_of_scaled (x : number) (n : Z) (q : Q) :
  finite x = true -> Z.abs (scaled x) <= n ->
  (q == inject_Z n * 2 ^ (-1074))%Q -> within q x.
Proof.
  intros Hx Hle Hq. split; [exact Hx|].
  rewrite (toQ_scaled x Hx), Qabs_scaled, Hq.
  apply Qmult_le_compat_r; [by rewrite <- Zle_Qle|].
  apply Qpower_0_le. discriminate.
Qed.

Lemma scaled_of_within (x : number) (n : Z) (q : Q) :
  within q x -> (q == inject_Z n * 2 ^ (-1074))%Q -> Z.abs (scaled x) <= n.
Proof. intros [Hx Hle] Hq. by apply (scaled_le x n q). Qed.

(** The offset of a segment: a cosine or sine of magnitude at most 1
    times a radius of at most 1/2. *)
Lemma offset_within (c r : number) :
  within 1 c -> Num64.ok r = true -> Num64.V r <= 2 ^ 1073 -> within (1 # 2) (c * r)%js.
Proof.
  intros Hc Hr HR.
  pose proof (scaled_of_within c (2 ^ 1074) 1 Hc ltac:(vm_compute; reflexivity)) as HC.
  destruct Hc as [Hfc _].
  destruct (mul_half c r Hfc HC Hr HR) as [Hfin Hle].
  apply (within_of_scaled _ (2 ^ 1073)); [exact Hfin | exact Hle | vm_compute; reflexivity].
Qed.

Lemma gridWidth_finite : gridWidth = S754_finite false 4978588650569728 (-44).
Proof. vm_compute. reflexivity. Qed.

(** The anchors of the grid lie in [[-1, 1]]. *)
Lemma anchor_within (i : nat) :
  (i < particle_count)%nat ->
  within 1 (Num.of_nat i mod gridWidth * cellSize - Num.of_Z 1)%js /\
  within 1 (Num.floor (Num.of_nat i / gridWidth) * cellSize - Num.of_Z 1)%js.
Proof.
  intros Hi. unfold particle_count in Hi.
  destruct (of_Z_ok (Z.of_nat i) ltac:(lia)) as [Hok HV].
  fold (Num.of_nat i) in Hok, HV.
  assert (Hw : forall c, Num64.ok c = true -> Num64.V c <= Num64.V (Num.of_Z 283) ->
                within 1 (c * cellSize - Num.of_Z 1)%js).
  { intros c Hc HC. destruct (anchor_scaled c Hc HC) as [Hfin Hle].
    apply (within_of_scaled _ (2 ^ 1074)); [exact Hfin | exact Hle | vm_compute; reflexivity]. }
  assert (Num64.V (S754_finite false 4978588650569728 (-44)) = 283 * 2 ^ 1074) as HVg
    by (vm_compute; reflexivity).
  assert (Num64.V (Num.of_Z 283) = 283 * 2 ^ 1074) as HV283 by (vm_compute; reflexivity).
  pose proof (Rounding.pow2_pos 1074 ltac:(lia)) as HP.
  rewrite gridWidth_finite. split.
  - destruct (rem_bound (Num.of_nat i) 4978588650569728 (-44) Hok eq_refl ltac:(lia))
      as [Hc HC].
    apply Hw; [exact Hc|]. rewrite HV283. rewrite HVg in HC. lia.
  - destruct (div_le (Num.of_nat i) 4978588650569728 (-44) 1131 (-2) Hok eq_refl
                ltac:(lia) ltac:(lia)) as [Hq HQ].
    { rewrite HV, HVg. change (2 ^ (- -2)) with 4. nia. }
    change (2 ^ (- -2)) with 4 in HQ.
    destruct (floor_le _ Hq ltac:(nia)) as [Hc HC].
    apply Hw; [exact Hc|]. rewrite HV283. nia.
Qed.

End Anchors.


(** ** Sample engine answers, used by the examples *)

(** [Math.random] returning 0.25 at every call. *)
Definition sample_tape (k : nat) : number := Num.dec 1 4.

(** [Math.cos] and [Math.sin] at the angles the examples reach
    (1.5857963267948965 and 1.6007963267948964), correctly rounded. *)
Definition sample_cos (x : number) : number :=
  if Num.eqb x (S754_finite false 7141791746438997 (-52))
  then S754_finite true 8646587029025986 (-59)
  else if Num.eqb x (S754_finite false 7209345740849554 (-52))
  then S754_finite true 8645614306223996 (-58)
  else Num.of_Z 1.

Definition sample_sin (x : number) : number :=
  if Num.eqb x (S754_finite false 7141791746438997 (-52))
  then S754_finite false 9006185963824252 (-53)
  else if Num.eqb x (S754_finite false 7209345740849554 (-52))
  then S754_finite false 9003146319060214 (-53)
  else Num.of_Z 0.

(** A page with the canvas and a driver that never refuses. *)
Definition working_host : Host :=
  {| getElementById := fun _ => true;
     getContext := fun _ => true;
     createShader := fun _ => true;
     COMPILE_STATUS := fun _ => true;
     getShaderInfoLog := fun _ => EmptyString;
     createProgram := true;
     LINK_STATUS := true;
     getUniformLocation := fun _ => true;
     createBuffer := true |}.

(** The object before its constructor has run. *)
Definition blank : ParticleSystem :=
  mkSystem [] [] S754_nan 0 [] 0.

(** The first two particles of the grid with their twelve buffer slots. *)
Definition two_particles : ParticleSystem :=
  mkSystem [ new_particle sample_tape gridWidth cellSize 0 0;
             new_particle sample_tape gridWidth cellSize 1 3 ]
    (replicate 12 (S754_zero false)) (Num.of_Z 2) 6 [] 0.

(** The object the constructor returns on the working page. *)
Definition constructed : ParticleSystem :=
  final_state (constructor sample_cos sample_sin sample_tape working_host "webgl-canvas" blank).

Lemma constructed_returns :
  constructor sample_cos sample_sin sample_tape working_host "webgl-canvas" blank
  = Returns tt constructed.
Proof.
  unfold constructed.
  pose proof (constructor_outcome sample_cos sample_sin sample_tape working_host
                "webgl-canvas" blank) as H.
  change (first_failure working_host "webgl-canvas") with (@None string) in H.
  destruct H as (s' & -> & _). reflexivity.
Qed.

Lemma constructed_reachable :
  reachable sample_cos sample_sin sample_tape working_host constructed.
Proof. eapply reach_constructor. apply constructed_returns. Qed.

(** A particle of the second grid slot that has turned for a long time:
    its rotation has reached [2^47 = 140737488355328]. *)
Definition stalled : ParticleSystem :=
  mkSystem [ new_particle sample_tape gridWidth cellSize 0 0;
             set_rotation (new_particle sample_tape gridWidth cellSize 1 3)
               (Num.of_Z 140737488355328) ]
    (replicate 12 (S754_zero false)) (Num.of_Z 2) 6 [] 0.

(** ** The ranges of the random fields *)

Section RandomRanges.

Import Num64.

Let zero : number := S754_zero false.

(** The largest values the three fields can take. *)
Definition rotation_max : number := (below_one * Num.PI * Num.of_Z 2)%js.
Definition speed_max : number := (below_one * Num.dec 2 100 + Num.dec 1 100)%js.
Definition radius_max : number := (below_one * Num.dec 1 10 + Num.dec 5 100)%js.

Lemma rotation_range (u : number) :
  unit_interval u ->
  ok (u * Num.PI * Num.of_Z 2)%js = true /\
  V (u * Num.PI * Num.of_Z 2)%js <= V rotation_max.
Proof.
  intros Hu. destruct (unit_interval_ok u Hu) as [Hok Hle].
  destruct (mul_bounds u Num.PI zero below_one) as (Hok1 & Hlo1 & Hhi1);
    try reflexivity; [exact Hok | split; [apply V_nonneg | exact Hle] |].
  destruct (mul_bounds (u * Num.PI)%js (Num.of_Z 2) (zero * Num.PI)%js
              (below_one * Num.PI)%js) as (Hok2 & Hlo2 & Hhi2);
    try reflexivity; [exact Hok1 | split; assumption |].
  split; [exact Hok2 | exact Hhi2].
Qed.

Lemma affine_range (u a b : number) :
  unit_interval u -> ok a = true -> ok b = true ->
  ok (below_one * a)%js = true -> ok (below_one * a + b)%js = true ->
  ok (u * a + b)%js = true /\
  V (zero * a + b)%js <= V (u * a + b)%js <= V (below_one * a + b)%js.
Proof.
  intros Hu Ha Hb Hfin1 Hfin2. destruct (unit_interval_ok u Hu) as [Hok Hle].
  destruct (mul_bounds u a zero below_one) as (Hok1 & Hlo1 & Hhi1);
    try reflexivity; try assumption; [split; [apply V_nonneg | exact Hle] |].
  destruct (add_bounds (u * a)%js b (zero * a)%js (below_one * a)%js)
    as (Hok2 & Hlo2 & Hhi2); try assumption;
    [ destruct a as [|[|]| |[|] ? ?]; try discriminate Ha; reflexivity
    | split; assumption
    | split; [exact Hok2 | split; assumption] ].
Qed.

Lemma random_fields_in_range (u1 u2 u3 : number) :
  unit_interval u1 -> unit_interval u2 -> unit_interval u3 ->
  let rotation := (u1 * Num.PI * Num.of_Z 2)%js in
  let speed := (u2 * Num.dec 2 100 + Num.dec 1 100)%js in
  let radius := (u3 * Num.dec 1 10 + Num.dec 5 100)%js in
  (ok rotation = true /\ V rotation <= V rotation_max) /\
  (ok speed = true /\ V (Num.dec 1 100) <= V speed <= V speed_max) /\
  (ok radius = true /\ V (Num.dec 5 100) <= V radius <= V radius_max).
Proof.
  intros H1 H2 H3. cbn zeta. split; [|split].
  - by apply rotation_range.
  - apply (affine_range u2 (Num.dec 2 100) (Num.dec 1 100)); try reflexivity; assumption.
  - apply (affine_range u3 (Num.dec 1 10) (Num.dec 5 100)); try reflexivity; assumption.
Qed.

End RandomRanges.

(** * The properties *)

(** ** Ticks on particles *)

Lemma tick_lengths Math_cos Math_sin s :
  length (particles (tick Math_cos Math_sin s)) = length (particles s) /\
  length (vertices (tick Math_cos Math_sin s)) = length (vertices s).
Proof.
  destruct (after_loop_post Math_cos Math_sin s) as [Hlp Hlv _ _ _ _ _ _ _ _].
  unfold tick, issued; cbn [particles vertices]. split; assumption.
Qed.

Section Ticks.

Variable Math_cos Math_sin : number -> number.

Lemma tick_particle (s : ParticleSystem) (i : nat) :
  particles (tick Math_cos Math_sin s) !! i = advance <$> particles s !! i.
Proof.
  destruct (after_loop_post Math_cos Math_sin s) as [_ _ Hin Hout _ _ _ _ _ _].
  unfold tick, issued; cbn [particles].
  destruct (decide (i < length (particles s))%nat) as [Hi|Hi].
  - apply Hin. lia.
  - rewrite Hout by lia. rewrite lookup_ge_None_2 by lia. reflexivity.
Qed.

Lemma tick_slot (s : ParticleSystem) (i c : nat) (p : Particle) :
  particles s !! i = Some p -> (c < 6)%nat ->
  (i * 6 + c < length (vertices s))%nat ->
  vertices (tick Math_cos Math_sin s) !! (i * 6 + c)%nat
  = Num.fround <$> segment Math_cos Math_sin (advance p) !! c.
Proof.
  intros Hp Hc Hlen.
  destruct (after_loop_post Math_cos Math_sin s) as [_ _ _ _ Hvin _ _ _ _ _].
  unfold tick, issued; cbn [vertices].
  apply Hvin; try assumption.
  apply lookup_lt_Some in Hp. lia.
Qed.

Lemma ticks_particle (n : nat) : forall (s : ParticleSystem) (i : nat),
  particles (ticks Math_cos Math_sin n s) !! i = Nat.iter n advance <$> particles s !! i.
Proof.
  induction n as [|n IH]; intros s i; cbn [ticks].
  - destruct (particles s !! i); reflexivity.
  - rewrite updateParticles_eq. cbn [final_state].
    rewrite IH, tick_particle.
    destruct (particles s !! i) as [p|]; [|reflexivity].
    cbn [fmap option_fmap option_map]. rewrite Nat.iter_succ_r. reflexivity.
Qed.

Lemma iter_advance (n : nat) (p : Particle) :
  Nat.iter n advance p
  = mkParticle (position_x p) (position_y p)
      (Nat.iter n (fun r => (r + speed p)%js) (rotation p)) (speed p) (radius p).
Proof.
  induction n as [|n IH]; [by destruct p|].
  rewrite !Nat.iter_succ, IH. reflexivity.
Qed.

End Ticks.

(** The state [createParticles] leaves on the working page with the
    sample tape, before the first frame. *)
Abbreviation created_sample :=
  (final_state (createParticles sample_tape working_host blank)).

Lemma created_sample_particle (i : nat) :
  (i < particle_count)%nat ->
  particles created_sample !! i
  = Some (new_particle sample_tape gridWidth cellSize i (3 * i)).
Proof.
  intros Hi.
  destruct (createParticles_fields sample_tape working_host blank) as (-> & _).
  rewrite pushed_lookup by exact Hi. reflexivity.
Qed.

Lemma created_sample_buffer : length (vertices created_sample) = (particle_count * 6)%nat.
Proof.
  destruct (createParticles_fields sample_tape working_host blank) as (_ & -> & _).
  apply length_replicate.
Qed.

Lemma particle_count_large : (2 <= particle_count)%nat.
Proof. unfold particle_count. lia. Qed.

(** The first anchor of the grid, as an instance. *)
Lemma anchor_within_first :
  (0 < particle_count)%nat /\
  within 1 (Num.of_nat 0 mod gridWidth * cellSize - Num.of_Z 1)%js /\
  within 1 (Num.floor (Num.of_nat 0 / gridWidth) * cellSize - Num.of_Z 1)%js.
Proof.
  assert (H : (0 < particle_count)%nat) by (pose proof particle_count_large; lia).
  split; [exact H|]. exact (anchor_within 0 H).
Defined.

Definition is_drawArrays (c : GLcall) : bool :=
  match c with
  | gl_drawArrays_LINES _ _ => true
  | _ => false
  end.

Lemma count_times_two : (Num.of_Z 80000 * Num.of_Z 2)%js = Num.of_nat (particle_count * 2).
Proof.
  unfold Num.of_nat.
  replace (Z.of_nat (particle_count * 2)) with 160000 by (unfold particle_count; lia).
  vm_compute. reflexivity.
Qed.

(** The largest values, computed: [rotation_max] is the number just below
    [Math.PI * 2], and [speed_max] and [radius_max] are the numbers that
    the literals 0.03 and 0.15 denote, which lie below 3/100 and 15/100. *)
Lemma rotation_max_value :
  rotation_max = S754_finite false 7074237752028439 (-50) /\
  (Num.PI * Num.of_Z 2)%js = S754_finite false 7074237752028440 (-50).
Proof. split; vm_compute; reflexivity. Qed.

Lemma speed_max_value : speed_max = Num.dec 3 100.
Proof. vm_compute. reflexivity. Qed.

Lemma radius_max_value : radius_max = Num.dec 15 100.
Proof. vm_compute. reflexivity. Qed.

(** [Math.PI] lies below the real number pi (by the series of
    [atan (1/3)] and [atan (1/7)]), hence [Math.PI * 2] below twice pi. *)
Lemma PI_number_below_pi : (7074237752028440 / 2251799813685248 < PI)%R.
Proof.
  pose proof (PI_2_3_7_ineq 8) as [H _].
  unfold sum_f_R0, tg_alt, PI_2_3_7_tg, Ratan_seq in H. simpl in H. lra.
Qed.

Lemma two_PI_number_below : (Q2R (Num.toQ (Num.PI * Num.of_Z 2)%js) < 2 * PI)%R.
Proof.
  replace (Num.toQ (Num.PI * Num.of_Z 2)%js) with (7074237752028440 # 1125899906842624)
    by (vm_compute; reflexivity).
  pose proof PI_number_below_pi as H.
  unfold Q2R. cbn [Qnum Qden]. lra.
Qed.

(** What [createParticles] builds starts within these bounds. *)
Lemma created_rotation_start (random_tape : nat -> number) (host : Host)
    (s : ParticleSystem) (i : nat) (p : Particle) :
  (forall k, Num64.unit_interval (random_tape k)) ->
  particles (final_state (createParticles random_tape host s)) !! i = Some p ->
  Num64.ok (rotation p) = true /\ Num64.ok (speed p) = true /\
  Num.leb (rotation p) (Num.of_Z 8) = true /\
  Num.leb (speed p) (Num.dec 3 100) = true.
Proof.
  intros Htape Hp.
  destruct (createParticles_fields random_tape host s) as (Hps & _).
  cbn zeta in Hps. rewrite Hps in Hp.
  assert (i < particle_count)%nat as Hi.
  { apply lookup_lt_Some in Hp. by rewrite pushed_length in Hp. }
  rewrite pushed_lookup in Hp by exact Hi. injection Hp as <-.
  cbn [rotation speed radius new_particle].
  destruct (random_fields_in_range _ _ _ (Htape (random_calls s + 3 * i)%nat)
              (Htape (S (random_calls s + 3 * i)))
              (Htape (S (S (random_calls s + 3 * i)))))
    as ((Hok1 & Hhi1) & (Hok2 & Hlo2 & Hhi2) & _).
  cbn zeta in *.
  split; [exact Hok1|]. split; [exact Hok2|]. split.
  - apply (Num64.leb_V _ (Num.of_Z 8) Hok1 eq_refl).
    etrans; [exact Hhi1|]. vm_compute. discriminate.
  - apply (Num64.leb_V _ (Num.dec 3 100) Hok2 eq_refl).
    etrans; [exact Hhi2|]. rewrite speed_max_value. reflexivity.
Qed.

(** ** The sample engine stays within range *)

Lemma sample_tape_unit_interval (k : nat) : Num64.unit_interval (sample_tape k).
Proof.
  unfold sample_tape, Num64.unit_interval. split; [|split]; vm_compute; reflexivity.
Qed.

Lemma sample_trig_within (r : number) :
  within 1 (sample_cos r) /\ within 1 (sample_sin r).
Proof.
  unfold sample_cos, sample_sin.
  destruct (Num.eqb r _); [|destruct (Num.eqb r _)];
    (split; split; vm_compute; first [reflexivity | discriminate]).
Qed.

(** ** The rotation over many ticks *)

(** From the ranges of the random fields: during the first
    [2^50 - 128] ticks the rotation of a created particle stays below
    [8 + n / 16], hence below [2^46]. *)
Lemma created_rotation_bound (random_tape : nat -> number) (host : Host)
    (s : ParticleSystem) (i : nat) (p : Particle) (n : nat) :
  (forall k, Num64.unit_interval (random_tape k)) ->
  particles (final_state (createParticles random_tape host s)) !! i = Some p ->
  Z.of_nat n < 2 ^ 50 - 128 ->
  let r := Nat.iter n (fun r => (r + speed p)%js) (rotation p) in
  Num64.ok r = true /\ Num64.ok (speed p) = true /\
  Num.ltb r Num64.two_to_46 = true /\ Num.leb (Num.dec 1 100) (speed p) = true.
Proof.
  intros Htape Hp Hn.
  destruct (createParticles_fields random_tape host s) as (Hps & _).
  cbn zeta in Hps. rewrite Hps in Hp.
  assert (i < particle_count)%nat as Hi.
  { apply lookup_lt_Some in Hp. by rewrite pushed_length in Hp. }
  rewrite pushed_lookup in Hp by exact Hi. injection Hp as <-.
  cbn [rotation speed radius new_particle].
  destruct (random_fields_in_range _ _ _ (Htape (random_calls s + 3 * i)%nat)
              (Htape (S (random_calls s + 3 * i)))
              (Htape (S (S (random_calls s + 3 * i)))))
    as ((Hok1 & Hhi1) & (Hok2 & Hlo2 & Hhi2) & _).
  cbn zeta in *.
  set (r0 := (random_tape (random_calls s + 3 * i)%nat * Num.PI * Num.of_Z 2)%js) in *.
  set (sp := (random_tape (S (random_calls s + 3 * i)) * Num.dec 2 100
              + Num.dec 1 100)%js) in *.
  assert (Num64.V rotation_max <= Num64.rotation_bound 0) as Hmax
    by (vm_compute; discriminate).
  assert (Num64.V speed_max <= Num64.V (Num.dec 3 100)) as Hsmax
    by (rewrite speed_max_value; lia).
  destruct (Num64.rotation_bound_iter sp n r0 Hok1 Hok2) as [Hok Hle]; try lia.
  split; [exact Hok|]. split; [exact Hok2|]. split.
  - apply (Num64.ltb_V _ Num64.two_to_46 Hok eq_refl).
    eapply Z.le_lt_trans; [exact Hle|].
    replace (Num64.V Num64.two_to_46) with (2 ^ 50 * 2 ^ (-4 - -1074))
      by (vm_compute; reflexivity).
    unfold Num64.rotation_bound.
    apply Z.mul_lt_mono_pos_r; [apply Rounding.pow2_pos|]; lia.
  - apply (Num64.leb_V (Num.dec 1 100) sp eq_refl Hok2). exact Hlo2.
Qed.

(** Whatever a particle holds, as long as its rotation and speed are
    finite and not negative, some tick of the run does not increase its
    rotation. *)
Lemma rotation_eventually_stalls (Math_cos Math_sin : number -> number)
    (s : ParticleSystem) (i : nat) (p : Particle) :
  particles s !! i = Some p ->
  Num64.ok (rotation p) = true -> Num64.ok (speed p) = true ->
  exists n q q',
    particles (ticks Math_cos Math_sin n s) !! i = Some q /\
    particles (ticks Math_cos Math_sin (S n) s) !! i = Some q' /\
    Num.ltb (rotation q) (rotation q') = false.
Proof.
  intros Hp Hr Hs.
  destruct (Num64.eventually_stalls (speed p) Hs (rotation p)
              (Rounding.fin_nonneg_nonneg _ _ _ Hr)) as [n Hn].
  exists n. eexists; eexists.
  rewrite !ticks_particle, Hp. cbn [fmap option_fmap option_map].
  split; [reflexivity|]. split; [reflexivity|].
  rewrite !iter_advance. cbn [rotation]. exact Hn.
Qed.

(** So also in the run of the sample: some tick leaves the rotation of
    the first particle where it was. *)
Lemma created_sample_rotation_stalls :
  exists n q q',
    particles (ticks sample_cos sample_sin n created_sample) !! 0%nat = Some q /\
    particles (ticks sample_cos sample_sin (S n) created_sample) !! 0%nat = Some q' /\
    Num.ltb (rotation q) (rotation q') = false.
Proof.
  pose proof (created_sample_particle 0 ltac:(pose proof particle_count_large; lia)) as Hp.
  eapply rotation_eventually_stalls; [exact Hp | |]; vm_compute; reflexivity.
Qed.

Lemma ticks_succ_r (Math_cos Math_sin : number -> number) (n : nat) :
  forall s, ticks Math_cos Math_sin (S n) s
            = tick Math_cos Math_sin (ticks Math_cos Math_sin n s).
Proof.
  induction n as [|n IH]; intros s.
  - cbn [ticks]. by rewrite updateParticles_eq.
  - change (ticks Math_cos Math_sin (S (S n)) s)
      with (ticks Math_cos Math_sin (S n)
              (final_state (updateParticles Math_cos Math_sin s))).
    rewrite IH. reflexivity.
Qed.

Lemma ticks_lengths (Math_cos Math_sin : number -> number) (n : nat) :
  forall s, length (vertices (ticks Math_cos Math_sin n s)) = length (vertices s).
Proof.
  induction n as [|n IH]; intros s; [reflexivity|].
  cbn [ticks]. rewrite IH, updateParticles_eq. cbn [final_state].
  apply tick_lengths.
Qed.

(** * The rest of the code *)

(** ** The stand-alone script: what a frame does to the lines *)

Module Script.

Import Legacy.

Section Frame.

Variable Math_cos Math_sin : number -> number.

(** [targetArr[ii].rotate += targetArr[ii].rotate_speed]. *)
Definition turned (t : Target) : Target :=
  set_rotate t (rotate t + rotate_speed t)%js.

(** The point line [ii] is drawn to, on the circle of its target. *)
Definition target_point (target : Target) (ii : nat) : number * number :=
  let n := Num.of_nat ii in
  let tRad := (Math_cos (rotate target * Num.dec 2321 1000 + freq target * n)
               * bold_rate target)%js in
  ((x target + Math_cos (rotate target + step target * n) * tRad)%js,
   (y target + Math_sin (rotate target + step target * n) * tRad)%js).

(** [p += (t - p) * 0.1]. *)
Definition eased (p t : number) : number := (p + (t - p) * Num.dec 1 10)%js.

Lemma draw00_body_eq targets k vs target :
  targets !! ((2 * k) `mod` length targets)%nat = Some target ->
  draw00_body Math_cos Math_sin targets k vs
  = let px := eased (read vs (6 * k + 3)) (fst (target_point target (2 * k))) in
    let py := eased (read vs (6 * k + 4)) (snd (target_point target (2 * k))) in
    Some (<[(6 * k + 1)%nat := Num.fround (py - Num.dec 1 1000)%js]>
          (<[(6 * k)%nat := Num.fround (px - Num.dec 1 1000)%js]>
           (<[(6 * k + 4)%nat := Num.fround py]>
            (<[(6 * k + 3)%nat := Num.fround px]> vs)))).
Proof.
  intros Ht. unfold draw00_body. rewrite Ht. cbn zeta.
  replace (2 * k * 3)%nat with (6 * k)%nat by lia. reflexivity.
Qed.

(** What the loop of [draw00] has done when it has run lines
    [from .. from + n - 1]. *)
Record lines_post (targets : list Target) (from n : nat) (vs vs' : list number)
    : Prop := {
  lp_length : length vs' = length vs;
  lp_line : forall k, (from <= k < from + n)%nat -> (6 * k + 4 < length vs)%nat ->
    exists target, targets !! ((2 * k) `mod` length targets)%nat = Some target /\
      let px := eased (read vs (6 * k + 3)) (fst (target_point target (2 * k))) in
      let py := eased (read vs (6 * k + 4)) (snd (target_point target (2 * k))) in
      vs' !! (6 * k)%nat = Some (Num.fround (px - Num.dec 1 1000)%js) /\
      vs' !! (6 * k + 1)%nat = Some (Num.fround (py - Num.dec 1 1000)%js) /\
      vs' !! (6 * k + 3)%nat = Some (Num.fround px) /\
      vs' !! (6 * k + 4)%nat = Some (Num.fround py);
  lp_z : forall j, (j `mod` 3 = 2)%nat -> vs' !! j = vs !! j;
  lp_before : forall j, (j < 6 * from)%nat -> vs' !! j = vs !! j;
  lp_after : forall j, (6 * (from + n) <= j)%nat -> vs' !! j = vs !! j }.

Lemma read_insert_ne (vs : list number) (i j : nat) (v : number) :
  i <> j -> read (<[i := v]> vs) j = read vs j.
Proof. intros H. unfold read. by rewrite list_lookup_insert_ne. Qed.

Lemma draw00_lines targets (n : nat) : forall from vs,
  targets <> [] ->
  exists vs', draw00_loop Math_cos Math_sin targets from n vs = Some vs' /\
    lines_post targets from n vs vs'.
Proof.
  induction n as [|n IH]; intros from vs Hne; cbn [draw00_loop].
  - exists vs. split; [reflexivity|]. constructor; try reflexivity. intros; lia.
  - destruct (lookup_lt_is_Some_2 targets ((2 * from) `mod` length targets)%nat)
      as [target Ht].
    { apply Nat.mod_upper_bound. destruct targets; [congruence | cbn; lia]. }
    rewrite (draw00_body_eq targets from vs target Ht). cbn zeta.
    set (px := eased (read vs (6 * from + 3)) _).
    set (py := eased (read vs (6 * from + 4)) _).
    set (vs1 := <[(6 * from + 1)%nat := _]> _).
    destruct (IH (S from) vs1 Hne) as (vs' & -> & [Hlen Hline Hz Hbefore Hafter]).
    exists vs'. split; [reflexivity|].
    assert (length vs1 = length vs) as Hlen1 by (unfold vs1; by rewrite !length_insert).
    assert (Hout : forall j, j <> (6 * from)%nat -> j <> (6 * from + 1)%nat ->
                     j <> (6 * from + 3)%nat -> j <> (6 * from + 4)%nat ->
                     vs1 !! j = vs !! j).
    { intros j H0 H1 H3 H4. unfold vs1. by rewrite !list_lookup_insert_ne by lia. }
    constructor.
    + congruence.
    + intros k Hk Hkl.
      destruct (decide (k = from)) as [->|Hkf].
      * exists target. split; [exact Ht|]. cbn zeta. fold px py.
        rewrite !Hbefore by lia. unfold vs1.
        split; [|split; [|split]].
        -- rewrite list_lookup_insert_ne by lia.
           apply list_lookup_insert_eq. rewrite !length_insert. lia.
        -- apply list_lookup_insert_eq. rewrite !length_insert. lia.
        -- rewrite !list_lookup_insert_ne by lia.
           apply list_lookup_insert_eq. lia.
        -- rewrite !list_lookup_insert_ne by lia.
           apply list_lookup_insert_eq. rewrite !length_insert. lia.
      * destruct (Hline k ltac:(lia) ltac:(lia)) as (t' & Ht' & H).
        exists t'. split; [exact Ht'|].
        unfold read in *. rewrite !Hout in H by lia. exact H.
    + intros j Hj. rewrite Hz by exact Hj. apply Hout; intros ->;
        [ replace (6 * from)%nat with (from * 2 * 3 + 0)%nat in Hj by lia
        | replace (6 * from + 1)%nat with (from * 2 * 3 + 1)%nat in Hj by lia
        | replace (6 * from + 3)%nat with ((from * 2 + 1) * 3 + 0)%nat in Hj by lia
        | replace (6 * from + 4)%nat with ((from * 2 + 1) * 3 + 1)%nat in Hj by lia ];
        rewrite Nat.add_comm, Nat.Div0.mod_add in Hj; cbn in Hj; lia.
    + intros j Hj. rewrite Hbefore by lia. apply Hout; lia.
    + intros j Hj. rewrite Hafter by lia. apply Hout; lia.
Qed.

Lemma trips_numLines : loop_trips_by_2 (numLines * Num.of_Z 2)%js = Z.to_nat 80000.
Proof.
  unfold loop_trips_by_2.
  replace (Num.to_Z (Num.ceil (numLines * Num.of_Z 2)%js)) with (Some 160000)
    by (vm_compute; reflexivity).
  reflexivity.
Qed.

Lemma draw00_eq (s : Scene) :
  draw00 Math_cos Math_sin s
  = match draw00_loop Math_cos Math_sin (turned <$> targetArr s) 0 (Z.to_nat 80000)
            (vertices s) with
    | Some vs => Some (mkScene vs (turned <$> targetArr s) (gl_trace s))
    | None => None
    end.
Proof. unfold draw00. rewrite trips_numLines. reflexivity. Qed.

End Frame.

(** *** The targets and the timer *)

Section Targets.

Variable random_tape : nat -> number.

(** [Math.random()] when [r] calls came before. *)
Definition random (r : nat) : number * nat := (random_tape r, S r).

(** [TargetImpl.update]. *)
Definition update (t : Target) (r : nat) : Target * nat :=
  let '(u1, r) := random r in
  let '(u2, r) := random r in
  let '(u3, r) := random r in
  let '(u4, r) := random r in
  let '(u5, r) := random r in
  (mkTarget (x t) (y t) (rotate t) (radius t) (bold_rate t)
     (u1 * Num.dec 2 100 + Num.dec 2 100)%js
     (u2 * Num.dec 8 10 + Num.dec 1 10)%js
     (u3 * Num.dec 2 10 + Num.dec 3 100)%js
     (u4 * Num.dec 2 10 + Num.dec 1 10)%js
     (u5 * Num.dec 2 10 + Num.dec 5 10)%js, r).

(** [new TargetImpl(rad)]: the field initialisers, [bold_rate], then
    [update]. *)
Definition TargetImpl (rad : number) (r : nat) : Target * nat :=
  update (mkTarget (Num.of_Z 0) (Num.of_Z 0) (Num.of_Z 0) (Num.of_Z 0) rad
            (Num.of_Z 0) (Num.of_Z 0) (Num.of_Z 0) (Num.of_Z 0) (Num.of_Z 0)) r.

(** [for (ii ...) targetArr[ii].update()]. *)
Fixpoint update_all (ts : list Target) (r : nat) : list Target * nat :=
  match ts with
  | [] => ([], r)
  | t :: ts =>
      let '(t', r) := update t r in
      let '(ts', r) := update_all ts r in
      (t' :: ts', r)
  end.

End Targets.

(** The globals of the script that its frames and its timer use, with
    what it has asked of the page. *)
Record State : Type := mkState {
  scene : Scene;
  random_calls : nat;
  frames_requested : nat;
  timeouts_set : nat }.

Inductive Result : Type :=
| Done (s : State)
| Threw (s : State).

Definition state_of (r : Result) : State :=
  match r with Done s | Threw s => s end.

Section Run.

Variable Math_cos Math_sin : number -> number.
Variable random_tape : nat -> number.

(** [animate]: the next frame is requested first, then the scene is
    drawn. *)
Definition animate (s : State) : Result :=
  let s := mkState (scene s) (random_calls s) (S (frames_requested s)) (timeouts_set s) in
  match drawScene Math_cos Math_sin (scene s) with
  | Some sc => Done (mkState sc (random_calls s) (frames_requested s) (timeouts_set s))
  | None => Threw s
  end.

(** [timer]: every target is updated, and the timer set again. *)
Definition timer (s : State) : State :=
  let '(ts, r) := update_all random_tape (targetArr (scene s)) (random_calls s) in
  mkState (mkScene (vertices (scene s)) ts (gl_trace (scene s))) r
    (frames_requested s) (S (timeouts_set s)).

End Run.

End Script.


Lemma draw00_loop_empty (Math_cos Math_sin : number -> number) (from n : nat)
    (vs : list number) :
  Legacy.draw00_loop Math_cos Math_sin [] from (S n) vs = None.
Proof. reflexivity. Qed.

(** A number between two numbers, as [<=] compares them. *)
Definition between (lo hi v : number) : Prop :=
  Num.leb lo v = true /\ Num.leb v hi = true.

Lemma affine_between (u a b lo hi : number) :
  Num64.unit_interval u -> Num64.ok a = true -> Num64.ok b = true ->
  Num64.ok (Num64.below_one * a)%js = true ->
  Num64.ok (Num64.below_one * a + b)%js = true ->
  Num64.ok lo = true -> Num64.ok hi = true ->
  Num64.V lo <= Num64.V (S754_zero false * a + b)%js ->
  Num64.V (Num64.below_one * a + b)%js <= Num64.V hi ->
  between lo hi (u * a + b)%js.
Proof.
  intros Hu Ha Hb H1 H2 Hlo Hhi Hl Hh.
  destruct (affine_range u a b Hu Ha Hb H1 H2) as (Hok & Hmin & Hmax).
  split; apply Num64.leb_V; try assumption; lia.
Qed.


(** A scene with one target, for the examples. *)
Definition one_target : Script.State :=
  Script.mkState
    (Legacy.mkScene (replicate 12 (Num.of_Z 0))
       [fst (Script.TargetImpl sample_tape (Num.dec 1 10) 0)] [])
    5 0 0.

(** *** The runs of the script *)

Section ScriptRuns.

Variable Math_cos Math_sin : number -> number.
Variable random_tape : nat -> number.

(** The states the script goes through from [s0]: frames and timer
    calls, in any order. *)
Inductive runs (s0 : Script.State) : Script.State -> Prop :=
| runs_start : runs s0 s0
| runs_frame s :
    runs s0 s -> runs s0 (Script.state_of (Script.animate Math_cos Math_sin s))
| runs_timer s :
    runs s0 s -> runs s0 (Script.timer random_tape s).

(** What a frame and a timer call keep of a state. *)
Record kept (s0 s : Script.State) : Prop := {
  kept_length :
    length (Legacy.vertices (Script.scene s)) = length (Legacy.vertices (Script.scene s0));
  kept_z : forall j, (j `mod` 3 = 2)%nat ->
    Legacy.vertices (Script.scene s) !! j = Legacy.vertices (Script.scene s0) !! j;
  kept_targets :
    length (Legacy.targetArr (Script.scene s)) = length (Legacy.targetArr (Script.scene s0));
  kept_fields : forall i t0, Legacy.targetArr (Script.scene s0) !! i = Some t0 ->
    exists t, Legacy.targetArr (Script.scene s) !! i = Some t /\
      Legacy.x t = Legacy.x t0 /\ Legacy.y t = Legacy.y t0 /\
      Legacy.radius t = Legacy.radius t0 /\ Legacy.bold_rate t = Legacy.bold_rate t0 }.

Lemma kept_refl s : kept s s.
Proof. constructor; try reflexivity. intros i t0 H. exists t0. by repeat split. Qed.

Lemma kept_trans s0 s1 s2 : kept s0 s1 -> kept s1 s2 -> kept s0 s2.
Proof.
  intros [L1 Z1 T1 F1] [L2 Z2 T2 F2]. constructor.
  - congruence.
  - intros j Hj. rewrite Z2, Z1 by exact Hj. reflexivity.
  - congruence.
  - intros i t0 H0. destruct (F1 i t0 H0) as (t1 & Ht1 & ? & ? & ? & ?).
    destruct (F2 i t1 Ht1) as (t2 & Ht2 & ? & ? & ? & ?).
    exists t2. repeat split; congruence.
Qed.

Lemma update_all_lookup (ts : list Legacy.Target) : forall (r : nat),
  length (fst (Script.update_all random_tape ts r)) = length ts /\
  snd (Script.update_all random_tape ts r) = (r + 5 * length ts)%nat /\
  forall i t0, ts !! i = Some t0 ->
    fst (Script.update_all random_tape ts r) !! i
    = Some (fst (Script.update random_tape t0 (r + 5 * i))).
Proof.
  induction ts as [|t ts IH]; intros r; cbn [Script.update_all].
  - repeat split; cbn; try lia. intros i t0 H. discriminate.
  - destruct (Script.update random_tape t r) as [t' r1] eqn:Hu.
    assert (r1 = (r + 5)%nat) as -> by (injection Hu as _ <-; lia).
    destruct (IH (r + 5)%nat) as (Hlen & Hr & Hl).
    destruct (Script.update_all random_tape ts (r + 5)) as [ts' r2].
    cbn [fst snd length] in *. split; [lia|]. split; [lia|].
    intros [|i] t0 H; cbn in H.
    + injection H as <-. rewrite Nat.mul_0_r, Nat.add_0_r, Hu. reflexivity.
    + change (ts' !! i = Some (fst (Script.update random_tape t0 (r + 5 * S i)))).
      rewrite (Hl i t0 H). do 3 f_equal. lia.
Qed.

Lemma timer_kept s : kept s (Script.timer random_tape s).
Proof.
  unfold Script.timer.
  destruct (update_all_lookup (Legacy.targetArr (Script.scene s)) (Script.random_calls s))
    as (Hlen & _ & Hl).
  destruct (Script.update_all random_tape _ _) as [ts r]. cbn [fst] in *.
  constructor; cbn [Script.scene Legacy.vertices Legacy.targetArr]; try reflexivity.
  - exact Hlen.
  - intros i t0 H0. rewrite (Hl i t0 H0). eexists. split; [reflexivity|].
    by repeat split.
Qed.

Lemma animate_kept s :
  Legacy.targetArr (Script.scene s) <> [] ->
  exists s', Script.animate Math_cos Math_sin s = Script.Done s' /\ kept s s' /\
    Script.frames_requested s' = S (Script.frames_requested s) /\
    Script.random_calls s' = Script.random_calls s /\
    Script.timeouts_set s' = Script.timeouts_set s.
Proof.
  intros Hne.
  assert (Script.turned <$> Legacy.targetArr (Script.scene s) <> []) as Hne'
    by (destruct (Legacy.targetArr (Script.scene s)); [congruence | discriminate]).
  unfold Script.animate, Legacy.drawScene, Legacy.draw. cbn [Script.scene].
  rewrite Script.draw00_eq.
  destruct (Script.draw00_lines Math_cos Math_sin _ (Z.to_nat 80000) 0
              (Legacy.vertices (Script.scene s)) Hne')
    as (vs & -> & [Hlen _ Hz _ _]).
  eexists. split; [reflexivity|]. split; [|by repeat split].
  unfold Legacy.gl. constructor; cbn [Script.scene Legacy.vertices Legacy.targetArr];
    try assumption.
  - by rewrite length_fmap.
  - intros i t0 H0. rewrite list_lookup_fmap, H0. eexists. split; [reflexivity|].
    by repeat split.
Qed.

Lemma setup00_vertices_z (k : nat) :
  (k < 2 * Z.to_nat 80000)%nat ->
  Legacy.setup00_vertices !! (3 * k + 2)%nat = Some (Num.fround (Num.dec 183 100)).
Proof.
  unfold Legacy.setup00_vertices, Legacy.numLines. rewrite loop_trips_80000.
  unfold particle_count. generalize (Z.to_nat 80000). intros n.
  rewrite list_lookup_fmap.
  assert (forall from m j, (j < 2 * m)%nat ->
            mjoin ((fun _ : nat =>
                      [ Num.of_Z 0; Num.of_Z 0; Num.dec 183 100;
                        Num.of_Z 0; Num.of_Z 0; Num.dec 183 100 ]) <$> seq from m)
              !! (3 * j + 2)%nat = Some (Num.dec 183 100)) as H.
  { intros from m. revert from. induction m as [|m IH]; intros from j Hj; [lia|].
    cbn [seq fmap list_fmap mjoin list_join].
    destruct j as [|[|j]]; [reflexivity | reflexivity |].
    replace (3 * S (S j) + 2)%nat with (6 + (3 * j + 2))%nat by lia.
    cbn [app lookup list_lookup plus]. apply IH. lia. }
  intros Hk. rewrite (H 0%nat n k Hk). reflexivity.
Qed.

End ScriptRuns.


(** ** The class: construction, frames and reinitialisation *)


Section ClassRuns.

Variable Math_cos Math_sin : number -> number.
Variable random_tape : nat -> number.
Variable host : Host.

(** [n] frames in a row. *)
Fixpoint frames (n : nat) (s : ParticleSystem) : ParticleSystem :=
  match n with
  | O => s
  | S k => frames k (final_state (animate Math_cos Math_sin s))
  end.

Lemma issued_trace (c : GLcall) (s : ParticleSystem) :
  gl_trace (issued c s) = gl_trace s ++ [c].
Proof. reflexivity. Qed.

Lemma frame_fields (s : ParticleSystem) :
  let s' := frame Math_cos Math_sin s in
  gl_trace s' = gl_trace s ++ [ gl_clear; gl_bufferData (vertices s');
                                gl_drawArrays_LINES (Num.of_Z 0)
                                  (numParticles s * Num.of_Z 2)%js;
                                gl_flush ] /\
  numParticles s' = numParticles s /\
  random_calls s' = random_calls s /\
  frames_requested s' = S (frames_requested s) /\
  length (particles s') = length (particles s) /\
  length (vertices s') = length (vertices s) /\
  forall i, particles s' !! i = advance <$> particles s !! i.
Proof.
  cbn zeta.
  destruct (after_loop_post Math_cos Math_sin (issued gl_clear s))
    as [Hlp Hlv _ _ _ _ Hnum Htr Hrnd Hfr].
  pose proof (fun i => tick_particle Math_cos Math_sin (issued gl_clear s) i) as Hp.
  unfold frame, frame_drawn, tick, issued in *.
  cbn [particles vertices numParticles gl_trace random_calls frames_requested] in *.
  rewrite Htr, Hnum, Hrnd, Hfr, <- !app_assoc.
  repeat split; try assumption. 
Qed.

Lemma frames_succ_r (n : nat) : forall s,
  frames (S n) s = frame Math_cos Math_sin (frames n s).
Proof.
  induction n as [|n IH]; intros s.
  - cbn [frames]. by rewrite animate_eq.
  - change (frames (S (S n)) s)
      with (frames (S n) (final_state (animate Math_cos Math_sin s))).
    rewrite IH. reflexivity.
Qed.

Lemma frames_particle (n : nat) : forall (s : ParticleSystem) (i : nat),
  particles (frames n s) !! i = Nat.iter n advance <$> particles s !! i.
Proof.
  induction n as [|n IH]; intros s i.
  - cbn. by destruct (particles s !! i).
  - rewrite frames_succ_r.
    destruct (frame_fields (frames n s)) as (_ & _ & _ & _ & _ & _ & Hp).
    cbn zeta in Hp. rewrite Hp, IH. by destruct (particles s !! i).
Qed.

Lemma issued_random_calls (c : GLcall) (s : ParticleSystem) :
  random_calls (issued c s) = random_calls s.
Proof. reflexivity. Qed.


Lemma frames_fields (n : nat) (s : ParticleSystem) :
  numParticles (frames n s) = numParticles s /\
  random_calls (frames n s) = random_calls s /\
  frames_requested (frames n s) = (frames_requested s + n)%nat /\
  length (gl_trace (frames n s)) = (length (gl_trace s) + 4 * n)%nat /\
  length (List.filter is_drawArrays (gl_trace (frames n s)))
  = (length (List.filter is_drawArrays (gl_trace s)) + n)%nat.
Proof.
  induction n as [|n IH].
  - cbn [frames]. repeat split; lia.
  - rewrite frames_succ_r.
    destruct IH as (Hnum & Hrnd & Hfr & Hlen & Hdraw).
    destruct (frame_fields (frames n s)) as (Htr & Hnum' & Hrnd' & Hfr' & _).
    cbn zeta in *.
    rewrite Hnum', Hrnd', Hfr', Htr.
    rewrite length_app, List.filter_app, length_app. cbn [length List.filter is_drawArrays].
    repeat split; first [assumption | lia].
Qed.













End ClassRuns.

(** ** What every state of the object keeps *)

(** The anchor of particle [i] on the grid. *)
Definition anchor_x (i : nat) : number :=
  (Num.of_nat i mod gridWidth * cellSize - Num.of_Z 1)%js.
Definition anchor_y (i : nat) : number :=
  (Num.floor (Num.of_nat i / gridWidth) * cellSize - Num.of_Z 1)%js.

(** Particle [i] as [createParticles] places it, whatever its rotation
    has become: at its anchor, with a speed and a radius in the ranges
    of their initialisers. *)
Record placed (i : nat) (p : Particle) : Prop := {
  placed_x : position_x p = anchor_x i;
  placed_y : position_y p = anchor_y i;
  placed_speed :
    Num.is_finite (speed p) = true /\
    (1 # 100 <= Num.toQ (speed p))%Q /\ (Num.toQ (speed p) < 3 # 100)%Q;
  placed_radius :
    Num.is_finite (radius p) = true /\
    (5 # 100 <= Num.toQ (radius p))%Q /\ (Num.toQ (radius p) < 15 # 100)%Q }.

Section Placed.

Variable Math_cos Math_sin : number -> number.
Variable random_tape : nat -> number.
Variable host : Host.

Hypothesis tape_unit_interval : forall k, Num64.unit_interval (random_tape k).

Lemma new_particle_placed (i r : nat) :
  placed i (new_particle random_tape gridWidth cellSize i r).
Proof.
  destruct (random_fields_in_range _ _ _ (tape_unit_interval r)
              (tape_unit_interval (S r)) (tape_unit_interval (S (S r))))
    as (_ & (Hok2 & Hlo2 & Hhi2) & (Hok3 & Hlo3 & Hhi3)).
  cbn zeta in *.
  assert (Hfin : forall x, Num64.ok x = true -> Num.is_finite x = true).
  { intros [|[|]| |[|] ? ?]; cbn; congruence. }
  constructor; cbn [position_x position_y speed radius new_particle];
    try reflexivity.
  - split; [by apply Hfin|]. split.
    + eapply Qle_trans; [|apply Num64.toQ_le; [ | exact Hok2 | exact Hlo2]];
        [vm_compute; discriminate | reflexivity].
    + eapply Qle_lt_trans; [apply Num64.toQ_le; [exact Hok2 | | exact Hhi2]|];
        vm_compute; reflexivity.
  - split; [by apply Hfin|]. split.
    + eapply Qle_trans; [|apply Num64.toQ_le; [ | exact Hok3 | exact Hlo3]];
        [vm_compute; discriminate | reflexivity].
    + eapply Qle_lt_trans; [apply Num64.toQ_le; [exact Hok3 | | exact Hhi3]|];
        vm_compute; reflexivity.
Qed.

Lemma advance_placed (i : nat) (p : Particle) : placed i p -> placed i (advance p).
Proof. intros [Hx Hy Hs Hr]. constructor; assumption. Qed.

(** All particles placed. *)
Definition all_placed (s : ParticleSystem) : Prop :=
  length (particles s) = particle_count /\
  forall i, (i < particle_count)%nat ->
    exists p, particles s !! i = Some p /\ placed i p.

Lemma createParticles_placed (s : ParticleSystem) :
  all_placed (final_state (createParticles random_tape host s)).
Proof.
  destruct (createParticles_fields random_tape host s) as (Hps & _).
  cbn zeta in Hps. unfold all_placed. rewrite Hps.
  split; [apply pushed_length|].
  intros i Hi. eexists. split; [apply pushed_lookup; exact Hi|].
  apply new_particle_placed.
Qed.

Lemma frame_placed (s : ParticleSystem) :
  all_placed s -> all_placed (frame Math_cos Math_sin s).
Proof.
  intros [Hlen Hall].
  destruct (frame_fields Math_cos Math_sin s) as (_ & _ & _ & _ & Hl & _ & Hp).
  cbn zeta in *. split; [congruence|].
  intros i Hi. destruct (Hall i Hi) as (p & Hpi & Hpl).
  exists (advance p). split; [rewrite Hp, Hpi; reflexivity|].
  by apply advance_placed.
Qed.

Lemma reachable_all_placed (s : ParticleSystem) :
  reachable Math_cos Math_sin random_tape host s -> all_placed s.
Proof.
  induction 1 as [canvasId s0 s Hc | s _ IH | count s _ _].
  - unfold constructor in Hc.
    apply bind_returns in Hc as ([] & s1 & _ & H).
    apply bind_returns in H as ([] & s2 & _ & H).
    apply bind_returns in H as ([] & s3 & _ & H).
    apply bind_returns in H as ([] & s4 & _ & H).
    apply bind_returns in H as ([] & s5 & Hc & H).
    rewrite animate_eq in H. injection H as <-.
    apply frame_placed.
    pose proof (createParticles_placed s4) as Hpl.
    rewrite Hc in Hpl. exact Hpl.
  - rewrite animate_eq. cbn [final_state]. by apply frame_placed.
  - rewrite setParticleCount_eq. apply createParticles_placed.
Qed.

End Placed.


(** ** The page: the listeners of [window] and the objects of the driver

    [initWebGL] registers an arrow function for the [resize] event and
    [cleanup] asks to remove one.  Every evaluation of an arrow
    function makes a new function object, and a listener is removed
    only through the object that was registered; so functions are told
    apart here by the order of their creation. *)

Module Page.

(** The program and the buffer of the object, for [deleteProgram] and
    [deleteBuffer]. *)
Inductive GLobject : Type := the_program | the_vertexBuffer.

(** The object with what the page holds around it: the functions
    registered for [resize] (oldest first), the number of functions
    created so far, the objects of the driver deleted so far and the
    messages written by [console.error]. *)
Record State : Type := mkState {
  system : ParticleSystem;
  resize_listeners : list nat;
  functions_created : nat;
  deleted : list GLobject;
  console_errors : list string }.

(** How a piece of code ends on the page. *)
Inductive Ended : Type :=
| Completed (p : State)
| Raised (msg : string) (p : State).

Definition and_then (e : Ended) (k : State -> Ended) : Ended :=
  match e with
  | Completed p => k p
  | Raised msg p => Raised msg p
  end.

Definition ended_state (e : Ended) : State :=
  match e with Completed p => p | Raised _ p => p end.

Definition with_system (p : State) (s : ParticleSystem) : State :=
  mkState s (resize_listeners p) (functions_created p) (deleted p) (console_errors p).

(** A method of the object, run on the page. *)
Definition run (m : M unit) (p : State) : Ended :=
  match m (system p) with
  | Returns _ s => Completed (with_system p s)
  | Throws msg s => Raised msg (with_system p s)
  end.

(** [() => this.resize()]: a new function. *)
Definition arrow_function (p : State) : nat * State :=
  (functions_created p,
   mkState (system p) (resize_listeners p) (S (functions_created p)) (deleted p)
     (console_errors p)).

(** [window.addEventListener('resize', f)]: a function already
    registered is not registered again. *)
Definition addEventListener (f : nat) (p : State) : State :=
  if bool_decide (f ∈ resize_listeners p) then p
  else mkState (system p) (resize_listeners p ++ [f]) (functions_created p) (deleted p)
         (console_errors p).

(** [window.removeEventListener('resize', f)]. *)
Definition removeEventListener (f : nat) (p : State) : State :=
  mkState (system p) (List.filter (fun g => negb (Nat.eqb g f)) (resize_listeners p))
    (functions_created p) (deleted p) (console_errors p).

Definition gl_delete (o : GLobject) (p : State) : State :=
  mkState (system p) (resize_listeners p) (functions_created p) (deleted p ++ [o])
    (console_errors p).


Section Engine.

Variable Math_cos Math_sin : number -> number.
Variable random_tape : nat -> number.
Variable host : Host.

Definition initWebGL (p : State) : Ended :=
  and_then (run (if getContext host "webgl" || getContext host "experimental-webgl"
                 then mret tt else throw "WebGL not supported") p) (fun p =>
  and_then (run resize p) (fun p =>
  let '(f, p) := arrow_function p in
  let p := addEventListener f p in
  run (gl gl_enable_BLEND ;; gl gl_disable_DEPTH_TEST ;; gl gl_blendFunc ;;
       gl gl_clearColor) p)).

Definition constructor (canvasId : string) (p : State) : Ended :=
  and_then (run (if getElementById host canvasId then mret tt
                 else throw ("Canvas element with id '" ++ canvasId ++ "' not found")%string)
              p) (fun p =>
  and_then (initWebGL p) (fun p =>
  and_then (run (initShaders host) p) (fun p =>
  and_then (run (setupScene host) p) (fun p =>
  and_then (run (createParticles random_tape host) p) (fun p =>
  run (animate Math_cos Math_sin) p))))).

(** [cleanup]. *)
Definition cleanup (p : State) : State :=
  let '(f, p) := arrow_function p in
  let p := removeEventListener f p in
  let p := gl_delete the_program p in
  gl_delete the_vertexBuffer p.


(** The event [resize]: every listener calls [resize] on the object. *)
Definition on_resize (p : State) : State :=
  foldl (fun p _ => ended_state (run resize p)) p (resize_listeners p).

(** The callback of [requestAnimationFrame]. *)
Definition on_frame (p : State) : State :=
  ended_state (run (animate Math_cos Math_sin) p).

End Engine.

(** Every listener is a function that exists. *)
Definition listeners_exist (p : State) : Prop :=
  Forall (fun f => (f < functions_created p)%nat) (resize_listeners p).

End Page.

Section PageRuns.

Variable Math_cos Math_sin : number -> number.
Variable random_tape : nat -> number.
Variable host : Host.

Lemma filter_other_listeners (f : nat) (l : list nat) :
  Forall (fun g => (g < f)%nat) l ->
  List.filter (fun g => negb (Nat.eqb g f)) l = l.
Proof.
  induction 1 as [|g l Hg _ IH]; [reflexivity|].
  cbn [List.filter]. destruct (Nat.eqb_spec g f) as [->|_]; [lia|].
  cbn [negb]. by rewrite IH.
Qed.

Lemma resize_calls (l : list nat) : forall p : Page.State,
  let p' := foldl (fun p _ => Page.ended_state (Page.run resize p)) p l in
  gl_trace (Page.system p')
  = gl_trace (Page.system p) ++ replicate (length l) gl_viewport /\
  Page.resize_listeners p' = Page.resize_listeners p.
Proof.
  induction l as [|f l IH]; intros p; cbn zeta.
  - cbn. by rewrite app_nil_r.
  - cbn [foldl length replicate].
    destruct (IH (Page.ended_state (Page.run resize p))) as [-> ->].
    split; [|reflexivity].
    cbn. rewrite <- app_assoc. reflexivity.
Qed.

Lemma on_resize_trace (p : Page.State) :
  gl_trace (Page.system (Page.on_resize p))
  = gl_trace (Page.system p) ++ replicate (length (Page.resize_listeners p)) gl_viewport /\
  Page.resize_listeners (Page.on_resize p) = Page.resize_listeners p.
Proof. apply resize_calls. Qed.



End PageRuns.


(** ** The statements of the specification *)

(** C1. One tick, for the particle in slot [i]: the rotation is first
    increased by the speed; then [cos] and [sin] are the cosine and sine
    of the new rotation times the radius; and the six slots of the
    particle receive [position.x + cos], [position.y + sin], [0],
    [position.x - cos], [position.y - sin], [0] (each stored as the
    buffer stores it, converted to binary32). *)
Theorem C1_tick_writes_endpoints (Math_cos Math_sin : number -> number)
    (s : ParticleSystem) (i : nat) (p : Particle) :
  particles s !! i = Some p ->
  (i * 6 + 5 < length (vertices s))%nat ->
  exists s', updateParticles Math_cos Math_sin s = Returns tt s' /\
    let rotation' := (rotation p + speed p)%js in
    let cos := (Math_cos rotation' * radius p)%js in
    let sin := (Math_sin rotation' * radius p)%js in
    particles s' !! i
      = Some (mkParticle (position_x p) (position_y p) rotation' (speed p) (radius p)) /\
    vertices s' !! (i * 6)%nat = Some (Num.fround (position_x p + cos)%js) /\
    vertices s' !! (i * 6 + 1)%nat = Some (Num.fround (position_y p + sin)%js) /\
    vertices s' !! (i * 6 + 2)%nat = Some (S754_zero false) /\
    vertices s' !! (i * 6 + 3)%nat = Some (Num.fround (position_x p - cos)%js) /\
    vertices s' !! (i * 6 + 4)%nat = Some (Num.fround (position_y p - sin)%js) /\
    vertices s' !! (i * 6 + 5)%nat = Some (S754_zero false).
Proof.
  intros Hp Hlen.
  exists (tick Math_cos Math_sin s). split; [apply updateParticles_eq|].
  destruct (after_loop_post Math_cos Math_sin s) as [_ _ Hpin _ Hvin _ _ _ _ _].
  assert (i < length (particles s))%nat as Hi by (eapply lookup_lt_Some; eauto).
  cbn zeta. unfold tick, issued. cbn [particles vertices].
  split.
  { rewrite Hpin by lia. rewrite Hp. reflexivity. }
  pose proof (fun c Hc Hv => Hvin i c p (conj (Nat.le_0_l i) Hi) Hc Hp Hv) as Hv.
  rewrite <- (Nat.add_0_r (i * 6)) at 1.
  rewrite !Hv by lia.
  repeat split; reflexivity.
Qed.

Lemma C1_witness :
  particles two_particles !! 1%nat
    = Some (new_particle sample_tape gridWidth cellSize 1 3) /\
  (1 * 6 + 5 < length (vertices two_particles))%nat /\
  exists s', updateParticles sample_cos sample_sin two_particles = Returns tt s' /\
    particles s' !! 1%nat
      = Some (mkParticle (S754_finite true 8943544136332928 (-53))
                (S754_finite true 4503599627370496 (-52))
                (S754_finite false 7141791746438997 (-52))
                (S754_finite false 8646911284551352 (-59))
                (S754_finite false 5404319552844596 (-56))) /\
    vertices s' !! 6%nat = Some (S754_finite true 8953676982910976 (-53)) /\
    vertices s' !! 7%nat = Some (S754_finite true 8331735116808192 (-53)) /\
    vertices s' !! 8%nat = Some (S754_zero false) /\
    vertices s' !! 9%nat = Some (S754_finite true 8933411179724800 (-53)) /\
    vertices s' !! 10%nat = Some (S754_finite true 4841331696336896 (-52)) /\
    vertices s' !! 11%nat = Some (S754_zero false).
Proof.
  assert (H1 : particles two_particles !! 1%nat
               = Some (new_particle sample_tape gridWidth cellSize 1 3)) by reflexivity.
  assert (H2 : (1 * 6 + 5 < length (vertices two_particles))%nat) by (vm_compute; lia).
  split; [exact H1|]. split; [exact H2|].
  destruct (C1_tick_writes_endpoints sample_cos sample_sin two_particles 1 _ H1 H2)
    as (s' & Hrun & Hp & H6 & H7 & H8 & H9 & H10 & H11).
  exists s'. split; [exact Hrun|].
  repeat split;
    [ etrans; [exact Hp|] | etrans; [exact H6|] | etrans; [exact H7|]
    | etrans; [exact H8|] | etrans; [exact H9|] | etrans; [exact H10|]
    | etrans; [exact H11|] ];
    vm_compute; reflexivity.
Defined.

(** C2 (as the code has it). After [n] ticks the rotation of a particle
    is its initial rotation to which the speed has been added [n] times,
    each sum rounded to binary64; the speed is the initial one.  The
    result is [rotation + n * speed] up to these roundings: from a
    rotation of at most 8 and a speed of at most 0.03 (as
    [createParticles] gives them), and while [8 + n / 16] is at most
    [2^K], it is at most [n * 2^(K - 54)] away. *)
Theorem C2_rotation_after_ticks (Math_cos Math_sin : number -> number) (n : nat)
    (s : ParticleSystem) (i : nat) (p : Particle) :
  particles s !! i = Some p ->
  exists q, particles (ticks Math_cos Math_sin n s) !! i = Some q /\
    rotation q = Nat.iter n (fun r => (r + speed p)%js) (rotation p) /\
    speed q = speed p /\
    forall K : Z,
      Num64.ok (rotation p) = true -> Num64.ok (speed p) = true ->
      Num.leb (rotation p) (Num.of_Z 8) = true ->
      Num.leb (speed p) (Num.dec 3 100) = true ->
      4 <= K <= 48 -> Z.of_nat n + 128 <= 2 ^ (K + 4) ->
      (Qabs (Num.toQ (rotation q)
             - (Num.toQ (rotation p) + inject_Z (Z.of_nat n) * Num.toQ (speed p)))
       <= inject_Z (Z.of_nat n) * 2 ^ (K - 54))%Q.
Proof.
  intros Hp. eexists. split.
  - rewrite ticks_particle, Hp. reflexivity.
  - rewrite iter_advance. cbn [rotation speed].
    split; [reflexivity|]. split; [reflexivity|].
    intros K Hr Hs Hr8 Hs3 HK Hn.
    apply Signed64.iter_add_error; try assumption.
    + apply (Num64.leb_V _ (Num.of_Z 8) Hr eq_refl) in Hr8.
      etrans; [exact Hr8|]. vm_compute. discriminate.
    + by apply (Num64.leb_V _ (Num.dec 3 100) Hs eq_refl).
Qed.

Lemma C2_witness :
  let p := new_particle sample_tape gridWidth cellSize 0 (3 * 0) in
  particles created_sample !! 0%nat = Some p /\
  Num64.ok (rotation p) = true /\ Num64.ok (speed p) = true /\
  Num.leb (rotation p) (Num.of_Z 8) = true /\
  Num.leb (speed p) (Num.dec 3 100) = true /\
  exists q, particles (ticks sample_cos sample_sin 2 created_sample) !! 0%nat = Some q /\
    rotation q = S754_finite false 7209345740849554 (-52) /\
    speed q = S754_finite false 8646911284551352 (-59) /\
    (Qabs (Num.toQ (rotation q)
           - (Num.toQ (rotation p) + inject_Z (Z.of_nat 2) * Num.toQ (speed p)))
     <= inject_Z (Z.of_nat 2) * 2 ^ (4 - 54))%Q.
Proof.
  intros p.
  pose proof (created_sample_particle 0 ltac:(pose proof particle_count_large; lia)) as H.
  assert (H1 : Num64.ok (rotation p) = true) by (vm_compute; reflexivity).
  assert (H2 : Num64.ok (speed p) = true) by (vm_compute; reflexivity).
  assert (H3 : Num.leb (rotation p) (Num.of_Z 8) = true) by (vm_compute; reflexivity).
  assert (H4 : Num.leb (speed p) (Num.dec 3 100) = true) by (vm_compute; reflexivity).
  split; [exact H|]. do 4 (split; [assumption|]).
  destruct (C2_rotation_after_ticks sample_cos sample_sin 2 created_sample 0 p H)
    as (q & Hq & Hrot & Hsp & Herr).
  exists q. split; [exact Hq|]. split; [|split].
  - etrans; [exact Hrot|]. vm_compute. reflexivity.
  - etrans; [exact Hsp|]. vm_compute. reflexivity.
  - apply (Herr 4 H1 H2 H3 H4); [lia | vm_compute; discriminate].
Defined.

(** C2 as stated fails: from the state [createParticles] leaves when
    [Math.random] returns 0.25, the first particle has rotation
    1.5707963267948966 and speed 0.015; after two ticks its rotation is
    1.6007963267948964, which is neither the number
    [rotation + 2 * speed = 1.6007963267948966] nor the exact sum. *)
Lemma C2_counterexample :
  exists p q, particles created_sample !! 0%nat = Some p /\
    particles (ticks sample_cos sample_sin 2 created_sample) !! 0%nat = Some q /\
    rotation q <> (rotation p + Num.of_Z 2 * speed p)%js /\
    ~ (Num.toQ (rotation q) == Num.toQ (rotation p) + 2 * Num.toQ (speed p))%Q.
Proof.
  pose proof (created_sample_particle 0 ltac:(pose proof particle_count_large; lia)) as Hp.
  eexists; eexists. split; [exact Hp|]. split.
  - rewrite ticks_particle, Hp. reflexivity.
  - split; vm_compute; discriminate.
Qed.

(** C3 (as the code has it). After a tick the two endpoints of a particle
    are its anchor displaced by the offset [(cos, sin)] and by the
    opposite offset, each coordinate rounded to binary64 and stored as
    binary32, with [z = 0]; the anchor itself is unchanged.  The
    midpoint of the stored endpoints is the anchor up to these
    roundings: for an anchor coordinate of magnitude at most 1 and an
    offset of magnitude at most 1/2 it is at most [2^-24 + 2^-53] away. *)
Theorem C3_endpoints_opposite_offsets (Math_cos Math_sin : number -> number)
    (s : ParticleSystem) (i : nat) (p : Particle) :
  particles s !! i = Some p ->
  (i * 6 + 5 < length (vertices s))%nat ->
  exists s' q ax ay bx by_,
    updateParticles Math_cos Math_sin s = Returns tt s' /\
    particles s' !! i = Some q /\
    position_x q = position_x p /\ position_y q = position_y p /\
    vertices s' !! (i * 6)%nat = Some ax /\
    vertices s' !! (i * 6 + 1)%nat = Some ay /\
    vertices s' !! (i * 6 + 2)%nat = Some (S754_zero false) /\
    vertices s' !! (i * 6 + 3)%nat = Some bx /\
    vertices s' !! (i * 6 + 4)%nat = Some by_ /\
    vertices s' !! (i * 6 + 5)%nat = Some (S754_zero false) /\
    let dx := (Math_cos (rotation q) * radius q)%js in
    let dy := (Math_sin (rotation q) * radius q)%js in
    ax = Num.fround (position_x q + dx)%js /\
    bx = Num.fround (position_x q + Num.opp dx)%js /\
    ay = Num.fround (position_y q + dy)%js /\
    by_ = Num.fround (position_y q + Num.opp dy)%js /\
    (within 1 (position_x q) -> within (1 # 2) dx ->
     (midpoint_gap (position_x q) ax bx <= store_error)%Q) /\
    (within 1 (position_y q) -> within (1 # 2) dy ->
     (midpoint_gap (position_y q) ay by_ <= store_error)%Q).
Proof.
  intros Hp Hlen.
  exists (tick Math_cos Math_sin s), (advance p).
  do 4 eexists.
  split; [apply updateParticles_eq|].
  split; [rewrite tick_particle, Hp; reflexivity|].
  split; [reflexivity|]. split; [reflexivity|].
  pose proof (fun c Hc Hv => tick_slot Math_cos Math_sin s i c p Hp Hc Hv) as Hv.
  rewrite <- (Nat.add_0_r (i * 6)) at 1.
  rewrite !Hv by lia.
  do 6 (split; [reflexivity|]).
  cbn zeta. rewrite <- !sub_is_add_opp.
  do 4 (split; [reflexivity|]).
  rewrite !sub_is_add_opp.
  split; apply midpoint_gap_bound.
Qed.

Lemma C3_witness :
  let p := new_particle sample_tape gridWidth cellSize 1 3 in
  let dx := (sample_cos (rotation (advance p)) * radius p)%js in
  particles two_particles !! 1%nat = Some p /\
  (1 * 6 + 5 < length (vertices two_particles))%nat /\
  within 1 (position_x p) /\ within (1 # 2) dx /\
  exists s' a b, updateParticles sample_cos sample_sin two_particles = Returns tt s' /\
    vertices s' !! 6%nat = Some a /\
    vertices s' !! 9%nat = Some b /\
    a = S754_finite true 8953676982910976 (-53) /\
    b = S754_finite true 8933411179724800 (-53) /\
    (midpoint_gap (position_x p) a b <= store_error)%Q.
Proof.
  intros p dx.
  assert (H1 : particles two_particles !! 1%nat = Some p) by reflexivity.
  assert (H2 : (1 * 6 + 5 < length (vertices two_particles))%nat) by (vm_compute; lia).
  assert (W1 : within 1 (position_x p)) by (split; vm_compute; [reflexivity|discriminate]).
  assert (W2 : within (1 # 2) dx) by (split; vm_compute; [reflexivity|discriminate]).
  split; [exact H1|]. split; [exact H2|]. split; [exact W1|]. split; [exact W2|].
  destruct (C3_endpoints_opposite_offsets sample_cos sample_sin two_particles 1 p H1 H2)
    as (s' & q & ax & ay & bx & by_ & Hrun & Hq & _ & _ & Ha & _ & _ & Hb & _ & _
        & Eax & Ebx & _ & _ & Gx & _).
  assert (q = advance p) as Hq'.
  { rewrite updateParticles_eq in Hrun. injection Hrun as <-.
    rewrite tick_particle, H1 in Hq. injection Hq as <-. reflexivity. }
  subst q.
  exists s', ax, bx. split; [exact Hrun|]. split; [exact Ha|]. split; [exact Hb|].
  split; [etrans; [exact Eax|]; vm_compute; reflexivity|].
  split; [etrans; [exact Ebx|]; vm_compute; reflexivity|].
  exact (Gx W1 W2).
Defined.

(** C3 as stated fails: for the second particle of the grid (anchor
    [x = -0.9929328621908127]) the two endpoints stored by the first tick
    are [-0.994057834148407] and [-0.9918078780174255]; their midpoint
    [-0.9929328560829163] is not the anchor. *)
Lemma C3_counterexample :
  exists p a b, particles created_sample !! 1%nat = Some p /\
    vertices (final_state (updateParticles sample_cos sample_sin created_sample)) !! 6%nat
      = Some a /\
    vertices (final_state (updateParticles sample_cos sample_sin created_sample)) !! 9%nat
      = Some b /\
    ~ ((Num.toQ a + Num.toQ b) / 2 == Num.toQ (position_x p))%Q /\
    ((a + b) / Num.of_Z 2)%js <> position_x p.
Proof.
  pose proof (created_sample_particle 1 ltac:(pose proof particle_count_large; lia)) as Hp.
  pose proof created_sample_buffer as Hlen. pose proof particle_count_large as Hn.
  eexists; eexists; eexists. split; [exact Hp|].
  rewrite updateParticles_eq. cbn [final_state].
  split; [|split].
  - etrans; [|reflexivity].
    exact (tick_slot sample_cos sample_sin created_sample 1 0 _ Hp ltac:(lia) ltac:(lia)).
  - etrans; [|reflexivity].
    exact (tick_slot sample_cos sample_sin created_sample 1 3 _ Hp ltac:(lia) ltac:(lia)).
  - split; vm_compute; discriminate.
Qed.

(** For the particles [createParticles] builds, when [Math.cos] and
    [Math.sin] return numbers of magnitude at most 1 on finite
    arguments: after each of the first [2^50 - 128] ticks, the midpoint
    of the stored endpoints is at most [2^-24 + 2^-53] from the anchor,
    in [x] and in [y]. *)
Theorem created_endpoints_near_anchor (Math_cos Math_sin : number -> number)
    (random_tape : nat -> number) (host : Host) (s0 : ParticleSystem)
    (i : nat) (p : Particle) (n : nat) :
  (forall k, Num64.unit_interval (random_tape k)) ->
  (forall r, Num64.ok r = true -> within 1 (Math_cos r) /\ within 1 (Math_sin r)) ->
  particles (final_state (createParticles random_tape host s0)) !! i = Some p ->
  Z.of_nat (S n) < 2 ^ 50 - 128 ->
  let s' := ticks Math_cos Math_sin (S n)
              (final_state (createParticles random_tape host s0)) in
  exists ax ay bx by_,
    vertices s' !! (i * 6)%nat = Some ax /\
    vertices s' !! (i * 6 + 1)%nat = Some ay /\
    vertices s' !! (i * 6 + 3)%nat = Some bx /\
    vertices s' !! (i * 6 + 4)%nat = Some by_ /\
    (midpoint_gap (position_x p) ax bx <= store_error)%Q /\
    (midpoint_gap (position_y p) ay by_ <= store_error)%Q.
Proof.
  intros Htape Htrig Hp Hn. cbn zeta.
  set (s := final_state (createParticles random_tape host s0)) in *.
  destruct (created_rotation_bound random_tape host s0 i p (S n) Htape Hp Hn)
    as (Hrot & _).
  destruct (createParticles_fields random_tape host s0) as (Hps & Hvs & _).
  cbn zeta in Hps, Hvs. fold s in Hps, Hvs.
  assert (i < particle_count)%nat as Hi.
  { apply lookup_lt_Some in Hp. by rewrite Hps, pushed_length in Hp. }
  (* the anchor and the radius of the particle *)
  assert (within 1 (position_x p) /\ within 1 (position_y p) /\
          Num64.ok (radius p) = true /\ Num64.V (radius p) <= 2 ^ 1073)
    as (Hx & Hy & Hrad & HRad).
  { rewrite Hps, pushed_lookup in Hp by exact Hi. injection Hp as <-.
    cbn [position_x position_y radius new_particle].
    destruct (anchor_within i Hi) as [Hax Hay].
    destruct (random_fields_in_range _ _ _ (Htape (random_calls s0 + 3 * i)%nat)
                (Htape (S (random_calls s0 + 3 * i)))
                (Htape (S (S (random_calls s0 + 3 * i)))))
      as (_ & _ & (Hok3 & _ & Hhi3)).
    cbn zeta in *. repeat split; try assumption; try apply Hax; try apply Hay.
    etrans; [exact Hhi3|]. vm_compute. discriminate. }
  rewrite ticks_succ_r.
  set (sn := ticks Math_cos Math_sin n s).
  assert (particles sn !! i = Some (Nat.iter n advance p)) as Hpn
    by (unfold sn; rewrite ticks_particle, Hp; reflexivity).
  assert (length (vertices sn) = (particle_count * 6)%nat) as Hlen.
  { unfold sn. rewrite ticks_lengths, Hvs. apply length_replicate. }
  pose proof (fun c Hc Hv => tick_slot Math_cos Math_sin sn i c _ Hpn Hc Hv) as Hv.
  do 4 eexists.
  rewrite <- (Nat.add_0_r (i * 6)) at 1.
  rewrite !Hv by lia.
  change (advance (Nat.iter n advance p)) with (Nat.iter (S n) advance p).
  rewrite iter_advance. unfold segment. cbn [rotation radius position_x position_y].
  do 4 (split; [reflexivity|]).
  cbn zeta in Hrot. destruct (Htrig _ Hrot) as [Hcos Hsin].
  rewrite !sub_is_add_opp.
  split; apply midpoint_gap_bound; try assumption; by apply offset_within.
Qed.

Lemma created_endpoints_near_anchor_sample :
  (forall k, Num64.unit_interval (sample_tape k)) /\
  (forall r, Num64.ok r = true -> within 1 (sample_cos r) /\ within 1 (sample_sin r)) /\
  particles created_sample !! 0%nat
    = Some (new_particle sample_tape gridWidth cellSize 0 (3 * 0)) /\
  Z.of_nat 1 < 2 ^ 50 - 128 /\
  let s' := ticks sample_cos sample_sin 1 created_sample in
  exists ax ay bx by_,
    vertices s' !! (0 * 6)%nat = Some ax /\
    vertices s' !! (0 * 6 + 1)%nat = Some ay /\
    vertices s' !! (0 * 6 + 3)%nat = Some bx /\
    vertices s' !! (0 * 6 + 4)%nat = Some by_ /\
    (midpoint_gap (position_x (new_particle sample_tape gridWidth cellSize 0 (3 * 0)))
       ax bx <= store_error)%Q /\
    (midpoint_gap (position_y (new_particle sample_tape gridWidth cellSize 0 (3 * 0)))
       ay by_ <= store_error)%Q.
Proof.
  pose proof (created_sample_particle 0 ltac:(pose proof particle_count_large; lia)) as Hp.
  assert (Hn : Z.of_nat 1 < 2 ^ 50 - 128) by (vm_compute; reflexivity).
  split; [exact sample_tape_unit_interval|].
  split; [intros r _; apply sample_trig_within|].
  split; [exact Hp|]. split; [exact Hn|].
  exact (created_endpoints_near_anchor sample_cos sample_sin sample_tape working_host blank
           0 _ 0 sample_tape_unit_interval (fun r _ => sample_trig_within r) Hp Hn).
Defined.

(** C4. In every state of a constructed object the buffer holds six
    numbers per particle; a tick keeps that from any state in which it
    holds, and [createParticles] and [setParticleCount] establish it from
    any state (whether or not the buffer object could be created). *)
Theorem C4_buffer_length_invariant (Math_cos Math_sin : number -> number)
    (random_tape : nat -> number) (host : Host) :
  (forall s, reachable Math_cos Math_sin random_tape host s ->
     length (vertices s) = (length (particles s) * 6)%nat) /\
  (forall s, length (vertices s) = (length (particles s) * 6)%nat ->
     exists s', updateParticles Math_cos Math_sin s = Returns tt s' /\
       length (particles s') = length (particles s) /\
       length (vertices s') = (length (particles s') * 6)%nat) /\
  (forall s count,
     let s' := final_state (setParticleCount random_tape host count s) in
     length (vertices s') = (length (particles s') * 6)%nat) /\
  (forall s,
     let s' := final_state (createParticles random_tape host s) in
     length (vertices s') = (length (particles s') * 6)%nat).
Proof.
  repeat split.
  - intros s Hs. apply (reachable_well_formed _ _ _ _ _ Hs).
  - intros s Hinv. exists (tick Math_cos Math_sin s).
    split; [apply updateParticles_eq|].
    destruct (tick_lengths Math_cos Math_sin s) as [Hp Hv].
    split; [exact Hp|]. rewrite Hv, Hp. exact Hinv.
  - intros s count. cbn zeta. rewrite setParticleCount_eq.
    apply createParticles_well_formed.
  - intros s. apply createParticles_well_formed.
Qed.

Lemma C4_witness :
  reachable sample_cos sample_sin sample_tape working_host constructed /\
  length (vertices constructed) = (length (particles constructed) * 6)%nat.
Proof.
  split; [exact constructed_reachable|].
  exact (proj1 (C4_buffer_length_invariant sample_cos sample_sin sample_tape working_host)
           constructed constructed_reachable).
Defined.

(** C5. A tick assigns every slot of the buffer: slot [i * 6 + c] receives
    the [c]-th value computed for particle [i], every index below
    [particles.length * 6] is such a slot, and so the buffer a tick leaves
    (the one it uploads) does not depend on what the buffer held before. *)
Theorem C5_tick_rewrites_buffer (Math_cos Math_sin : number -> number)
    (s : ParticleSystem) :
  length (vertices s) = (length (particles s) * 6)%nat ->
  exists s', updateParticles Math_cos Math_sin s = Returns tt s' /\
    length (vertices s') = (length (particles s) * 6)%nat /\
    (forall j, (j < length (particles s) * 6)%nat ->
       exists i c p v, j = (i * 6 + c)%nat /\ (c < 6)%nat /\
         particles s !! i = Some p /\
         segment Math_cos Math_sin (advance p) !! c = Some v /\
         vertices s' !! j = Some (Num.fround v)) /\
    (forall t, particles t = particles s ->
       length (vertices t) = length (vertices s) ->
       vertices (final_state (updateParticles Math_cos Math_sin t)) = vertices s') /\
    last (gl_trace s') = Some (gl_bufferData (vertices s')).
Proof.
  intros Hinv.
  assert (Hslot : forall t, length (vertices t) = (length (particles t) * 6)%nat ->
            forall j, (j < length (particles t) * 6)%nat ->
            exists i c p v, j = (i * 6 + c)%nat /\ (c < 6)%nat /\
              particles t !! i = Some p /\
              segment Math_cos Math_sin (advance p) !! c = Some v /\
              vertices (tick Math_cos Math_sin t) !! j = Some (Num.fround v)).
  { intros t Ht j Hj.
    destruct (after_loop_post Math_cos Math_sin t) as [_ _ _ _ Hvin _ _ _ _ _].
    assert (j `div` 6 < length (particles t))%nat as Hi
      by (apply Nat.Div0.div_lt_upper_bound; lia).
    destruct (lookup_lt_is_Some_2 _ _ Hi) as [p Hp].
    assert (j `mod` 6 < 6)%nat as Hc by (apply Nat.mod_upper_bound; lia).
    assert (j = (j `div` 6 * 6 + j `mod` 6)%nat) as Hdm
      by (rewrite (Nat.div_mod_eq j 6) at 1; lia).
    destruct (lookup_lt_is_Some_2 (segment Math_cos Math_sin (advance p)) (j `mod` 6))
      as [v Hv]; [exact Hc|].
    exists (j `div` 6)%nat, (j `mod` 6)%nat, p, v.
    repeat split; try assumption.
    unfold tick, issued; cbn [vertices].
    rewrite Hdm at 1. rewrite (Hvin _ _ p) by (try assumption; lia).
    rewrite Hv. reflexivity. }
  exists (tick Math_cos Math_sin s). split; [apply updateParticles_eq|].
  destruct (tick_lengths Math_cos Math_sin s) as [_ Hv].
  split; [congruence|]. split; [exact (Hslot s Hinv)|]. split.
  - intros t Hp Hl. rewrite updateParticles_eq. cbn [final_state].
    destruct (tick_lengths Math_cos Math_sin t) as [_ Hvt].
    apply list_eq. intros j.
    destruct (decide (j < length (particles s) * 6)%nat) as [Hj|Hj].
    + destruct (Hslot s Hinv j Hj) as (i & c & p & v & -> & Hc & Hpi & Hseg & ->).
      destruct (Hslot t ltac:(congruence) (i * 6 + c)%nat ltac:(rewrite Hp; exact Hj))
        as (i' & c' & p' & v' & Heq & Hc' & Hpi' & Hseg' & ->).
      assert (i' = i /\ c' = c) as [-> ->] by lia.
      rewrite Hp, Hpi in Hpi'. congruence.
    + rewrite !lookup_ge_None_2 by lia. reflexivity.
  - unfold tick, issued; cbn [gl_trace vertices]. apply last_snoc.
Qed.

Lemma C5_witness :
  length (vertices two_particles) = (length (particles two_particles) * 6)%nat /\
  exists s', updateParticles sample_cos sample_sin two_particles = Returns tt s' /\
    vertices s'
    = [ S754_finite true 4508666078167040 (-52);
        S754_finite true 8331735116808192 (-53);
        S754_zero false;
        S754_finite true 8997066353147904 (-53);
        S754_finite true 4841331696336896 (-52);
        S754_zero false;
        S754_finite true 8953676982910976 (-53);
        S754_finite true 8331735116808192 (-53);
        S754_zero false;
        S754_finite true 8933411179724800 (-53);
        S754_finite true 4841331696336896 (-52);
        S754_zero false ].
Proof.
  assert (H : length (vertices two_particles) = (length (particles two_particles) * 6)%nat)
    by reflexivity.
  split; [exact H|].
  destruct (C5_tick_rewrites_buffer sample_cos sample_sin two_particles H)
    as (s' & Hrun & _ & _ & Hfull & _).
  exists s'. split; [exact Hrun|].
  rewrite <- (Hfull two_particles eq_refl eq_refl).
  vm_compute. reflexivity.
Defined.

(** C6. Whatever count is requested, [setParticleCount] leaves 80000
    particles: [createParticles] overwrites the count it was given.  The
    particles lie on the grid of that number: particle [i] is anchored at
    [(i mod gridWidth) * cellSize - 1] and
    [floor (i / gridWidth) * cellSize - 1] with
    [gridWidth = ceil (sqrt 80000) = 283] and [cellSize = 2 / gridWidth]. *)
Theorem C6_setParticleCount_ignores_count (random_tape : nat -> number) (host : Host)
    (count : number) (s : ParticleSystem) :
  let s' := final_state (setParticleCount random_tape host count s) in
  numParticles s' = Num.of_Z 80000 /\
  length (particles s') = Z.to_nat 80000 /\
  gridWidth = Num.of_Z 283 /\
  cellSize = (Num.of_Z 2 / Num.of_Z 283)%js /\
  forall i, (i < Z.to_nat 80000)%nat ->
    exists p, particles s' !! i = Some p /\
      position_x p = (Num.of_nat i mod gridWidth * cellSize - Num.of_Z 1)%js /\
      position_y p = (Num.floor (Num.of_nat i / gridWidth) * cellSize - Num.of_Z 1)%js.
Proof.
  cbn zeta. rewrite setParticleCount_eq.
  destruct (createParticles_fields random_tape host
              (mkSystem (particles s) (vertices s) count (random_calls s)
                 (gl_trace s) (frames_requested s))) as (-> & _ & -> & _).
  split; [reflexivity|]. split; [apply pushed_length|].
  split; [apply gridWidth_value|].
  split; [unfold cellSize; rewrite gridWidth_value; reflexivity|].
  intros i Hi. eexists. split; [apply pushed_lookup; exact Hi|].
  split; reflexivity.
Qed.
(** C7. When every value of [Math.random] is a number of [[0, 1)], each
    particle that [createParticles] builds has, as exact values, a
    rotation in [[0, 2 * pi)] (pi the real number), a speed in
    [[1/100, 3/100)] and a radius in [[5/100, 15/100)]. *)
Theorem C7_random_ranges (random_tape : nat -> number) (host : Host)
    (s : ParticleSystem) (i : nat) (p : Particle) :
  (forall k, Num64.unit_interval (random_tape k)) ->
  particles (final_state (createParticles random_tape host s)) !! i = Some p ->
  (Num.is_finite (rotation p) = true /\
   (0 <= Num.toQ (rotation p))%Q /\ (Q2R (Num.toQ (rotation p)) < 2 * PI)%R) /\
  (Num.is_finite (speed p) = true /\
   (1 # 100 <= Num.toQ (speed p))%Q /\ (Num.toQ (speed p) < 3 # 100)%Q) /\
  (Num.is_finite (radius p) = true /\
   (5 # 100 <= Num.toQ (radius p))%Q /\ (Num.toQ (radius p) < 15 # 100)%Q).
Proof.
  intros Htape Hp.
  destruct (createParticles_fields random_tape host s) as (Hps & _).
  cbn zeta in Hps. rewrite Hps in Hp.
  assert (i < particle_count)%nat as Hi.
  { apply lookup_lt_Some in Hp. by rewrite pushed_length in Hp. }
  rewrite pushed_lookup in Hp by exact Hi. injection Hp as <-.
  cbn [rotation speed radius new_particle].
  destruct (random_fields_in_range _ _ _ (Htape (random_calls s + 3 * i)%nat)
              (Htape (S (random_calls s + 3 * i)))
              (Htape (S (S (random_calls s + 3 * i)))))
    as ((Hok1 & Hhi1) & (Hok2 & Hlo2 & Hhi2) & (Hok3 & Hlo3 & Hhi3)).
  cbn zeta in *.
  assert (Hfin : forall x, Num64.ok x = true -> Num.is_finite x = true).
  { intros [|[|]| |[|] ? ?]; cbn; congruence. }
  assert (Hpos : forall x, Num64.ok x = true -> (0 <= Num.toQ x)%Q).
  { intros x Hx. change 0%Q with (Num.toQ (S754_zero false)).
    apply Num64.toQ_le; [reflexivity | exact Hx | apply Num64.V_nonneg]. }
  split; [|split].
  - split; [by apply Hfin|]. split; [by apply Hpos|].
    eapply Rlt_trans; [|exact two_PI_number_below].
    apply Qlt_Rlt.
    eapply Qle_lt_trans; [apply Num64.toQ_le; [exact Hok1 | | exact Hhi1]|];
      vm_compute; reflexivity.
  - split; [by apply Hfin|]. split.
    + eapply Qle_trans; [|apply Num64.toQ_le; [ | exact Hok2 | exact Hlo2]];
        [vm_compute; discriminate | reflexivity].
    + eapply Qle_lt_trans; [apply Num64.toQ_le; [exact Hok2 | | exact Hhi2]|];
        vm_compute; reflexivity.
  - split; [by apply Hfin|]. split.
    + eapply Qle_trans; [|apply Num64.toQ_le; [ | exact Hok3 | exact Hlo3]];
        [vm_compute; discriminate | reflexivity].
    + eapply Qle_lt_trans; [apply Num64.toQ_le; [exact Hok3 | | exact Hhi3]|];
        vm_compute; reflexivity.
Qed.

Lemma C7_witness :
  let p := new_particle sample_tape gridWidth cellSize 0 (3 * 0) in
  (forall k, Num64.unit_interval (sample_tape k)) /\
  particles (final_state (createParticles sample_tape working_host blank)) !! 0%nat
    = Some p /\
  (Num.is_finite (rotation p) = true /\
   (0 <= Num.toQ (rotation p))%Q /\ (Q2R (Num.toQ (rotation p)) < 2 * PI)%R) /\
  (Num.is_finite (speed p) = true /\
   (1 # 100 <= Num.toQ (speed p))%Q /\ (Num.toQ (speed p) < 3 # 100)%Q) /\
  (Num.is_finite (radius p) = true /\
   (5 # 100 <= Num.toQ (radius p))%Q /\ (Num.toQ (radius p) < 15 # 100)%Q).
Proof.
  intros p.
  pose proof (created_sample_particle 0 ltac:(pose proof particle_count_large; lia)) as Hp.
  split; [exact sample_tape_unit_interval|]. split; [exact Hp|].
  exact (C7_random_ranges sample_tape working_host blank 0 p sample_tape_unit_interval Hp).
Defined.

(** C8 (as the code has it). A tick leaves the count, the tape position
    and the frame counter as they were and adds the upload to the trace;
    of every particle it keeps the anchor, the speed and the radius and
    replaces the rotation by [rotation + speed], rounded.  For a finite
    rotation and speed that are not negative the rotation does not
    decrease; it increases as long as the rotation is below [2^46] and
    the speed is at least 0.01, which is so at each of the first
    [2^50 - 128] ticks of a particle created from values of [[0, 1)]. *)
Theorem C8_tick_changes_rotation_only (Math_cos Math_sin : number -> number) :
  (forall s : ParticleSystem,
   exists s', updateParticles Math_cos Math_sin s = Returns tt s' /\
    numParticles s' = numParticles s /\
    random_calls s' = random_calls s /\
    frames_requested s' = frames_requested s /\
    gl_trace s' = gl_trace s ++ [gl_bufferData (vertices s')] /\
    length (particles s') = length (particles s) /\
    forall i p, particles s !! i = Some p ->
      exists q, particles s' !! i = Some q /\
        position_x q = position_x p /\ position_y q = position_y p /\
        speed q = speed p /\ radius q = radius p /\
        rotation q = (rotation p + speed p)%js /\
        (Num64.ok (rotation p) = true -> Num64.ok (speed p) = true ->
         Num.leb (rotation p) (rotation q) = true) /\
        (Num64.ok (rotation p) = true -> Num64.ok (speed p) = true ->
         Num.ltb (rotation p) Num64.two_to_46 = true ->
         Num.leb (Num.dec 1 100) (speed p) = true ->
         Num.ltb (rotation p) (rotation q) = true)) /\
  (forall (random_tape : nat -> number) (host : Host) (s0 : ParticleSystem)
          (i : nat) (p : Particle) (n : nat),
     (forall k, Num64.unit_interval (random_tape k)) ->
     let s := final_state (createParticles random_tape host s0) in
     particles s !! i = Some p ->
     Z.of_nat n < 2 ^ 50 - 128 ->
     exists q q',
       particles (ticks Math_cos Math_sin n s) !! i = Some q /\
       particles (ticks Math_cos Math_sin (S n) s) !! i = Some q' /\
       Num.ltb (rotation q) (rotation q') = true).
Proof.
  split.
  - intros s.
    exists (tick Math_cos Math_sin s). split; [apply updateParticles_eq|].
    destruct (after_loop_post Math_cos Math_sin s) as [Hlp _ _ _ _ _ Hnum Htr Hrnd Hfr].
    unfold tick at 1 2 3 4 6, issued.
    cbn [particles vertices numParticles random_calls gl_trace frames_requested].
    repeat (split; [first [assumption | by rewrite Htr]|]).
    intros i p Hp. exists (advance p).
    split; [rewrite tick_particle, Hp; reflexivity|].
    do 5 (split; [reflexivity|]).
    cbn [advance set_rotation rotation]. split.
    + apply Num64.add_not_below.
    + apply Num64.add_above.
  - intros random_tape host s0 i p n Htape s Hp Hn.
    destruct (created_rotation_bound random_tape host s0 i p n Htape Hp Hn)
      as (Hok & Hoks & Hlt & Hle).
    eexists; eexists.
    rewrite !ticks_particle, Hp. cbn [fmap option_fmap option_map].
    split; [reflexivity|]. split; [reflexivity|].
    rewrite !iter_advance. cbn [rotation]. rewrite Nat.iter_succ.
    by apply Num64.add_above.
Qed.

Lemma C8_witness :
  (exists s', updateParticles sample_cos sample_sin two_particles = Returns tt s' /\
     exists q, particles s' !! 1%nat = Some q /\
       position_x q = S754_finite true 8943544136332928 (-53) /\
       speed q = S754_finite false 8646911284551352 (-59) /\
       radius q = S754_finite false 5404319552844596 (-56) /\
       Num.ltb (S754_finite false 7074237752028440 (-52)) (rotation q) = true) /\
  (forall k, Num64.unit_interval (sample_tape k)) /\
  particles created_sample !! 0%nat
    = Some (new_particle sample_tape gridWidth cellSize 0 (3 * 0)) /\
  Z.of_nat 1000 < 2 ^ 50 - 128 /\
  exists q q',
    particles (ticks sample_cos sample_sin 1000 created_sample) !! 0%nat = Some q /\
    particles (ticks sample_cos sample_sin 1001 created_sample) !! 0%nat = Some q' /\
    Num.ltb (rotation q) (rotation q') = true.
Proof.
  destruct (C8_tick_changes_rotation_only sample_cos sample_sin) as [Hone Hmany].
  pose proof (created_sample_particle 0 ltac:(pose proof particle_count_large; lia)) as Hp.
  assert (Hn : Z.of_nat 1000 < 2 ^ 50 - 128) by (vm_compute; reflexivity).
  split; [|split; [exact sample_tape_unit_interval|split; [exact Hp|split; [exact Hn|]]]].
  - destruct (Hone two_particles) as (s' & Hrun & _ & _ & _ & _ & _ & Hall).
    destruct (Hall 1%nat _ eq_refl) as (q & Hq & Hx & _ & Hs & Hr & _ & _ & Hinc).
    exists s'. split; [exact Hrun|]. exists q. split; [exact Hq|].
    split; [etrans; [exact Hx|]; vm_compute; reflexivity|].
    split; [etrans; [exact Hs|]; vm_compute; reflexivity|].
    split; [etrans; [exact Hr|]; vm_compute; reflexivity|].
    apply Hinc; vm_compute; reflexivity.
  - exact (Hmany sample_tape working_host blank 0%nat _ 1000%nat
             sample_tape_unit_interval Hp Hn).
Defined.

(** C8 as stated fails: with rotation [2^47] and speed 0.015 (a positive
    speed of the range) the sum [rotation + speed] rounds back to the
    rotation, and the tick leaves the rotation as it was. *)
Lemma C8_counterexample :
  exists p q, particles stalled !! 1%nat = Some p /\
    particles (final_state (updateParticles sample_cos sample_sin stalled)) !! 1%nat
      = Some q /\
    Num.ltb (Num.of_Z 0) (speed p) = true /\
    Num.leb (Num.dec 1 100) (speed p) = true /\
    Num.ltb (speed p) (Num.dec 3 100) = true /\
    rotation q = rotation p /\
    Num.ltb (rotation p) (rotation q) = false.
Proof.
  eexists; eexists. split; [reflexivity|].
  rewrite updateParticles_eq. cbn [final_state].
  split; [rewrite tick_particle; reflexivity|].
  do 4 (split; [vm_compute; reflexivity|]). vm_compute. reflexivity.
Qed.

(** The class: a frame of a constructed object issues, in this order, a
    clear, the upload of the buffer, one [drawArrays(LINES, 0, n)] with
    [n] twice the number of particles, and a flush; so exactly one draw
    call, over two vertices for each particle. *)
Theorem draw_one_call_per_frame (Math_cos Math_sin : number -> number)
    (random_tape : nat -> number) (host : Host) (s : ParticleSystem) :
  reachable Math_cos Math_sin random_tape host s ->
  exists s' calls, animate Math_cos Math_sin s = Returns tt s' /\
    gl_trace s' = gl_trace s ++ calls /\
    calls = [ gl_clear; gl_bufferData (vertices s');
              gl_drawArrays_LINES (Num.of_Z 0) (Num.of_nat (length (particles s) * 2));
              gl_flush ] /\
    length (List.filter is_drawArrays calls) = 1%nat.
Proof.
  intros Hs. destruct (reachable_well_formed _ _ _ _ _ Hs) as [Hn Hp _].
  eexists; eexists. split; [apply animate_eq|].
  destruct (after_loop_post Math_cos Math_sin (issued gl_clear s))
    as [_ _ _ _ _ _ Hnum Htr _ _].
  unfold frame, frame_drawn, tick, issued in *.
  cbn [particles vertices numParticles gl_trace] in *.
  rewrite Hnum, Htr, Hn, Hp, count_times_two, <- !app_assoc.
  split; [reflexivity|]. split; reflexivity.
Qed.

Lemma draw_one_call_per_frame_constructed :
  reachable sample_cos sample_sin sample_tape working_host constructed /\
  exists s' calls, animate sample_cos sample_sin constructed = Returns tt s' /\
    gl_trace s' = gl_trace constructed ++ calls /\
    calls = [ gl_clear; gl_bufferData (vertices s');
              gl_drawArrays_LINES (Num.of_Z 0)
                (Num.of_nat (length (particles constructed) * 2));
              gl_flush ] /\
    length (List.filter is_drawArrays calls) = 1%nat.
Proof.
  split; [exact constructed_reachable|].
  exact (draw_one_call_per_frame sample_cos sample_sin sample_tape working_host
           constructed constructed_reachable).
Defined.


(** C9 (the stand-alone script). A frame of the script, on the buffer
    [setup00] builds and with at least one target, issues one
    [drawArrays(LINES, 0, numLines)]: the call covers [numLines = 80000]
    vertices, which is not [numLines * 2], while the buffer it has just
    uploaded holds [numLines * 2 = 160000] vertices of three numbers,
    two for each of the [numLines] lines. *)
Theorem C9_drawScene_covers_numLines (Math_cos Math_sin : number -> number)
    (t : Legacy.Target) (ts : list Legacy.Target) (trace : list GLcall) :
  exists s',
    Legacy.drawScene Math_cos Math_sin
      (Legacy.mkScene Legacy.setup00_vertices (t :: ts) trace) = Some s' /\
    Legacy.gl_trace s'
    = trace ++ [ gl_lineWidth (Num.of_Z 2); gl_bufferData (Legacy.vertices s'); gl_clear;
                 gl_drawArrays_LINES (Num.of_Z 0) Legacy.numLines; gl_flush ] /\
    length (Legacy.vertices s')
    = (loop_trips (Legacy.numLines * Num.of_Z 2)%js * 3)%nat /\
    Legacy.numLines = Num.of_Z 80000 /\
    (Legacy.numLines * Num.of_Z 2)%js = Num.of_Z 160000 /\
    Legacy.numLines <> (Legacy.numLines * Num.of_Z 2)%js.
Proof.
  unfold Legacy.drawScene, Legacy.draw, Legacy.draw00.
  cbn [Legacy.vertices Legacy.targetArr Legacy.gl_trace].
  set (targets := (fun t0 => Legacy.set_rotate t0 _) <$> (t :: ts)).
  destruct (Legacy.draw00_loop_some Math_cos Math_sin targets
              (Legacy.loop_trips_by_2 (Legacy.numLines * Num.of_Z 2)%js) 0
              Legacy.setup00_vertices) as (vs & -> & Hlen); [discriminate|].
  eexists. split; [reflexivity|].
  unfold Legacy.gl; cbn [Legacy.vertices Legacy.targetArr Legacy.gl_trace].
  split; [rewrite <- !app_assoc; reflexivity|].
  split; [|split; [reflexivity|split; [vm_compute; reflexivity | vm_compute; discriminate]]].
  rewrite Hlen, Legacy.setup00_vertices_length. unfold particle_count, loop_trips.
  replace (Num.to_Z (Num.ceil (Legacy.numLines * Num.of_Z 2)%js)) with (Some 160000)
    by (vm_compute; reflexivity).
  lia.
Qed.

(** C10. The tick, the draw and the frame return from every state; the
    constructor throws exactly when the host fails one of its checks
    (canvas, context, shader creation and compilation, program creation
    and linking, uniform locations, buffer creation), with the message of
    the first failed check and before any frame is requested; and
    [setParticleCount] throws exactly when the buffer cannot be created. *)
Theorem C10_failures_only_at_initialization (Math_cos Math_sin : number -> number)
    (random_tape : nat -> number) (host : Host) :
  (forall s, exists s', updateParticles Math_cos Math_sin s = Returns tt s') /\
  (forall s, exists s', draw Math_cos Math_sin s = Returns tt s') /\
  (forall s, exists s', animate Math_cos Math_sin s = Returns tt s') /\
  (forall canvasId s,
     match first_failure host canvasId with
     | Some msg => exists s',
         constructor Math_cos Math_sin random_tape host canvasId s = Throws msg s'
         /\ frames_requested s' = frames_requested s
     | None => exists s',
         constructor Math_cos Math_sin random_tape host canvasId s = Returns tt s'
         /\ frames_requested s' = S (frames_requested s)
     end) /\
  (forall canvasId,
     first_failure host canvasId = None <->
     getElementById host canvasId = true /\
     getContext host "webgl" || getContext host "experimental-webgl" = true /\
     createShader host VERTEX_SHADER = true /\
     COMPILE_STATUS host VERTEX_SHADER = true /\
     createShader host FRAGMENT_SHADER = true /\
     COMPILE_STATUS host FRAGMENT_SHADER = true /\
     createProgram host = true /\
     LINK_STATUS host = true /\
     getUniformLocation host "modelViewMatrix"
       && getUniformLocation host "perspectiveMatrix" = true /\
     createBuffer host = true) /\
  (forall count s, exists s',
     setParticleCount random_tape host count s
     = if createBuffer host then Returns tt s'
       else Throws "Failed to create vertex buffer" s').
Proof.
  repeat apply conj.
  - intros s. eexists. apply updateParticles_eq.
  - intros s. eexists. apply draw_eq.
  - intros s. eexists. apply animate_eq.
  - intros canvasId s. apply constructor_outcome.
  - intros canvasId. unfold first_failure.
    destruct (getElementById host canvasId);
      destruct (getContext host "webgl" || getContext host "experimental-webgl");
      destruct (createShader host VERTEX_SHADER);
      destruct (COMPILE_STATUS host VERTEX_SHADER);
      destruct (createShader host FRAGMENT_SHADER);
      destruct (COMPILE_STATUS host FRAGMENT_SHADER);
      destruct (createProgram host);
      destruct (LINK_STATUS host);
      destruct (getUniformLocation host "modelViewMatrix"
                && getUniformLocation host "perspectiveMatrix");
      destruct (createBuffer host); cbn [negb];
      (split; [intros H; try discriminate H; repeat split
              | intros (?&?&?&?&?&?&?&?&?&?); try discriminate; reflexivity]).
  - intros count s. rewrite setParticleCount_eq, createParticles_eq.
    destruct (createBuffer host); eexists; reflexivity.
Qed.

(** ** Further properties of the code *)

(** A frame of the script throws exactly when there is no target: the
    first line then reads a field of [targetArr[NaN]], which is
    undefined; with a target, every frame returns. *)
Theorem drawScene_throws_iff (Math_cos Math_sin : number -> number)
    (s : Legacy.Scene) :
  Legacy.drawScene Math_cos Math_sin s = None <-> Legacy.targetArr s = [].
Proof.
  unfold Legacy.drawScene, Legacy.draw. rewrite Script.draw00_eq.
  split.
  - intros H. destruct (Legacy.targetArr s) as [|t ts] eqn:Hts; [reflexivity|exfalso].
    destruct (Script.draw00_lines Math_cos Math_sin (Script.turned <$> (t :: ts))
                (Z.to_nat 80000) 0 (Legacy.vertices s)) as (vs & Hrun & _); [discriminate|].
    rewrite Hrun in H. discriminate.
  - intros ->. cbn [fmap list_fmap].
    replace (Z.to_nat 80000) with (S (Z.to_nat 79999)) by lia.
    by rewrite draw00_loop_empty.
Qed.

(** What a frame does: every target is turned by its [rotate_speed];
    for each line [k] the second endpoint moves a tenth of the way to
    its point on the circle of target [2 k mod targetArr.length], and
    the first endpoint is put 0.001 below it in [x] and [y]; the [z]
    slots and the length of the buffer are left as they were. *)
Theorem drawScene_lines (Math_cos Math_sin : number -> number)
    (s : Legacy.Scene) :
  Legacy.targetArr s <> [] ->
  exists s', Legacy.drawScene Math_cos Math_sin s = Some s' /\
    Legacy.targetArr s' = Script.turned <$> Legacy.targetArr s /\
    length (Legacy.vertices s') = length (Legacy.vertices s) /\
    (forall k, (k < Z.to_nat 80000)%nat -> (6 * k + 4 < length (Legacy.vertices s))%nat ->
       exists target,
         Legacy.targetArr s' !! ((2 * k) `mod` length (Legacy.targetArr s))%nat
           = Some target /\
         let point := Script.target_point Math_cos Math_sin target (2 * k) in
         let px := Script.eased (Legacy.read (Legacy.vertices s) (6 * k + 3)) (fst point) in
         let py := Script.eased (Legacy.read (Legacy.vertices s) (6 * k + 4)) (snd point) in
         Legacy.vertices s' !! (6 * k)%nat = Some (Num.fround (px - Num.dec 1 1000)%js) /\
         Legacy.vertices s' !! (6 * k + 1)%nat = Some (Num.fround (py - Num.dec 1 1000)%js) /\
         Legacy.vertices s' !! (6 * k + 3)%nat = Some (Num.fround px) /\
         Legacy.vertices s' !! (6 * k + 4)%nat = Some (Num.fround py)) /\
    (forall j, (j `mod` 3 = 2)%nat ->
       Legacy.vertices s' !! j = Legacy.vertices s !! j) /\
    (forall j, (6 * Z.to_nat 80000 <= j)%nat ->
       Legacy.vertices s' !! j = Legacy.vertices s !! j).
Proof.
  intros Hne.
  assert (Script.turned <$> Legacy.targetArr s <> []) as Hne'
    by (destruct (Legacy.targetArr s); [congruence | discriminate]).
  unfold Legacy.drawScene, Legacy.draw. rewrite Script.draw00_eq.
  destruct (Script.draw00_lines Math_cos Math_sin _ (Z.to_nat 80000) 0 (Legacy.vertices s)
              Hne') as (vs & -> & [Hlen Hline Hz _ Hafter]).
  eexists. split; [reflexivity|].
  unfold Legacy.gl; cbn [Legacy.vertices Legacy.targetArr Legacy.gl_trace].
  split; [reflexivity|]. split; [exact Hlen|]. split; [|split; [exact Hz | exact Hafter]].
  intros k Hk Hkl. destruct (Hline k ltac:(lia) Hkl) as (target & Ht & H).
  rewrite length_fmap in Ht. exists target. split; [exact Ht | exact H].
Qed.


Lemma drawScene_lines_one_target :
  let s := Legacy.mkScene (replicate 12 (Num.of_Z 0))
             [fst (Script.TargetImpl sample_tape (Num.dec 1 10) 0)] [] in
  Legacy.targetArr s <> [] /\
  exists s', Legacy.drawScene sample_cos sample_sin s = Some s' /\
    Legacy.targetArr s' = Script.turned <$> Legacy.targetArr s /\
    length (Legacy.vertices s') = length (Legacy.vertices s) /\
    (forall k, (k < Z.to_nat 80000)%nat -> (6 * k + 4 < length (Legacy.vertices s))%nat ->
       exists target,
         Legacy.targetArr s' !! ((2 * k) `mod` length (Legacy.targetArr s))%nat
           = Some target /\
         let point := Script.target_point sample_cos sample_sin target (2 * k) in
         let px := Script.eased (Legacy.read (Legacy.vertices s) (6 * k + 3)) (fst point) in
         let py := Script.eased (Legacy.read (Legacy.vertices s) (6 * k + 4)) (snd point) in
         Legacy.vertices s' !! (6 * k)%nat = Some (Num.fround (px - Num.dec 1 1000)%js) /\
         Legacy.vertices s' !! (6 * k + 1)%nat = Some (Num.fround (py - Num.dec 1 1000)%js) /\
         Legacy.vertices s' !! (6 * k + 3)%nat = Some (Num.fround px) /\
         Legacy.vertices s' !! (6 * k + 4)%nat = Some (Num.fround py)) /\
    (forall j, (j `mod` 3 = 2)%nat ->
       Legacy.vertices s' !! j = Legacy.vertices s !! j) /\
    (forall j, (6 * Z.to_nat 80000 <= j)%nat ->
       Legacy.vertices s' !! j = Legacy.vertices s !! j).
Proof.
  cbn zeta. split; [discriminate|].
  apply (drawScene_lines sample_cos sample_sin). discriminate.
Defined.

(** [update] draws five random numbers, in the order of its
    assignments, and leaves the other five fields as they are; for
    values of [Math.random] in [[0, 1)] the new fields lie between the
    numbers the literals of the source denote.  The constructor does
    the same from zeros and its [bold_rate]. *)
Theorem update_ranges (random_tape : nat -> number) :
  (forall k, Num64.unit_interval (random_tape k)) ->
  (forall (t : Legacy.Target) (r : nat),
     let t' := fst (Script.update random_tape t r) in
     snd (Script.update random_tape t r) = (r + 5)%nat /\
     Legacy.x t' = Legacy.x t /\ Legacy.y t' = Legacy.y t /\
     Legacy.rotate t' = Legacy.rotate t /\ Legacy.radius t' = Legacy.radius t /\
     Legacy.bold_rate t' = Legacy.bold_rate t /\
     Legacy.rotate_speed t' = (random_tape r * Num.dec 2 100 + Num.dec 2 100)%js /\
     Legacy.friction t' = (random_tape (r + 1)%nat * Num.dec 8 10 + Num.dec 1 10)%js /\
     Legacy.speed t' = (random_tape (r + 2)%nat * Num.dec 2 10 + Num.dec 3 100)%js /\
     Legacy.step t' = (random_tape (r + 3)%nat * Num.dec 2 10 + Num.dec 1 10)%js /\
     Legacy.freq t' = (random_tape (r + 4)%nat * Num.dec 2 10 + Num.dec 5 10)%js /\
     between (Num.dec 2 100) (Num.dec 4 100) (Legacy.rotate_speed t') /\
     between (Num.dec 1 10) (Num.dec 9 10) (Legacy.friction t') /\
     between (Num.dec 3 100) (Num.dec 23 100) (Legacy.speed t') /\
     between (Num.dec 1 10) (Num.dec 3 10) (Legacy.step t') /\
     between (Num.dec 5 10) (Num.dec 7 10) (Legacy.freq t')) /\
  (forall (rad : number) (r : nat),
     let t := fst (Script.TargetImpl random_tape rad r) in
     snd (Script.TargetImpl random_tape rad r) = (r + 5)%nat /\
     Legacy.bold_rate t = rad /\
     Legacy.x t = Num.of_Z 0 /\ Legacy.y t = Num.of_Z 0 /\
     Legacy.rotate t = Num.of_Z 0 /\ Legacy.radius t = Num.of_Z 0).
Proof.
  intros Htape. split.
  - intros t r. cbn zeta. unfold Script.update, Script.random.
    cbn [fst snd Legacy.x Legacy.y Legacy.rotate Legacy.radius Legacy.bold_rate
         Legacy.rotate_speed Legacy.friction Legacy.speed Legacy.step Legacy.freq].
    replace (r + 1)%nat with (S r) by lia. replace (r + 2)%nat with (S (S r)) by lia.
    replace (r + 3)%nat with (S (S (S r))) by lia.
    replace (r + 4)%nat with (S (S (S (S r)))) by lia.
    split; [lia|]. do 10 (split; [reflexivity|]).
    split; [|split; [|split; [|split]]];
      (apply affine_between; [apply Htape | ..];
       first [reflexivity | vm_compute; discriminate]).
  - intros rad r. cbn zeta. unfold Script.TargetImpl, Script.update, Script.random.
    cbn [fst snd Legacy.x Legacy.y Legacy.rotate Legacy.radius Legacy.bold_rate].
    split; [lia|]. repeat split.
Qed.


Lemma update_ranges_sample :
  (forall k, Num64.unit_interval (sample_tape k)) /\
  (forall (t : Legacy.Target) (r : nat),
     let t' := fst (Script.update sample_tape t r) in
     snd (Script.update sample_tape t r) = (r + 5)%nat /\
     Legacy.x t' = Legacy.x t /\ Legacy.y t' = Legacy.y t /\
     Legacy.rotate t' = Legacy.rotate t /\ Legacy.radius t' = Legacy.radius t /\
     Legacy.bold_rate t' = Legacy.bold_rate t /\
     Legacy.rotate_speed t' = (sample_tape r * Num.dec 2 100 + Num.dec 2 100)%js /\
     Legacy.friction t' = (sample_tape (r + 1)%nat * Num.dec 8 10 + Num.dec 1 10)%js /\
     Legacy.speed t' = (sample_tape (r + 2)%nat * Num.dec 2 10 + Num.dec 3 100)%js /\
     Legacy.step t' = (sample_tape (r + 3)%nat * Num.dec 2 10 + Num.dec 1 10)%js /\
     Legacy.freq t' = (sample_tape (r + 4)%nat * Num.dec 2 10 + Num.dec 5 10)%js /\
     between (Num.dec 2 100) (Num.dec 4 100) (Legacy.rotate_speed t') /\
     between (Num.dec 1 10) (Num.dec 9 10) (Legacy.friction t') /\
     between (Num.dec 3 100) (Num.dec 23 100) (Legacy.speed t') /\
     between (Num.dec 1 10) (Num.dec 3 10) (Legacy.step t') /\
     between (Num.dec 5 10) (Num.dec 7 10) (Legacy.freq t')) /\
  (forall (rad : number) (r : nat),
     let t := fst (Script.TargetImpl sample_tape rad r) in
     snd (Script.TargetImpl sample_tape rad r) = (r + 5)%nat /\
     Legacy.bold_rate t = rad /\
     Legacy.x t = Num.of_Z 0 /\ Legacy.y t = Num.of_Z 0 /\
     Legacy.rotate t = Num.of_Z 0 /\ Legacy.radius t = Num.of_Z 0).
Proof.
  split; [exact sample_tape_unit_interval|].
  exact (update_ranges sample_tape sample_tape_unit_interval).
Defined.

(** Once the script has a target, its frames never throw, whatever
    timer calls come between them; the buffer keeps its length and its
    [z] slots (1.83 as binary32, when [setup00] built it); the targets
    keep their number, their place [x], [y], their [radius] and their
    [bold_rate]. *)
Theorem script_keeps_running (Math_cos Math_sin : number -> number)
    (random_tape : nat -> number) (s0 s : Script.State) :
  Legacy.targetArr (Script.scene s0) <> [] ->
  runs Math_cos Math_sin random_tape s0 s ->
  (exists s', Script.animate Math_cos Math_sin s = Script.Done s') /\
  length (Legacy.vertices (Script.scene s)) = length (Legacy.vertices (Script.scene s0)) /\
  (forall j, (j `mod` 3 = 2)%nat ->
     Legacy.vertices (Script.scene s) !! j = Legacy.vertices (Script.scene s0) !! j) /\
  (Legacy.vertices (Script.scene s0) = Legacy.setup00_vertices ->
   forall k, (k < 2 * Z.to_nat 80000)%nat ->
     Legacy.vertices (Script.scene s) !! (3 * k + 2)%nat
     = Some (Num.fround (Num.dec 183 100))) /\
  length (Legacy.targetArr (Script.scene s)) = length (Legacy.targetArr (Script.scene s0)) /\
  (forall i t0, Legacy.targetArr (Script.scene s0) !! i = Some t0 ->
     exists t, Legacy.targetArr (Script.scene s) !! i = Some t /\
       Legacy.x t = Legacy.x t0 /\ Legacy.y t = Legacy.y t0 /\
       Legacy.radius t = Legacy.radius t0 /\ Legacy.bold_rate t = Legacy.bold_rate t0).
Proof.
  intros Hne Hruns.
  assert (kept s0 s) as Hk.
  { induction Hruns as [|s Hr IH|s Hr IH]; [apply kept_refl| |].
    - assert (Legacy.targetArr (Script.scene s) <> []) as Hne'.
      { destruct IH as [_ _ HT _]. intros H. rewrite H in HT.
        destruct (Legacy.targetArr (Script.scene s0)); [congruence | discriminate]. }
      destruct (animate_kept Math_cos Math_sin s Hne') as (s' & -> & Hk' & _).
      eapply kept_trans; eauto.
    - eapply kept_trans; [exact IH | apply timer_kept]. }
  destruct Hk as [HL HZ HT HF].
  assert (Legacy.targetArr (Script.scene s) <> []) as Hne'.
  { intros H. rewrite H in HT.
    destruct (Legacy.targetArr (Script.scene s0)); [congruence | discriminate]. }
  destruct (animate_kept Math_cos Math_sin s Hne') as (s' & Hrun & _).
  split; [eauto|]. split; [exact HL|]. split; [exact HZ|].
  split; [|split; [exact HT | exact HF]].
  intros Hv k Hk. rewrite HZ, Hv.
  - by apply setup00_vertices_z.
  - replace (3 * k + 2)%nat with (2 + k * 3)%nat by lia.
    rewrite Nat.Div0.mod_add. reflexivity.
Qed.


Lemma script_keeps_running_one_target :
  let s0 := one_target in
  let s := Script.timer sample_tape one_target in
  Legacy.targetArr (Script.scene s0) <> [] /\
  runs sample_cos sample_sin sample_tape s0 s /\
  (exists s', Script.animate sample_cos sample_sin s = Script.Done s') /\
  length (Legacy.vertices (Script.scene s)) = length (Legacy.vertices (Script.scene s0)) /\
  (forall j, (j `mod` 3 = 2)%nat ->
     Legacy.vertices (Script.scene s) !! j = Legacy.vertices (Script.scene s0) !! j) /\
  (Legacy.vertices (Script.scene s0) = Legacy.setup00_vertices ->
   forall k, (k < 2 * Z.to_nat 80000)%nat ->
     Legacy.vertices (Script.scene s) !! (3 * k + 2)%nat
     = Some (Num.fround (Num.dec 183 100))) /\
  length (Legacy.targetArr (Script.scene s)) = length (Legacy.targetArr (Script.scene s0)) /\
  (forall i t0, Legacy.targetArr (Script.scene s0) !! i = Some t0 ->
     exists t, Legacy.targetArr (Script.scene s) !! i = Some t /\
       Legacy.x t = Legacy.x t0 /\ Legacy.y t = Legacy.y t0 /\
       Legacy.radius t = Legacy.radius t0 /\ Legacy.bold_rate t = Legacy.bold_rate t0).
Proof.
  cbn zeta. split; [discriminate|].
  split; [apply runs_timer, runs_start|].
  apply (script_keeps_running sample_cos sample_sin sample_tape one_target
           (Script.timer sample_tape one_target)).
  - discriminate.
  - apply runs_timer, runs_start.
Defined.

(** [n] frames advance every particle [n] times, as [n] calls of
    [updateParticles] do, and do nothing else to the simulation: no
    random number is drawn and the count stays; each frame asks for the
    next one and issues four WebGL calls, one of them a draw call. *)
Theorem frames_advance (Math_cos Math_sin : number -> number) (n : nat)
    (s : ParticleSystem) :
  let s' := frames Math_cos Math_sin n s in
  (forall i, particles s' !! i = Nat.iter n advance <$> particles s !! i) /\
  (forall i, particles s' !! i = particles (ticks Math_cos Math_sin n s) !! i) /\
  numParticles s' = numParticles s /\
  random_calls s' = random_calls s /\
  frames_requested s' = (frames_requested s + n)%nat /\
  length (gl_trace s') = (length (gl_trace s) + 4 * n)%nat /\
  length (List.filter is_drawArrays (gl_trace s'))
  = (length (List.filter is_drawArrays (gl_trace s)) + n)%nat.
Proof.
  cbn zeta. split; [apply frames_particle|]. split.
  { intros i. rewrite frames_particle, ticks_particle. reflexivity. }
  apply frames_fields.
Qed.


(** The object keeps its particles where [createParticles] put them:
    after the constructor and any frames and calls of
    [setParticleCount], in any order, there are 80000 particles and
    particle [i] is at the anchor of its index with a speed in
    [[1/100, 3/100)] and a radius in [[5/100, 15/100)], when
    [Math.random] answers in [[0, 1)].  Only rotations change. *)
Theorem reachable_particles_placed (Math_cos Math_sin : number -> number)
    (random_tape : nat -> number) (host : Host) (s : ParticleSystem) :
  (forall k, Num64.unit_interval (random_tape k)) ->
  reachable Math_cos Math_sin random_tape host s ->
  length (particles s) = Z.to_nat 80000 /\
  forall i, (i < Z.to_nat 80000)%nat ->
    exists p, particles s !! i = Some p /\
      position_x p = (Num.of_nat i mod gridWidth * cellSize - Num.of_Z 1)%js /\
      position_y p = (Num.floor (Num.of_nat i / gridWidth) * cellSize - Num.of_Z 1)%js /\
      (Num.is_finite (speed p) = true /\
       (1 # 100 <= Num.toQ (speed p))%Q /\ (Num.toQ (speed p) < 3 # 100)%Q) /\
      (Num.is_finite (radius p) = true /\
       (5 # 100 <= Num.toQ (radius p))%Q /\ (Num.toQ (radius p) < 15 # 100)%Q).
Proof.
  intros Htape Hs.
  destruct (reachable_all_placed Math_cos Math_sin random_tape host Htape s Hs)
    as [Hlen Hall].
  split; [exact Hlen|].
  intros i Hi. destruct (Hall i Hi) as (p & Hp & [Hx Hy Hsp Hr]).
  exists p. repeat split; try assumption; tauto.
Qed.

Lemma reachable_particles_placed_constructed :
  (forall k, Num64.unit_interval (sample_tape k)) /\
  reachable sample_cos sample_sin sample_tape working_host constructed /\
  length (particles constructed) = Z.to_nat 80000 /\
  forall i, (i < Z.to_nat 80000)%nat ->
    exists p, particles constructed !! i = Some p /\
      position_x p = (Num.of_nat i mod gridWidth * cellSize - Num.of_Z 1)%js /\
      position_y p = (Num.floor (Num.of_nat i / gridWidth) * cellSize - Num.of_Z 1)%js /\
      (Num.is_finite (speed p) = true /\
       (1 # 100 <= Num.toQ (speed p))%Q /\ (Num.toQ (speed p) < 3 # 100)%Q) /\
      (Num.is_finite (radius p) = true /\
       (5 # 100 <= Num.toQ (radius p))%Q /\ (Num.toQ (radius p) < 15 # 100)%Q).
Proof.
  split; [exact sample_tape_unit_interval|].
  split; [exact constructed_reachable|].
  exact (reachable_particles_placed sample_cos sample_sin sample_tape working_host
           constructed sample_tape_unit_interval constructed_reachable).
Defined.

(** A call of [setParticleCount] starts the animation again from new
    random numbers: after it and [n] frames, particle [i] is the one
    built from the three values of [Math.random] at positions
    [r + 3 * i ..] ([r] the number of values drawn before the call),
    advanced [n] times; what the particles were before the call plays
    no part.  This holds also when the call throws. *)
Theorem setParticleCount_restarts (Math_cos Math_sin : number -> number)
    (random_tape : nat -> number) (host : Host) (count : number) (n : nat)
    (s : ParticleSystem) :
  let s' := frames Math_cos Math_sin n
              (final_state (setParticleCount random_tape host count s)) in
  random_calls s' = (random_calls s + 3 * Z.to_nat 80000)%nat /\
  forall i, (i < Z.to_nat 80000)%nat ->
    particles s' !! i
    = Some (Nat.iter n advance
              (new_particle random_tape gridWidth cellSize i (random_calls s + 3 * i))).
Proof.
  cbn zeta. rewrite setParticleCount_eq.
  set (s0 := mkSystem _ _ _ _ _ _).
  destruct (createParticles_fields random_tape host s0) as (Hps & _ & _ & Hr).
  cbn zeta in *. split.
  - destruct (frames_fields Math_cos Math_sin n
                (final_state (createParticles random_tape host s0))) as (_ & -> & _).
    exact Hr.
  - intros i Hi. rewrite frames_particle, Hps.
    rewrite pushed_lookup by exact Hi. reflexivity.
Qed.


(** [cleanup] removes no listener: the function it passes to
    [removeEventListener] is a new one, which was never registered.
    It deletes the program and the buffer and leaves the object as it
    was; so the next [resize] event still reaches [resize], once for
    each listener, and the frame already requested still runs and
    draws. *)
Theorem cleanup_removes_no_listener (Math_cos Math_sin : number -> number)
    (p : Page.State) :
  Page.listeners_exist p ->
  let p' := Page.cleanup p in
  Page.resize_listeners p' = Page.resize_listeners p /\
  Page.deleted p' = Page.deleted p ++ [Page.the_program; Page.the_vertexBuffer] /\
  Page.system p' = Page.system p /\
  Page.listeners_exist p' /\
  gl_trace (Page.system (Page.on_resize p'))
  = gl_trace (Page.system p) ++ replicate (length (Page.resize_listeners p)) gl_viewport /\
  Page.system (Page.on_frame Math_cos Math_sin p') = frame Math_cos Math_sin (Page.system p).
Proof.
  intros Hp. cbn zeta.
  assert (Hl : Page.resize_listeners (Page.cleanup p) = Page.resize_listeners p).
  { unfold Page.cleanup, Page.arrow_function, Page.removeEventListener, Page.gl_delete.
    cbn [Page.resize_listeners]. apply filter_other_listeners. exact Hp. }
  assert (Hs : Page.system (Page.cleanup p) = Page.system p) by reflexivity.
  split; [exact Hl|]. split.
  { unfold Page.cleanup, Page.arrow_function, Page.removeEventListener, Page.gl_delete.
    cbn [Page.deleted]. rewrite <- app_assoc. reflexivity. }
  split; [exact Hs|]. split.
  { unfold Page.listeners_exist. rewrite Hl.
    eapply Forall_impl; [exact Hp|]. cbn. intros; lia. }
  split.
  { destruct (on_resize_trace (Page.cleanup p)) as [-> _]. rewrite Hl, Hs. reflexivity. }
  unfold Page.on_frame, Page.run. rewrite Hs, animate_eq. reflexivity.
Qed.



Lemma cleanup_removes_no_listener_registered :
  let p := Page.mkState two_particles [0%nat] 1 [] [] in
  Page.listeners_exist p /\
  let p' := Page.cleanup p in
  Page.resize_listeners p' = Page.resize_listeners p /\
  Page.deleted p' = Page.deleted p ++ [Page.the_program; Page.the_vertexBuffer] /\
  Page.system p' = Page.system p /\
  Page.listeners_exist p' /\
  gl_trace (Page.system (Page.on_resize p'))
  = gl_trace (Page.system p) ++ replicate (length (Page.resize_listeners p)) gl_viewport /\
  Page.system (Page.on_frame sample_cos sample_sin p')
  = frame sample_cos sample_sin (Page.system p).
Proof.
  cbn zeta. split; [apply Forall_cons_2; [apply Nat.lt_0_1 | apply Forall_nil_2]|].
  apply (cleanup_removes_no_listener sample_cos sample_sin
           (Page.mkState two_particles [0%nat] 1 [] [])).
  apply Forall_cons_2; [apply Nat.lt_0_1 | apply Forall_nil_2].
Defined.

